(** * Image Autocrop: a shallow embedding of the pixel pipeline

    The development follows [src/main.ts] (the pixel-scanning variant) and
    [src/unnamed/part_000] (the trim-and-pad variant) of the plugin.

    - JavaScript numbers that the code manipulates are integers or [NaN];
      they are modelled by [number].
    - A Node [Buffer] is a list of bytes (as [Z]); reading outside the buffer
      yields [undefined], which every arithmetic and comparison context of
      the code turns into [NaN]; writing outside the buffer is ignored.
    - Counted [for] loops without [break] are folds over the list of visited
      indices; loops with a labelled [break] are searches.
    - The image library (sharp), the vault and the workspace are
      collaborators: sharp is a record of fallible operations, the vault is a
      finite map from paths to entries. *)

From stdpp Require Import base numbers list strings pretty gmap sets.
From Stdlib Require Import ZArith Lia Ascii.

Local Open Scope Z_scope.

(** ** JavaScript numbers and buffers *)

Inductive number := Num (z : Z) | NaN.

Definition num_add (a b : number) : number :=
  match a, b with Num x, Num y => Num (x + y) | _, _ => NaN end.

Definition num_sub (a b : number) : number :=
  match a, b with Num x, Num y => Num (x - y) | _, _ => NaN end.

(** [Math.abs] *)
Definition num_abs (a : number) : number :=
  match a with Num x => Num (Z.abs x) | NaN => NaN end.

(** [a <= b]; any comparison with [NaN] is false. *)
Definition num_le (a b : number) : bool :=
  match a, b with Num x, Num y => x <=? y | _, _ => false end.

(** [a < b] *)
Definition num_lt (a b : number) : bool :=
  match a, b with Num x, Num y => x <? y | _, _ => false end.

(** [a > b] *)
Definition num_gt (a b : number) : bool := num_lt b a.

(** [Math.round(a / count)] for an integer [count > 0]: the quotient is
    rounded to the nearest integer, halves towards +infinity, that is
    [floor (a/count + 1/2)]. *)
Definition num_round_div (a : number) (count : Z) : number :=
  match a with
  | Num x => Num ((2 * x + count) / (2 * count))
  | NaN => NaN
  end.

Abbreviation Buffer := (list Z).

(** [pixels[i]] in a numeric context *)
Definition buf_get (pixels : Buffer) (i : Z) : number :=
  if i <? 0 then NaN
  else match pixels !! Z.to_nat i with
       | Some v => Num v
       | None => NaN
       end.

(** [pixels[i] = v] *)
Definition buf_set (pixels : Buffer) (i : Z) (v : Z) : Buffer :=
  if i <? 0 then pixels else <[Z.to_nat i := v]> pixels.

(** [pixels.length] *)
Definition buf_length (pixels : Buffer) : Z := Z.of_nat (length pixels).

(** The indices visited by [for (let i = a; i < b; i += k)], [k > 0]. *)
Definition for_range (a b k : Z) : list Z :=
  (λ j, a + k * j) <$> seqZ 0 ((b - a + k - 1) / k).

(** The loop itself, for a body that neither breaks nor assigns [i]. *)
Definition for_loop {S : Type} (a b k : Z) (body : S → Z → S) (s : S) : S :=
  foldl body s (for_range a b k).

Record Color := { r : number; g : number; b : number }.

Definition rgb (cr cg cb : Z) : Color :=
  {| r := Num cr; g := Num cg; b := Num cb |}.

(** ** Transparency masker *)

(** The test of [makeBackgroundTransparent] (main.ts, l. 372-375), which is
    also the test of the loop of [removeBackgroundColor] (part_000,
    l. 476-485). *)
Definition near_background (pixels : Buffer) (bg : Color) (tolerance : Z) (i : Z) : bool :=
  let dr := num_abs (num_sub (buf_get pixels i) (r bg)) in
  let dg := num_abs (num_sub (buf_get pixels (i + 1)) (g bg)) in
  let db := num_abs (num_sub (buf_get pixels (i + 2)) (b bg)) in
  num_le dr (Num tolerance) && num_le dg (Num tolerance) && num_le db (Num tolerance).

Definition mask_pixel (bg : Color) (tolerance : Z) (pixels : Buffer) (i : Z) : Buffer :=
  if near_background pixels bg tolerance i then buf_set pixels (i + 3) 0 else pixels.

(** main.ts, l. 370-379 *)
Definition makeBackgroundTransparent (pixels : Buffer) (bg : Color) (tolerance : Z) : Buffer :=
  for_loop 0 (buf_length pixels) 4 (mask_pixel bg tolerance) pixels.

(** ** Background detector (main.ts, l. 311-368) *)

Definition sampleSize : Z := 20.

(** The running sums [r], [g], [b] and [count]. *)
Record Sums := { sum_r : number; sum_g : number; sum_b : number; count : Z }.

Definition no_sums : Sums := {| sum_r := Num 0; sum_g := Num 0; sum_b := Num 0; count := 0 |}.

(** The index computed for the pixel at column [x] of row [y]. *)
Definition pixel_index (width x y : Z) : Z := (y * width + x) * 4.

(** Lines 329-335 (and 345-350, 356-361): skip the pixel when its alpha is
    below 128, otherwise add its channels to the sums. *)
Definition sample (pixels : Buffer) (width : Z) (s : Sums) (x y : Z) : Sums :=
  let idx := pixel_index width x y in
  if num_lt (buf_get pixels (idx + 3)) (Num 128) then s
  else {| sum_r := num_add (sum_r s) (buf_get pixels idx);
          sum_g := num_add (sum_g s) (buf_get pixels (idx + 1));
          sum_b := num_add (sum_b s) (buf_get pixels (idx + 2));
          count := count s + 1 |}.

Definition corners (width height : Z) : list (Z * Z) :=
  [ (0, 0); (width - sampleSize, 0); (0, height - sampleSize);
    (width - sampleSize, height - sampleSize) ].

(** The pixels that the loops of lines 323-338 reach past the [continue] of
    line 328, in the order they reach them. *)
Definition corner_points (width height : Z) : list (Z * Z) :=
  corner ← corners width height;
  dy ← for_range 0 sampleSize 1;
  dx ← for_range 0 sampleSize 1;
  let x := corner.1 + dx in
  let y := corner.2 + dy in
  if (x >=? width) || (y >=? height) then [] else [(x, y)].

(** The pixels that the loops of lines 343-363 reach, in order. *)
Definition edge_points (width height : Z) : list (Z * Z) :=
  (x ← for_range 0 width 10; y ← [0; height - 1]; [(x, y)])
  ++ (y ← for_range 0 height 10; x ← [0; width - 1]; [(x, y)]).

Definition sample_all (pixels : Buffer) (width : Z) (s : Sums) (points : list (Z * Z)) : Sums :=
  foldl (λ s p, sample pixels width s p.1 p.2) s points.

(** The sums after the corner pass and, when it ran, the edge pass. *)
Definition background_sums (pixels : Buffer) (width height : Z) : Sums :=
  let s := sample_all pixels width no_sums (corner_points width height) in
  if count s <? 100 then sample_all pixels width s (edge_points width height) else s.

Definition detectBackgroundColor (pixels : Buffer) (width height : Z) : option Color :=
  let s := background_sums pixels width height in
  if count s =? 0 then None
  else Some {| r := num_round_div (sum_r s) (count s);
               g := num_round_div (sum_g s) (count s);
               b := num_round_div (sum_b s) (count s) |}.

(** ** Bounds finder (main.ts, l. 381-430) *)

Record Bounds := { top : Z; bottom : Z; left : Z; right : Z }.

(** [pixels[(y * width + x) * 4 + 3] > threshold] *)
Definition is_content (pixels : Buffer) (width threshold : Z) (x y : Z) : bool :=
  num_gt (buf_get pixels (pixel_index width x y + 3)) (Num threshold).

(** The inner loop of [topLoop] and [bottomLoop] reaches its [break] for row
    [y] exactly when some column of the row holds content. *)
Definition row_has_content (pixels : Buffer) (width threshold : Z) (y : Z) : bool :=
  existsb (λ x, is_content pixels width threshold x y) (seqZ 0 width).

(** Likewise for [leftLoop] and [rightLoop] and column [x]. *)
Definition column_has_content (pixels : Buffer) (width height threshold : Z) (x : Z) : bool :=
  existsb (λ y, is_content pixels width threshold x y) (seqZ 0 height).

(** [threshold] is [this.settings.trimThreshold]. An ascending loop stops at
    the first index that breaks, a descending loop at the last one; the
    initial value stays when no index breaks. *)
Definition findContentBounds (threshold : Z) (pixels : Buffer) (width height : Z) : Bounds :=
  let rows := seqZ 0 height in
  let columns := seqZ 0 width in
  {| top := default 0 (List.find (row_has_content pixels width threshold) rows);
     bottom := default height
       ((λ y, y + 1) <$> List.find (row_has_content pixels width threshold) (reverse rows));
     left := default 0 (List.find (column_has_content pixels width height threshold) columns);
     right := default width
       ((λ x, x + 1) <$> List.find (column_has_content pixels width height threshold) (reverse columns)) |}.

(** The pixel at column [x] of row [y] lies in the image and its alpha is
    strictly above the threshold. *)
Definition content_at (threshold : Z) (pixels : Buffer) (width height : Z) (x y : Z) : Prop :=
  0 ≤ x < width ∧ 0 ≤ y < height ∧
  ∃ alpha, buf_get pixels (pixel_index width x y + 3) = Num alpha ∧ threshold < alpha.

(** ** Errors, settings and the image library *)

(** The outcome of a call that may throw; an exception is kept by its
    [message]. *)
Inductive result (A : Type) := Ok (a : A) | Err (message : string).
Arguments Ok {A} a.
Arguments Err {A} message.

#[export] Instance result_ret : MRet result := @Ok.
#[export] Instance result_bind : MBind result :=
  λ A B f m, match m with Ok a => f a | Err e => Err e end.
#[export] Instance result_fmap : FMap result :=
  λ A B f m, match m with Ok a => Ok (f a) | Err e => Err e end.

(** A computation that also writes to the console: its outcome and the lines
    it printed, oldest first. *)
Definition Logged (A : Type) : Type := result A * list string.

Record Settings := {
  watchedFolder : string;
  targetSize : Z;
  enabled : bool;
  processExisting : bool;
  trimThreshold : Z;
  backgroundColor : string;
  removeBackground : bool;
  backgroundTolerance : Z;
  keepBackup : bool
}.

(** part_000, l. 18-28; main.ts (l. 14-20) has the five fields it declares
    with the same values. *)
Definition DEFAULT_SETTINGS : Settings :=
  {| watchedFolder := "_Assets/Enluminures"; targetSize := 200; enabled := true;
     processExisting := false; trimThreshold := 10; backgroundColor := "transparent";
     removeBackground := false; backgroundTolerance := 30; keepBackup := true |}.

(** What [toBuffer({ resolveWithObject: true })] resolves to. *)
Record RawImage := { data : Buffer; info_width : Z; info_height : Z }.

(** The argument of [extract]. *)
Record Region := { region_left : Z; region_top : Z; region_width : Z; region_height : Z }.

(** The argument of [extend], background apart. *)
Record Padding := { padTop : Z; padBottom : Z; padLeft : Z; padRight : Z }.

(** The background handed to [extend]: the transparent constant, or what
    [parseColor] makes of the configured string (left uninterpreted). *)
Inductive Background := Transparent | Parsed (color : string).

(** [metadata()]: a dimension is [None] when the library reports none. *)
Record Metadata := { md_width : option Z; md_height : option Z }.

(** The calls the plugin makes to sharp, one field per pipeline that ends in
    [toBuffer] or [metadata]; each may throw. *)
Record Sharp := {
  (** [sharp(buf).ensureAlpha().raw().toBuffer({ resolveWithObject: true })] *)
  sharp_raw : Buffer → result RawImage;
  (** [sharp(pixels, { raw }).extract(region).resize(size, size, { fit: "inside",
      kernel: "lanczos3" }).png(...).toBuffer()] *)
  sharp_extract_resize_png : RawImage → Region → Z → result Buffer;
  (** [sharp(buf).png(...).toBuffer()] *)
  sharp_png : Buffer → result Buffer;
  (** [sharp(buf).metadata()] *)
  sharp_metadata : Buffer → result Metadata;
  (** [sharp(buf).trim({ threshold }).toBuffer({ resolveWithObject: true })] *)
  sharp_trim : Buffer → Z → result RawImage;
  (** [sharp(buf).extend({ ..., background }).resize(size, size, { fit: "fill",
      kernel: "lanczos3" }).png(...).toBuffer()] *)
  sharp_extend_resize_png : Buffer → Padding → Background → Z → result Buffer;
  (** [sharp(buf).resize(size, size, { fit: "contain", background: transparent,
      kernel: "lanczos3" }).png(...).toBuffer()] *)
  sharp_resize_contain_png : Buffer → Z → result Buffer;
  (** [sharp(pixels, { raw }).png().toBuffer()] *)
  sharp_raw_png : RawImage → result Buffer
}.

(** The module variable [sharp] (null when loading failed) and
    [this.settings]. *)
Record Plugin := { sharp : option Sharp; settings : Settings }.

(** [!n] for an optional dimension: missing or zero. *)
Definition falsy (n : option Z) : bool :=
  match n with Some v => v =? 0 | None => true end.

(** [hay.includes(needle)] *)
Fixpoint includes (hay needle : string) : bool :=
  String.prefix needle hay ||
  match hay with
  | EmptyString => false
  | String _ rest => includes rest needle
  end.

(** [String(n)] for the numbers printed to the console *)
Definition show (n : number) : string :=
  match n with Num z => pretty z | NaN => "NaN" end.

(** ** The pipeline of main.ts *)

Module Main.

(** l. 432-443: no resize takes place here. *)
Definition resizeOnly (P : Plugin) (inputBuffer : Buffer) : result (option Buffer) :=
  match sharp P with
  | None => Ok None
  | Some sh => result ← sharp_png sh inputBuffer; Ok (Some result)
  end.

(** l. 266-304, the body of the [try] block. *)
Definition crop (sh : Sharp) (st : Settings) (inputBuffer : Buffer) : result Buffer :=
  raw ← sharp_raw sh inputBuffer;
  let width := info_width raw in
  let height := info_height raw in
  let pixels := data raw in
  let bgColor := detectBackgroundColor pixels width height in
  let pixels := match bgColor with
                | Some bg => makeBackgroundTransparent pixels bg 30
                | None => pixels
                end in
  let bounds := findContentBounds (trimThreshold st) pixels width height in
  sharp_extract_resize_png sh
    {| data := pixels; info_width := width; info_height := height |}
    {| region_left := left bounds; region_top := top bounds;
       region_width := right bounds - left bounds;
       region_height := bottom bounds - top bounds |}
    (targetSize st).

(** l. 262-309 *)
Definition autocropImage (P : Plugin) (inputBuffer : Buffer) : Logged (option Buffer) :=
  match sharp P with
  | None => (Ok None, [])
  | Some sh =>
      match crop sh (settings P) inputBuffer with
      | Ok result => (Ok (Some result), [])
      | Err error => (resizeOnly P inputBuffer, ["Autocrop failed: " +:+ error])
      end
  end.

End Main.

(** ** The pipeline of part_000 *)

Module Part000.

(** l. 387-403 *)
Definition resizeOnly (P : Plugin) (inputBuffer : Buffer) : result (option Buffer) :=
  match sharp P with
  | None => Ok None
  | Some sh => result ← sharp_resize_contain_png sh inputBuffer (targetSize (settings P));
               Ok (Some result)
  end.

(** The pixels that the loops of l. 443-459 reach, in order: both inner
    loops stop at the image's far edge. *)
Definition corner_points (width height : Z) : list (Z * Z) :=
  corner ← corners width height;
  dy ← for_range 0 (Z.min sampleSize (height - corner.2)) 1;
  dx ← for_range 0 (Z.min sampleSize (width - corner.1)) 1;
  [(corner.1 + dx, corner.2 + dy)].

(** l. 411-502, the body of the [try] block; [None] stands for the early
    returns of [inputBuffer]. *)
Definition removeBackground_try (sh : Sharp) (st : Settings) (inputBuffer : Buffer)
  : Logged (option Buffer) :=
  match sharp_metadata sh inputBuffer with
  | Err e => (Err e, [])
  | Ok metadata =>
    match md_width metadata, md_height metadata with
    | Some width, Some height =>
      if (width =? 0) || (height =? 0) then (Ok None, []) else
      match sharp_raw sh inputBuffer with
      | Err e => (Err e, [])
      | Ok rawImage =>
        let pixels := data rawImage in
        let imgWidth := info_width rawImage in
        let s := sample_all pixels imgWidth no_sums (corner_points width height) in
        if count s =? 0 then (Ok None, []) else
        let bg := {| r := num_round_div (sum_r s) (count s);
                     g := num_round_div (sum_g s) (count s);
                     b := num_round_div (sum_b s) (count s) |} in
        let line := "Detected background color: RGB(" +:+ show (r bg) +:+ ", "
                      +:+ show (g bg) +:+ ", " +:+ show (b bg) +:+ ")" in
        let pixels := makeBackgroundTransparent pixels bg (backgroundTolerance st) in
        (Some <$> sharp_raw_png sh {| data := pixels; info_width := info_width rawImage;
                                      info_height := info_height rawImage |},
         [line])
      end
    | _, _ => (Ok None, [])
    end
  end.

(** l. 408-507: every error is caught, so a buffer always comes back. *)
Definition removeBackgroundColor (P : Plugin) (inputBuffer : Buffer) : Buffer * list string :=
  match sharp P with
  | None => (inputBuffer, [])
  | Some sh =>
      match removeBackground_try sh (settings P) inputBuffer with
      | (Ok (Some result), lines) => (result, lines)
      | (Ok None, lines) => (inputBuffer, lines)
      | (Err error, lines) =>
          (inputBuffer, lines ++ ["Failed to remove background: " +:+ error])
      end
  end.

(** l. 320-325: the buffer the [try] block works on, and the lines printed
    while preparing it. *)
Definition workingBuffer (P : Plugin) (inputBuffer : Buffer) : Buffer * list string :=
  if removeBackground (settings P) then removeBackgroundColor P inputBuffer
  else (inputBuffer, []).

(** l. 344-351 *)
Definition squarePadding (width height : Z) : Padding :=
  let maxSide := Z.max width height in
  let padLeft := (maxSide - width) / 2 in
  let padTop := (maxSide - height) / 2 in
  let padRight := maxSide - width - padLeft in
  let padBottom := maxSide - height - padTop in
  {| padTop := padTop; padBottom := padBottom; padLeft := padLeft; padRight := padRight |}.

(** l. 327-376, the [try] block after background removal. *)
Definition crop (sh : Sharp) (st : Settings) (workingBuffer : Buffer) : result Buffer :=
  metadata ← sharp_metadata sh workingBuffer;
  if falsy (md_width metadata) || falsy (md_height metadata)
  then Err "Could not read image dimensions"
  else
    trimmed ← sharp_trim sh workingBuffer (trimThreshold st);
    let background := if String.eqb (backgroundColor st) "transparent"
                      then Transparent else Parsed (backgroundColor st) in
    sharp_extend_resize_png sh (data trimmed)
      (squarePadding (info_width trimmed) (info_height trimmed)) background (targetSize st).

(** l. 316-385 *)
Definition autocropImage (P : Plugin) (inputBuffer : Buffer) : Logged (option Buffer) :=
  match sharp P with
  | None => (Ok None, [])
  | Some sh =>
      let '(working, lines) := workingBuffer P inputBuffer in
      match crop sh (settings P) working with
      | Ok result => (Ok (Some result), lines)
      | Err error =>
          if includes error "trim"
          then (resizeOnly P inputBuffer, lines ++ ["Trim failed, trying resize only"])
          else (Err error, lines)
      end
  end.

End Part000.

(** ** Paths *)

(** [s.lastIndexOf(c)] for a one-character [c]: -1 when [c] does not occur. *)
Fixpoint lastIndexOf_from (s : string) (c : Ascii.ascii) (i found : Z) : Z :=
  match s with
  | EmptyString => found
  | String a rest => lastIndexOf_from rest c (i + 1) (if Ascii.eqb a c then i else found)
  end.

Definition lastIndexOf (s : string) (c : Ascii.ascii) : Z := lastIndexOf_from s c 0 (-1).

(** [s.substring(start, stop)]: both ends are clamped to [0, s.length] and
    swapped when out of order. *)
Definition js_substring (s : string) (start stop : Z) : string :=
  let len := Z.of_nat (String.length s) in
  let a := Z.max 0 (Z.min start len) in
  let b := Z.max 0 (Z.min stop len) in
  String.substring (Z.to_nat (Z.min a b)) (Z.to_nat (Z.max a b - Z.min a b)) s.

(** [s.substring(start)] *)
Definition js_substring_from (s : string) (start : Z) : string :=
  js_substring s start (Z.of_nat (String.length s)).

(** main.ts, l. 185-189 *)
Definition getBackupPath (filePath : string) : string :=
  let dir := js_substring filePath 0 (lastIndexOf filePath "/"%char) in
  let filename := js_substring_from filePath (lastIndexOf filePath "/"%char + 1) in
  dir +:+ "/_originals/" +:+ filename.

(** ** The vault, the plugin's state and the calls that touch them *)

Inductive Entry := File (contents : Buffer) | Folder.

Record TFile := { path : string; name : string }.

#[export] Instance TFile_eq_dec : EqDecision TFile.
Proof. solve_decision. Defined.

(** The writes a vault has served, for counting them. *)
Inductive VaultOp :=
  | CreatedFolder (at_path : string)
  | CreatedBinary (at_path : string) (contents : Buffer)
  | ModifiedBinary (at_path : string) (contents : Buffer).

Record World := {
  vault : gmap string Entry;
  (** [this.processing] *)
  processing : gset string;
  (** the [Notice]s shown, oldest first *)
  notices : list string;
  console : list string;
  (** the pending [setTimeout] callbacks of [processImage]: when each is due
      and the path it will delete from [processing] *)
  timers : list (Z * string);
  (** milliseconds *)
  clock : Z;
  journal : list VaultOp
}.

Definition with_vault (v : gmap string Entry) (op : VaultOp) (w : World) : World :=
  {| vault := v; processing := processing w; notices := notices w; console := console w;
     timers := timers w; clock := clock w; journal := journal w ++ [op] |}.

Definition with_processing (s : gset string) (w : World) : World :=
  {| vault := vault w; processing := s; notices := notices w; console := console w;
     timers := timers w; clock := clock w; journal := journal w |}.

Definition with_notice (line : string) (w : World) : World :=
  {| vault := vault w; processing := processing w; notices := notices w ++ [line];
     console := console w; timers := timers w; clock := clock w; journal := journal w |}.

Definition with_console (lines : list string) (w : World) : World :=
  {| vault := vault w; processing := processing w; notices := notices w;
     console := console w ++ lines; timers := timers w; clock := clock w;
     journal := journal w |}.

Definition with_timers (ts : list (Z * string)) (w : World) : World :=
  {| vault := vault w; processing := processing w; notices := notices w; console := console w;
     timers := ts; clock := clock w; journal := journal w |}.

Definition with_clock (t : Z) (w : World) : World :=
  {| vault := vault w; processing := processing w; notices := notices w; console := console w;
     timers := timers w; clock := t; journal := journal w |}.

(** An asynchronous method of the plugin: it may throw, and what it did to
    the world before throwing stays done. *)
Definition M (A : Type) : Type := World → result A * World.

#[export] Instance M_ret : MRet M := λ A a w, (Ok a, w).
#[export] Instance M_bind : MBind M :=
  λ A B f m w, match m w with
               | (Ok a, w') => f a w'
               | (Err e, w') => (Err e, w')
               end.

(** [try { m } catch (error) { handler }] *)
Definition try_catch {A} (m : M A) (handler : string → M A) : M A :=
  λ w, match m w with
       | (Err e, w') => handler e w'
       | done => done
       end.

(** [try { m } finally { after }], for an [after] that cannot throw *)
Definition try_finally {A} (m : M A) (after : World → World) : M A :=
  λ w, let '(outcome, w') := m w in (outcome, after w').

Definition new_Notice (line : string) : M unit := λ w, (Ok (), with_notice line w).

Definition console_log (line : string) : M unit := λ w, (Ok (), with_console [line] w).

(** A console-writing computation run inside a method. *)
Definition logged {A} (m : Logged A) : M A := λ w, (m.1, with_console m.2 w).

(** The vault calls; each is one storage operation. *)
Definition readBinary (file : TFile) : M Buffer :=
  λ w, match vault w !! path file with
       | Some (File contents) => (Ok contents, w)
       | _ => (Err "File not found", w)
       end.

Definition getAbstractFileByPath (p : string) : M (option Entry) :=
  λ w, (Ok (vault w !! p), w).

Definition createFolder (p : string) : M unit :=
  λ w, match vault w !! p with
       | Some _ => (Err "Folder already exists.", w)
       | None => (Ok (), with_vault (<[p := Folder]> (vault w)) (CreatedFolder p) w)
       end.

Definition createBinary (p : string) (contents : Buffer) : M unit :=
  λ w, match vault w !! p with
       | Some _ => (Err "File already exists.", w)
       | None => (Ok (), with_vault (<[p := File contents]> (vault w)) (CreatedBinary p contents) w)
       end.

Definition modifyBinary (file : TFile) (contents : Buffer) : M unit :=
  λ w, (Ok (), with_vault (<[path file := File contents]> (vault w))
                 (ModifiedBinary (path file) contents) w).

(** [setTimeout(() => { this.processing.delete(p); }, delay)] *)
Definition delete_later (delay : Z) (p : string) (w : World) : World :=
  with_timers (timers w ++ [(clock w + delay, p)]) w.

(** ** processImage (main.ts, l. 206-260; part_000, l. 252-314) *)

Section processImage.

(** [this.autocropImage] of either variant, and the outcome of
    [this.refreshImageCache], which belongs to the workspace. *)
Variable autocropImage : Plugin → Buffer → Logged (option Buffer).
Variable refreshImageCache : TFile → result unit.

(** l. 224-236 *)
Definition keep_backup (file : TFile) (contents : Buffer) : M unit :=
  let backupPath := getBackupPath (path file) in
  existingBackup ← getAbstractFileByPath backupPath;
  match existingBackup with
  | Some _ => mret ()
  | None =>
      let backupDir := js_substring backupPath 0 (lastIndexOf backupPath "/"%char) in
      folderExists ← getAbstractFileByPath backupDir;
      _ ← match folderExists with
          | Some _ => mret ()
          | None => createFolder backupDir
          end;
      _ ← createBinary backupPath contents;
      console_log ("Backup created: " +:+ backupPath)
  end.

(** l. 219-250, the body of the [try] block. *)
Definition processImage_try (P : Plugin) (file : TFile) : M bool :=
  _ ← console_log ("Processing image: " +:+ path file);
  contents ← readBinary file;
  _ ← (if keepBackup (settings P) then keep_backup file contents else mret ());
  processedBuffer ← logged (autocropImage P contents);
  match processedBuffer with
  | Some processed =>
      _ ← modifyBinary file processed;
      _ ← (λ w, (refreshImageCache file, w));
      _ ← console_log ("Successfully processed: " +:+ path file);
      _ ← new_Notice ("Image autocropped: " +:+ name file);
      mret true
  | None =>
      _ ← console_log ("No processing needed for: " +:+ path file);
      mret false
  end.

(** l. 251-254, the [catch] block. *)
Definition processImage_catch (file : TFile) (error : string) : M bool :=
  _ ← console_log ("Failed to process " +:+ path file +:+ ": " +:+ error);
  _ ← new_Notice ("Failed to process " +:+ name file +:+ ": " +:+ error);
  mret false.

(** l. 207-216: what runs before the first [await]. [true] when the
    run goes on. *)
Definition processImage_enter (P : Plugin) (file : TFile) : M bool :=
  match sharp P with
  | None => _ ← new_Notice "Image processing library not available"; mret false
  | Some _ =>
      λ w, if decide (path file ∈ processing w) then (Ok false, w)
           else (Ok true, with_processing ({[path file]} ∪ processing w) w)
  end.

(** l. 218-259: the [try], [catch] and [finally] blocks. *)
Definition processImage_run (P : Plugin) (file : TFile) : M bool :=
  try_finally (try_catch (processImage_try P file) (processImage_catch file))
    (delete_later 2000 (path file)).

Definition processImage (P : Plugin) (file : TFile) : M bool :=
  admitted ← processImage_enter P file;
  if admitted : bool then processImage_run P file else mret false.

(** ** Requests, completions and time *)

(** What can happen to a plugin: [processImage file] is called and runs up
    to its first [await]; a run that was let in goes on to its end; time
    passes and the timers that came due fire. *)
Inductive Event :=
  | Request (file : TFile)
  | Settle (file : TFile)
  | Elapse (ms : Z).

Record Sched := {
  world : World;
  (** the runs let in and not yet at their end *)
  inflight : list TFile;
  (** what each finished call returned, oldest first *)
  returned : list (TFile * result bool)
}.

(** The callbacks due at [clock w] run and leave [timers]. *)
Definition fire_timers (w : World) : World :=
  let due := filter (λ t, t.1 ≤ clock w) (timers w) in
  let pending := filter (λ t, ¬ t.1 ≤ clock w) (timers w) in
  with_timers pending (with_processing (processing w ∖ list_to_set (due.*2)) w).

Definition step (P : Plugin) (s : Sched) (e : Event) : Sched :=
  match e with
  | Request file =>
      match processImage_enter P file (world s) with
      | (Ok true, w) =>
          {| world := w; inflight := inflight s ++ [file]; returned := returned s |}
      | (outcome, w) =>
          {| world := w; inflight := inflight s;
             returned := returned s ++ [(file, outcome)] |}
      end
  | Settle file =>
      if decide (file ∈ inflight s) then
        let '(outcome, w) := processImage_run P file (world s) in
        {| world := w; inflight := filter (λ f, f ≠ file) (inflight s);
           returned := returned s ++ [(file, outcome)] |}
      else s
  | Elapse ms =>
      {| world := fire_timers (with_clock (clock (world s) + Z.max 0 ms) (world s));
         inflight := inflight s; returned := returned s |}
  end.

Definition run (P : Plugin) (s : Sched) (events : list Event) : Sched :=
  foldl (step P) s events.

End processImage.

(** A plugin that has just loaded over a given vault. *)
Definition fresh (v : gmap string Entry) : World :=
  {| vault := v; processing := ∅; notices := []; console := []; timers := [];
     clock := 0; journal := [] |}.

Definition start (w : World) : Sched := {| world := w; inflight := []; returned := [] |}.

Definition op_path (op : VaultOp) : string :=
  match op with
  | CreatedFolder p | CreatedBinary p _ | ModifiedBinary p _ => p
  end.

(** The writes to [p] in a journal. *)
Definition writes_to (p : string) (ops : list VaultOp) : list VaultOp :=
  filter (λ op, op_path op = p) ops.

(** ** Concrete images and a stand-in for sharp

    To run the pipelines on concrete inputs: solid images, and a small image
    library with the interface of [Sharp]. It stores an image as its width,
    its height and its raw RGBA bytes (in place of PNG) and resamples by
    nearest neighbour (in place of Lanczos). *)

(** [n] pixels of one colour and alpha. *)
Fixpoint solid (n : nat) (cr cg cb alpha : Z) : Buffer :=
  match n with
  | O => []
  | S n => cr :: cg :: cb :: alpha :: solid n cr cg cb alpha
  end.

Module Toy.

Definition unsupported : string := "Input buffer contains unsupported image format".

Definition encode (img : RawImage) : Buffer :=
  info_width img :: info_height img :: data img.

Definition decode (buf : Buffer) : result RawImage :=
  match buf with
  | w :: h :: pixels =>
      if (0 <? w) && (0 <? h) && (buf_length pixels =? w * h * 4)
      then Ok {| data := pixels; info_width := w; info_height := h |}
      else Err unsupported
  | _ => Err unsupported
  end.

Definition byte_at (pixels : Buffer) (i : Z) : Z :=
  match buf_get pixels i with Num v => v | NaN => 0 end.

Definition pixel_at (img : RawImage) (x y : Z) : list Z :=
  let idx := pixel_index (info_width img) x y in
  [byte_at (data img) idx; byte_at (data img) (idx + 1);
   byte_at (data img) (idx + 2); byte_at (data img) (idx + 3)].

(** The [w] by [h] image whose pixel at [(x, y)] is [f x y]. *)
Definition render (w h : Z) (f : Z → Z → list Z) : RawImage :=
  {| data := y ← seqZ 0 h; x ← seqZ 0 w; f x y; info_width := w; info_height := h |}.

Definition extract (img : RawImage) (region : Region) : result RawImage :=
  if (0 <=? region_left region) && (0 <=? region_top region)
     && (0 <? region_width region) && (0 <? region_height region)
     && (region_left region + region_width region <=? info_width img)
     && (region_top region + region_height region <=? info_height img)
  then Ok (render (region_width region) (region_height region)
             (λ x y, pixel_at img (region_left region + x) (region_top region + y)))
  else Err "extract_area: bad extract area".

(** Stretch to [w] by [h]. *)
Definition resize_fill (img : RawImage) (w h : Z) : result RawImage :=
  if (0 <? w) && (0 <? h)
  then Ok (render w h (λ x y, pixel_at img (x * info_width img / w) (y * info_height img / h)))
  else Err "Expected positive integer for width".

(** The largest size of the image's proportions within [size] by [size]. *)
Definition fitted (img : RawImage) (size : Z) : Z * Z :=
  if info_height img <=? info_width img
  then (size, Z.max 1 (info_height img * size / info_width img))
  else (Z.max 1 (info_width img * size / info_height img), size).

Definition resize_inside (img : RawImage) (size : Z) : result RawImage :=
  let '(w, h) := fitted img size in
  if 0 <? size then resize_fill img w h else Err "Expected positive integer for width".

Definition extend (img : RawImage) (pad : Padding) (fill : list Z) : result RawImage :=
  if (0 <=? padTop pad) && (0 <=? padBottom pad) && (0 <=? padLeft pad) && (0 <=? padRight pad)
  then Ok (render (info_width img + padLeft pad + padRight pad)
             (info_height img + padTop pad + padBottom pad)
             (λ x y, if (padLeft pad <=? x) && (x <? padLeft pad + info_width img)
                        && (padTop pad <=? y) && (y <? padTop pad + info_height img)
                     then pixel_at img (x - padLeft pad) (y - padTop pad)
                     else fill))
  else Err "Expected positive integer for extend".

Definition resize_contain (img : RawImage) (size : Z) : result RawImage :=
  let '(w, h) := fitted img size in
  if 0 <? size then
    inner ← resize_fill img w h;
    extend inner {| padTop := (size - h) / 2; padBottom := size - h - (size - h) / 2;
                    padLeft := (size - w) / 2; padRight := size - w - (size - w) / 2 |}
      [0; 0; 0; 0]
  else Err "Expected positive integer for width".

(** A pixel differs from the top-left one by more than [threshold] in some
    channel. *)
Definition differs (img : RawImage) (threshold : Z) (x y : Z) : bool :=
  existsb (λ d, threshold <? Z.abs d)
    (zip_with Z.sub (pixel_at img x y) (pixel_at img 0 0)).

(** The box of the pixels that differ from the top-left one; an error when
    there is none. *)
Definition trim (img : RawImage) (threshold : Z) : result RawImage :=
  let rows := seqZ 0 (info_height img) in
  let columns := seqZ 0 (info_width img) in
  let row y := existsb (λ x, differs img threshold x y) columns in
  let column x := existsb (λ y, differs img threshold x y) rows in
  match List.find row rows, List.find row (reverse rows),
        List.find column columns, List.find column (reverse columns) with
  | Some t, Some b, Some l, Some r =>
      extract img {| region_left := l; region_top := t;
                     region_width := r + 1 - l; region_height := b + 1 - t |}
  | _, _, _, _ => Err "Unexpected error while trimming. Try to lower the tolerance"
  end.

Definition fill_of (background : Background) : list Z :=
  match background with
  | Transparent => [0; 0; 0; 0]
  | Parsed _ => [255; 255; 255; 255]
  end.

Definition library : Sharp :=
  {| sharp_raw := decode;
     sharp_extract_resize_png := λ img region size,
       cut ← extract img region; out ← resize_inside cut size; Ok (encode out);
     sharp_png := λ buf, img ← decode buf; Ok (encode img);
     sharp_metadata := λ buf,
       img ← decode buf;
       Ok {| md_width := Some (info_width img); md_height := Some (info_height img) |};
     sharp_trim := λ buf threshold,
       img ← decode buf; cut ← trim img threshold;
       Ok {| data := encode cut; info_width := info_width cut;
             info_height := info_height cut |};
     sharp_extend_resize_png := λ buf pad background size,
       img ← decode buf; padded ← extend img pad (fill_of background);
       out ← resize_fill padded size size; Ok (encode out);
     sharp_resize_contain_png := λ buf size,
       img ← decode buf; out ← resize_contain img size; Ok (encode out);
     sharp_raw_png := λ img, Ok (encode img) |}.

(** A plugin that loaded this library, with the default settings but for the
    target size. *)
Definition plugin (size : Z) (backup : bool) : Plugin :=
  {| sharp := Some library;
     settings := {| watchedFolder := watchedFolder DEFAULT_SETTINGS; targetSize := size;
                    enabled := true; processExisting := false;
                    trimThreshold := trimThreshold DEFAULT_SETTINGS;
                    backgroundColor := backgroundColor DEFAULT_SETTINGS;
                    removeBackground := false;
                    backgroundTolerance := backgroundTolerance DEFAULT_SETTINGS;
                    keepBackup := backup |} |}.

(** A 3 by 2 image: a red pixel and a blue one on a white ground. *)
Definition picture : RawImage :=
  {| data := [255; 255; 255; 255;  255; 255; 255; 255;  255; 255; 255; 255;
              255; 255; 255; 255;  200; 0; 0; 255;      0; 0; 200; 255];
     info_width := 3; info_height := 2 |}.

(** A solid opaque 50 by 50 image. *)
Definition blank : RawImage :=
  {| data := solid 2500 9 9 9 255; info_width := 50; info_height := 50 |}.

(** Bytes that are no image. *)
Definition garbage : Buffer := [0].

End Toy.

(** What [k] opaque samples of the colour [(cr, cg, cb)] add to the sums of
    the background detector. *)
Definition add_samples (cr cg cb : Z) (k : Z) (s : Sums) : Sums :=
  {| sum_r := num_add (sum_r s) (Num (k * cr));
     sum_g := num_add (sum_g s) (Num (k * cg));
     sum_b := num_add (sum_b s) (Num (k * cb));
     count := count s + k |}.

(** ** Predicates used to state what processImage does *)

(** From [w] to [w'] entries were only created: the plugin's own state is as
    it was, and so are all entries that existed, with the writes made to
    them. *)
Definition only_creates (w w' : World) : Prop :=
  processing w' = processing w ∧ timers w' = timers w ∧ clock w' = clock w
  ∧ notices w' = notices w
  ∧ ∀ p e, vault w !! p = Some e →
      vault w' !! p = Some e ∧ writes_to p (journal w') = writes_to p (journal w).

(** The file at [p] and the writes made to it are as they were. *)
Definition untouched (p : string) (w w' : World) : Prop :=
  vault w' !! p = vault w !! p ∧ writes_to p (journal w') = writes_to p (journal w).

(** The [Notice] of a failed run. *)
Definition failure_notice (file : TFile) (reason : string) : string :=
  "Failed to process " +:+ name file +:+ ": " +:+ reason.

(** The paths that [processing] is holding for a reason: a run is in flight
    for them, or a timer is pending that will delete them. *)
Definition held (s : Sched) : list string :=
  (path <$> inflight s) ++ (timers (world s)).*2.

(** No path is held twice, and every held path is in [processing]. *)
Definition exclusive (s : Sched) : Prop :=
  NoDup (held s) ∧ ∀ p, p ∈ held s → p ∈ processing (world s).


(** ** Which files the plugin handles (main.ts, l. 191-204)

    Paths are strings of ASCII characters. *)

(** [c.toLowerCase()] for one character: the letters A to Z move to a to z. *)
Definition lower_char (c : Ascii.ascii) : Ascii.ascii :=
  let n := Ascii.nat_of_ascii c in
  if ((65 <=? n) && (n <=? 90))%nat then Ascii.ascii_of_nat (n + 32) else c.

(** [s.toLowerCase()] *)
Fixpoint toLowerCase (s : string) : string :=
  match s with
  | EmptyString => EmptyString
  | String c rest => String (lower_char c) (toLowerCase rest)
  end.

(** [s.split(c)] for a one-character separator: the pieces between the
    separators, in order; there is always one piece at least. *)
Fixpoint split (s : string) (c : Ascii.ascii) : list string :=
  match s with
  | EmptyString => [EmptyString]
  | String a rest =>
      if Ascii.eqb a c then EmptyString :: split rest c
      else match split rest c with
           | piece :: pieces => String a piece :: pieces
           | [] => [String a EmptyString]
           end
  end.

(** l. 197-204; [pop()] yields the last piece. *)
Definition isImageFile (filePath : string) : bool :=
  let lowerPath := toLowerCase filePath in
  if includes lowerPath "/_originals/" then false
  else match last (split lowerPath "."%char) with
       | Some ext => String.eqb ext "png"
       | None => false
       end.

(** The last character of [s] goes when it is a slash. *)
Fixpoint drop_last_slash (s : string) : string :=
  match s with
  | EmptyString => EmptyString
  | String c EmptyString => if Ascii.eqb c "/"%char then EmptyString else s
  | String c rest => String c (drop_last_slash rest)
  end.

(** [s.replace(/^\/|\/$/g, "")]: a slash at the start goes, and so does a
    slash at the end of what follows it. *)
Definition strip_slashes (s : string) : string :=
  match s with
  | String c rest => if Ascii.eqb c "/"%char then drop_last_slash rest else drop_last_slash s
  | EmptyString => EmptyString
  end.

Definition backslash : Ascii.ascii := Ascii.ascii_of_nat 92.

(** [s.replace(/\\/g, "/")] *)
Fixpoint forward_slashes (s : string) : string :=
  match s with
  | EmptyString => EmptyString
  | String c rest =>
      String (if Ascii.eqb c backslash then "/"%char else c) (forward_slashes rest)
  end.

(** l. 191-195 *)
Definition isInWatchedFolder (st : Settings) (filePath : string) : bool :=
  let watchedFolder := strip_slashes (watchedFolder st) in
  let normalizedPath := forward_slashes filePath in
  String.prefix (watchedFolder +:+ "/") normalizedPath || String.eqb normalizedPath watchedFolder.

(** l. 164-174, the handler of the vault's create events: [ready] is the
    flag that the timer of l. 162 sets; the result is the call of
    [processImage] that the handler schedules and its delay, if any. *)
Definition fileCreatedHandler (ready : bool) (st : Settings) (file : TFile)
  : option (Z * TFile) :=
  if negb ready then None
  else if negb (enabled st) then None
  else if negb (isInWatchedFolder st (path file)) then None
  else if negb (isImageFile (path file)) then None
  else Some (1000, file).

(** ** restoreFromBackup (main.ts, l. 103-123) *)

(** The [TFile] that the vault holds for a path: its name is what follows
    the last slash. *)
Definition file_at (p : string) : TFile :=
  {| path := p; name := js_substring_from p (lastIndexOf p "/"%char + 1) |}.

Section restoreFromBackup.

Variable refreshImageCache : TFile → result unit.

(** l. 112-117, the body of the [try] block. *)
Definition restore_try (file backup : TFile) : M bool :=
  backupData ← readBinary backup;
  _ ← modifyBinary file backupData;
  _ ← (λ w, (refreshImageCache file, w));
  _ ← new_Notice ("Restored: " +:+ name file);
  mret true.

(** l. 118-122, the [catch] block. *)
Definition restore_catch (error : string) : M bool :=
  _ ← console_log ("Failed to restore: " +:+ error);
  _ ← new_Notice ("Failed to restore: " +:+ error);
  mret false.

Definition restoreFromBackup (file : TFile) : M bool :=
  let backupPath := getBackupPath (path file) in
  backup ← getAbstractFileByPath backupPath;
  match backup with
  | Some (File _) => try_catch (restore_try file (file_at backupPath)) restore_catch
  | _ => _ ← new_Notice ("No backup found for: " +:+ name file); mret false
  end.

End restoreFromBackup.

(** ** Processing a whole folder (main.ts, l. 445-490) *)

(** What [getAbstractFileByPath] hands out: a file, or a folder with its
    children in the vault's order. *)
#[warnings="-register-all"]
Inductive TAbstractFile :=
  | AFile (file : TFile)
  | AFolder (folder_path : string) (children : list TAbstractFile).

(** One turn of the loop of l. 481-487. *)
Fixpoint images_under (child : TAbstractFile) : list TFile :=
  match child with
  | AFile file => if isImageFile (path file) then [file] else []
  | AFolder _ children => flat_map images_under children
  end.

(** l. 478-490, for the children of the folder. *)
Definition getAllImagesInFolder (children : list TAbstractFile) : list TFile :=
  flat_map images_under children.

(** All files below a list of children, in the order of the walk. *)
Fixpoint files_under (child : TAbstractFile) : list TFile :=
  match child with
  | AFile file => [file]
  | AFolder _ children => flat_map files_under children
  end.

(** [await new Promise((resolve) => setTimeout(resolve, ms))]: the time
    passes and the timers that came due have fired. *)
Definition sleep (ms : Z) : M unit :=
  λ w, (Ok (), fire_timers (with_clock (clock w + Z.max 0 ms) w)).

Section processAllInFolder.

Variable autocropImage : Plugin → Buffer → Logged (option Buffer).
Variable refreshImageCache : TFile → result unit.

(** The counters [processed] and [failed]. *)
Record Tally := { processed : Z; failed : Z }.

(** l. 464-472, one turn of the loop. *)
Definition process_one (P : Plugin) (tally : Tally) (file : TFile) : M Tally :=
  success ← processImage autocropImage refreshImageCache P file;
  let tally := if success : bool
               then {| processed := processed tally + 1; failed := failed tally |}
               else {| processed := processed tally; failed := failed tally + 1 |} in
  _ ← sleep 100;
  mret tally.

(** l. 463-473 *)
Fixpoint process_each (P : Plugin) (tally : Tally) (files : list TFile) : M Tally :=
  match files with
  | [] => mret tally
  | file :: rest => tally ← process_one P tally file; process_each P tally rest
  end.

(** l. 445-476; [folder] is what the vault holds at the watched folder's
    path. *)
Definition processAllInFolder (P : Plugin) (folder : option TAbstractFile) : M unit :=
  match folder with
  | Some (AFolder _ children) =>
      let files := getAllImagesInFolder children in
      if (length files =? 0)%nat then new_Notice "No PNG images found in watched folder"
      else
        _ ← new_Notice ("Processing " +:+ pretty (length files) +:+ " images...");
        tally ← process_each P {| processed := 0; failed := 0 |} files;
        new_Notice ("Processed " +:+ pretty (processed tally) +:+ " images, "
                    +:+ pretty (failed tally) +:+ " skipped/failed")
  | _ => new_Notice ("Folder not found: " +:+ watchedFolder (settings P))
  end.

(** What the successive calls of [processImage] return in a batch over
    [files] that starts in [w]: each call runs in the world that the turns
    before it left, their pauses included. *)
Fixpoint answers (P : Plugin) (files : list TFile) (w : World) : list (result bool) :=
  match files with
  | [] => []
  | file :: rest =>
      let outcome := processImage autocropImage refreshImageCache P file w in
      outcome.1 :: answers P rest (sleep 100 outcome.2).2
  end.

End processAllInFolder.

(** The call returned true. *)
Definition succeeded (answer : result bool) : bool :=
  match answer with
  | Ok true => true
  | _ => false
  end.

(** The final notice of a batch. *)
Definition batch_notice (tally : Tally) : string :=
  "Processed " +:+ pretty (processed tally) +:+ " images, "
  +:+ pretty (failed tally) +:+ " skipped/failed".

(** The character [c] occurs in [s]. *)
Fixpoint occurs (c : Ascii.ascii) (s : string) : bool :=
  match s with
  | EmptyString => false
  | String a rest => Ascii.eqb a c || occurs c rest
  end.

(** [s[0]] and [s[s.length - 1]] *)
Definition first_char (s : string) : option Ascii.ascii :=
  match s with
  | EmptyString => None
  | String c _ => Some c
  end.

Fixpoint last_char (s : string) : option Ascii.ascii :=
  match s with
  | EmptyString => None
  | String c EmptyString => Some c
  | String _ rest => last_char rest
  end.

(** Every call of [processImage] among [events] is for an image file, as
    the commands, the file menu, the watcher and the batch see to before
    they call it. *)
Definition guarded (events : list Event) : bool :=
  forallb (λ e, match e with
                | Request file | Settle file => isImageFile (path file)
                | Elapse _ => true
                end) events.

(** The sums are those of [count s] samples whose channels lie between [lo]
    and [hi]. *)
Definition sums_within (lo hi : Z) (s : Sums) : Prop :=
  0 ≤ count s
  ∧ ∃ sr sg sb, sum_r s = Num sr ∧ sum_g s = Num sg ∧ sum_b s = Num sb
                ∧ lo * count s ≤ sr ≤ hi * count s
                ∧ lo * count s ≤ sg ≤ hi * count s
                ∧ lo * count s ≤ sb ≤ hi * count s.

(** The sums are lost: a sample was read outside the buffer. *)
Definition sums_lost (s : Sums) : Prop :=
  sum_r s = NaN ∧ sum_g s = NaN ∧ sum_b s = NaN ∧ 0 < count s.

(** The region that main.ts (l. 292-297) hands to [extract]. *)
Definition region_of (bounds : Bounds) : Region :=
  {| region_left := left bounds; region_top := top bounds;
     region_width := right bounds - left bounds;
     region_height := bottom bounds - top bounds |}.

(** ** parseColor (part_000, l. 509-530) *)

(** The value of a digit of base 16. *)
Definition hex_digit (c : Ascii.ascii) : option Z :=
  let n := Z.of_nat (Ascii.nat_of_ascii c) in
  if (48 <=? n) && (n <=? 57) then Some (n - 48)
  else if (65 <=? n) && (n <=? 70) then Some (n - 55)
  else if (97 <=? n) && (n <=? 102) then Some (n - 87)
  else None.

(** The white space that [parseInt] skips: tab, line feed, vertical tab,
    form feed, carriage return and space. *)
Definition is_white_space (c : Ascii.ascii) : bool :=
  let n := Z.of_nat (Ascii.nat_of_ascii c) in
  ((9 <=? n) && (n <=? 13)) || (n =? 32).

Fixpoint skip_white_space (s : string) : string :=
  match s with
  | String c rest => if is_white_space c then skip_white_space rest else s
  | EmptyString => EmptyString
  end.

(** The value of the digits that [s] starts with, after those already read;
    [None] when none has been read. *)
Fixpoint hex_digits (s : string) (read : option Z) : option Z :=
  match s with
  | String c rest =>
      match hex_digit c with
      | Some v => hex_digits rest (Some (16 * default 0 read + v))
      | None => read
      end
  | EmptyString => read
  end.

(** [parseInt(s, 16)]: white space, a sign and the prefix [0x] are passed
    over, the digits that follow are read, and without a digit the result
    is [NaN]. *)
Definition parseInt16 (s : string) : number :=
  let s := skip_white_space s in
  let signed :=
    match s with
    | String c rest =>
        if Ascii.eqb c "-"%char then (-1, rest)
        else if Ascii.eqb c "+"%char then (1, rest)
        else (1, s)
    | EmptyString => (1, s)
    end in
  let s := match signed.2 with
           | String c (String x rest) =>
               if Ascii.eqb c "0"%char && (Ascii.eqb x "x"%char || Ascii.eqb x "X"%char)
               then rest else signed.2
           | other => other
           end in
  match hex_digits s None with
  | Some v => Num (signed.1 * v)
  | None => NaN
  end.

(** [s.replace(c, "")]: the first [c] goes. *)
Fixpoint remove_first (c : Ascii.ascii) (s : string) : string :=
  match s with
  | String a rest => if Ascii.eqb a c then rest else String a (remove_first c rest)
  | EmptyString => EmptyString
  end.

(** A colour for sharp; [alpha_255] is 255 times its [alpha], which is
    between 0 and 1. *)
Record RGBA := { red : number; green : number; blue : number; alpha_255 : number }.

Definition parseColor (color : string) : RGBA :=
  let hex := remove_first "#"%char color in
  if Z.of_nat (String.length hex) =? 6 then
    {| red := parseInt16 (js_substring hex 0 2);
       green := parseInt16 (js_substring hex 2 4);
       blue := parseInt16 (js_substring hex 4 6);
       alpha_255 := Num 255 |}
  else if Z.of_nat (String.length hex) =? 8 then
    {| red := parseInt16 (js_substring hex 0 2);
       green := parseInt16 (js_substring hex 2 4);
       blue := parseInt16 (js_substring hex 4 6);
       alpha_255 := parseInt16 (js_substring hex 6 8) |}
  else {| red := Num 0; green := Num 0; blue := Num 0; alpha_255 := Num 0 |}.

(** ** What the library is relied on for *)

(** [extract] of a region that is not empty, is square and lies in the
    image, then [resize(size, size, { fit: "inside" })] with a positive size
    and [png]: the calls do not throw, and what they return decodes to an
    image of [size] by [size] pixels. *)
Definition resizes_squares (sh : Sharp) : Prop :=
  ∀ img region size,
    buf_length (data img) = info_width img * info_height img * 4 →
    0 ≤ region_left region → 0 ≤ region_top region →
    0 < region_width region → region_height region = region_width region →
    region_left region + region_width region ≤ info_width img →
    region_top region + region_height region ≤ info_height img →
    0 < size →
    ∃ out decoded,
      sharp_extract_resize_png sh img region size = Ok out
      ∧ sharp_raw sh out = Ok decoded
      ∧ info_width decoded = size ∧ info_height decoded = size.

(** ** Facts on buffers and loops *)

(** [lia] also decides goals with division and remainder by constants. *)
Ltac Zify.zify_post_hook ::= Z.to_euclidean_division_equations.

Lemma buf_get_lookup (pixels : Buffer) (i : nat) :
  buf_get pixels (Z.of_nat i) = match pixels !! i with Some v => Num v | None => NaN end.
Proof.
  unfold buf_get. destruct (Z.ltb_spec (Z.of_nat i) 0); [lia|].
  by rewrite Nat2Z.id.
Qed.

Lemma buf_length_set pixels i v : buf_length (buf_set pixels i v) = buf_length pixels.
Proof.
  unfold buf_length, buf_set. destruct (i <? 0); [done|]. by rewrite length_insert.
Qed.

Lemma buf_get_set_eq pixels i v :
  0 ≤ i < buf_length pixels → buf_get (buf_set pixels i v) i = Num v.
Proof.
  unfold buf_get, buf_set, buf_length. intros Hi.
  destruct (Z.ltb_spec i 0); [lia|].
  rewrite list_lookup_insert_eq; [done|lia].
Qed.

Lemma buf_get_set_ne pixels i j v :
  i ≠ j → buf_get (buf_set pixels i v) j = buf_get pixels j.
Proof.
  unfold buf_get, buf_set. intros Hne.
  destruct (Z.ltb_spec j 0); [done|].
  destruct (Z.ltb_spec i 0); [done|].
  rewrite list_lookup_insert_ne; [done|lia].
Qed.

Lemma buf_get_outside pixels i :
  i < 0 ∨ buf_length pixels ≤ i → buf_get pixels i = NaN.
Proof.
  unfold buf_get, buf_length. intros Hi.
  destruct (Z.ltb_spec i 0); [done|].
  rewrite lookup_ge_None_2; [done|lia].
Qed.

Lemma buf_get_inside pixels i :
  0 ≤ i < buf_length pixels → ∃ v, buf_get pixels i = Num v.
Proof.
  unfold buf_get, buf_length. intros Hi.
  destruct (Z.ltb_spec i 0); [lia|].
  destruct (lookup_lt_is_Some_2 pixels (Z.to_nat i)) as [v Hv]; [lia|].
  rewrite Hv. eauto.
Qed.

Lemma buf_set_outside pixels i v :
  i < 0 ∨ buf_length pixels ≤ i → buf_set pixels i v = pixels.
Proof.
  unfold buf_set, buf_length. intros Hi.
  destruct (Z.ltb_spec i 0); [done|].
  apply list_insert_ge. lia.
Qed.

Lemma buf_ext (p q : Buffer) :
  buf_length p = buf_length q → (∀ i, 0 ≤ i < buf_length p → buf_get p i = buf_get q i) → p = q.
Proof.
  unfold buf_length. intros Hlen Hget.
  apply list_eq. intros n.
  destruct (decide (n < length p)%nat) as [Hn|Hn].
  - specialize (Hget (Z.of_nat n)). rewrite !buf_get_lookup in Hget.
    destruct (lookup_lt_is_Some_2 p n Hn) as [x Hx].
    destruct (lookup_lt_is_Some_2 q n) as [y Hy]; [lia|].
    rewrite Hx, Hy in *. f_equal.
    assert (Num x = Num y) as [= ->] by (apply Hget; lia). done.
  - rewrite !lookup_ge_None_2; [done|lia..].
Qed.

Lemma elem_of_for_range a b k i :
  0 < k → i ∈ for_range a b k ↔ ∃ j, 0 ≤ j ∧ i = a + k * j ∧ i < b.
Proof.
  intros Hk. unfold for_range. rewrite list_elem_of_fmap.
  split.
  - intros (j & -> & Hj). apply elem_of_seqZ in Hj. exists j. split; [lia|]. split; [done|].
    assert (k * j + k ≤ b - a + k - 1); [|lia].
    assert (j + 1 ≤ (b - a + k - 1) / k) by lia.
    etrans; [|apply (Z.mul_div_le _ k); lia]. nia.
  - intros (j & Hj & -> & Hlt). exists j. split; [done|]. apply elem_of_seqZ.
    split; [lia|]. rewrite Z.add_0_l.
    assert (j + 1 ≤ (b - a + k - 1) / k); [|lia].
    apply Z.div_le_lower_bound; [lia|]. nia.
Qed.
(** ** The transparency masker *)

Section masker.

Variables (bg : Color) (tolerance : Z).

Lemma mask_pixel_length pixels i :
  buf_length (mask_pixel bg tolerance pixels i) = buf_length pixels.
Proof. unfold mask_pixel. case_match; [apply buf_length_set|done]. Qed.

(** One step of the loop writes at most the alpha byte of its pixel. *)
Lemma mask_pixel_get pixels i j :
  buf_get (mask_pixel bg tolerance pixels i) j =
  if decide (j = i + 3 ∧ near_background pixels bg tolerance i = true ∧ 0 ≤ j < buf_length pixels)
  then Num 0 else buf_get pixels j.
Proof.
  unfold mask_pixel. destruct (near_background pixels bg tolerance i) eqn:Hnear.
  - case_decide as Hj.
    + destruct Hj as (-> & _ & Hj). by apply buf_get_set_eq.
    + destruct (decide (j = i + 3)) as [->|Hne].
      * rewrite buf_set_outside; [done|]. lia.
      * by apply buf_get_set_ne.
  - case_decide as Hj; [|done]. by destruct Hj as (_ & [=] & _).
Qed.

(** The test reads colour bytes only, which no step writes. *)
Lemma near_background_mask_pixel pixels i k :
  i `mod` 4 = 0 → k `mod` 4 = 0 →
  near_background (mask_pixel bg tolerance pixels i) bg tolerance k =
  near_background pixels bg tolerance k.
Proof.
  intros Hi Hk. unfold near_background.
  rewrite !mask_pixel_get.
  repeat case_decide; try done; exfalso;
    repeat match goal with H : _ ∧ _ |- _ => destruct H end; subst; lia.
Qed.

Lemma mask_fold_length (l : list Z) pixels :
  buf_length (foldl (mask_pixel bg tolerance) pixels l) = buf_length pixels.
Proof.
  revert pixels. induction l as [|i l IH]; intros pixels; simpl; [done|].
  by rewrite IH, mask_pixel_length.
Qed.

Lemma mask_fold_get (l : list Z) pixels j :
  Forall (λ i, i `mod` 4 = 0) l →
  buf_get (foldl (mask_pixel bg tolerance) pixels l) j =
  if decide ((j - 3) ∈ l ∧ near_background pixels bg tolerance (j - 3) = true
             ∧ 0 ≤ j < buf_length pixels)
  then Num 0 else buf_get pixels j.
Proof.
  revert pixels. induction l as [|i l IH]; intros pixels Hl; cbn [foldl].
  - case_decide as H; [|done]. destruct H as [H _]. by apply elem_of_nil in H.
  - apply Forall_cons_1 in Hl as [Hi Hl].
    rewrite IH by done. rewrite mask_pixel_length, mask_pixel_get.
    destruct (decide (j - 3 ∈ l)) as [Hin|Hnin].
    + assert ((j - 3) `mod` 4 = 0) as Hj3
        by (eapply (proj1 (Forall_forall _ _)) in Hl; [exact Hl|done]).
      rewrite near_background_mask_pixel by done. clear IH.
      repeat case_decide; try done; exfalso;
        rewrite ?elem_of_cons in *;
        intuition (subst; rewrite ?Z.add_simpl_r in *; try done; try lia; tauto).
    + clear IH. repeat case_decide; try done; exfalso;
        rewrite ?elem_of_cons in *;
        intuition (subst; rewrite ?Z.add_simpl_r in *; try done; try lia).
      all: match goal with H : ?x = _ → _ ∧ _ → False |- _ =>
             apply H; [lia|]; split; [done|lia] end.
Qed.

Lemma for_range_4_mod len : Forall (λ i, i `mod` 4 = 0) (for_range 0 len 4).
Proof.
  apply Forall_forall. intros i Hi. apply elem_of_for_range in Hi; [|lia].
  destruct Hi as (j & _ & -> & _). rewrite Z.add_0_l, Z.mul_comm. apply Z_mod_mult.
Qed.

Lemma makeBackgroundTransparent_length pixels :
  buf_length (makeBackgroundTransparent pixels bg tolerance) = buf_length pixels.
Proof. apply mask_fold_length. Qed.

(** Every byte of the result, in terms of the input. *)
Lemma makeBackgroundTransparent_get pixels j :
  buf_get (makeBackgroundTransparent pixels bg tolerance) j =
  if decide (j `mod` 4 = 3 ∧ near_background pixels bg tolerance (j - 3) = true
             ∧ 0 ≤ j < buf_length pixels)
  then Num 0 else buf_get pixels j.
Proof.
  unfold makeBackgroundTransparent, for_loop.
  rewrite mask_fold_get by apply for_range_4_mod.
  assert (0 ≤ j < buf_length pixels →
          (j - 3 ∈ for_range 0 (buf_length pixels) 4 ↔ j `mod` 4 = 3)) as Hin.
  { intros Hj. rewrite elem_of_for_range by lia. split.
    - intros (k & _ & Hk & _). replace j with (3 + k * 4) by lia.
      by rewrite Z_mod_plus_full.
    - intros Hmod. exists (j / 4). pose proof (Z_div_mod_eq_full j 4).
      split_and!; [|lia..]. apply Z.div_pos; lia. }
  destruct (decide (0 ≤ j < buf_length pixels)) as [Hj|Hj].
  - specialize (Hin Hj). clear Hj.
    repeat case_decide; try done; exfalso; tauto.
  - rewrite !decide_False by tauto. done.
Qed.

End masker.

Lemma near_background_rgb pixels cr cg cb t i R G B :
  buf_get pixels i = Num R → buf_get pixels (i + 1) = Num G → buf_get pixels (i + 2) = Num B →
  near_background pixels (rgb cr cg cb) t i =
  bool_decide (Z.abs (R - cr) ≤ t ∧ Z.abs (G - cg) ≤ t ∧ Z.abs (B - cb) ≤ t).
Proof.
  intros HR HG HB. unfold near_background. rewrite HR, HG, HB. simpl.
  apply eq_true_iff_eq. rewrite !andb_true_iff, !Z.leb_le, bool_decide_eq_true. tauto.
Qed.

(** C2. For every buffer, background colour and tolerance, the masker keeps
    the buffer's length, leaves every byte that is not an alpha byte as it
    was, and gives each pixel (R, G, B, A) the alpha 0 when |R - bg.r|,
    |G - bg.g| and |B - bg.b| are all at most the tolerance, and the alpha A
    it had otherwise. *)
Theorem makeBackgroundTransparent_spec (pixels : Buffer) (cr cg cb tolerance : Z) :
  let out := makeBackgroundTransparent pixels (rgb cr cg cb) tolerance in
  buf_length out = buf_length pixels
  ∧ (∀ j, j `mod` 4 ≠ 3 → buf_get out j = buf_get pixels j)
  ∧ (∀ k R G B A, 0 ≤ k →
       buf_get pixels (4 * k) = Num R → buf_get pixels (4 * k + 1) = Num G →
       buf_get pixels (4 * k + 2) = Num B → buf_get pixels (4 * k + 3) = Num A →
       buf_get out (4 * k + 3) =
       Num (if decide (Z.abs (R - cr) ≤ tolerance ∧ Z.abs (G - cg) ≤ tolerance
                       ∧ Z.abs (B - cb) ≤ tolerance) then 0 else A)).
Proof.
  intros out. split_and!.
  - apply makeBackgroundTransparent_length.
  - intros j Hj. unfold out. rewrite makeBackgroundTransparent_get.
    case_decide as H; [|done]. by destruct H.
  - intros k R G B A Hk HR HG HB HA. unfold out.
    rewrite makeBackgroundTransparent_get.
    replace (4 * k + 3 - 3) with (4 * k) by lia.
    rewrite (near_background_rgb _ _ _ _ _ _ R G B) by done.
    assert (0 ≤ 4 * k + 3 < buf_length pixels) as Hin.
    { destruct (decide (4 * k + 3 < buf_length pixels)); [lia|].
      rewrite buf_get_outside in HA by lia. done. }
    assert ((4 * k + 3) `mod` 4 = 3) as Hmod
      by (rewrite Z.add_comm, Z.mul_comm; by rewrite Z_mod_plus_full).
    rewrite HA.
    destruct (decide (Z.abs (R - cr) ≤ tolerance ∧ Z.abs (G - cg) ≤ tolerance
                      ∧ Z.abs (B - cb) ≤ tolerance)) as [Hnear|Hfar].
    + rewrite decide_True; [done|]. split_and!; [done| |lia..].
      by apply bool_decide_eq_true.
    + rewrite decide_False; [done|]. intros (_ & Hb & _).
      by apply bool_decide_eq_true in Hb.
Qed.

(** The boundary of the tolerance: with background (200, 200, 200) and
    tolerance 30, (170, 170, 170) is masked and (169, 169, 169) is not. *)
Example makeBackgroundTransparent_boundary :
  makeBackgroundTransparent [170; 170; 170; 255; 169; 169; 169; 255; 230; 200; 170; 7]
    (rgb 200 200 200) 30
  = [170; 170; 170; 0; 169; 169; 169; 255; 230; 200; 170; 0].
Proof. reflexivity. Qed.

(** C10. Masking twice with the same background and tolerance gives the
    buffer that masking once gives. *)
Theorem makeBackgroundTransparent_idempotent (pixels : Buffer) (bg : Color) (tolerance : Z) :
  makeBackgroundTransparent (makeBackgroundTransparent pixels bg tolerance) bg tolerance
  = makeBackgroundTransparent pixels bg tolerance.
Proof.
  apply buf_ext.
  - by rewrite !makeBackgroundTransparent_length.
  - intros j _. rewrite (makeBackgroundTransparent_get _ _ (makeBackgroundTransparent _ _ _)).
    rewrite makeBackgroundTransparent_length.
    case_decide as H; [|done].
    destruct H as (Hmod & Hnear & Hj).
    assert (near_background pixels bg tolerance (j - 3) = true) as Hnear'.
    { rewrite <- Hnear. unfold near_background.
      rewrite !makeBackgroundTransparent_get.
      repeat case_decide; try done; exfalso;
        repeat match goal with H : _ ∧ _ |- _ => destruct H end;
        pose proof (Z_div_mod_eq_full j 4);
        pose proof (Z_div_mod_eq_full (j - 3) 4);
        pose proof (Z_div_mod_eq_full (j - 3 + 1) 4);
        pose proof (Z_div_mod_eq_full (j - 3 + 2) 4); lia. }
    rewrite makeBackgroundTransparent_get. by rewrite decide_True.
Qed.

(** ** The bounds finder *)

(** [find] returns the first element that passes the test. *)
Lemma find_Some_first {A} (P : A → bool) (l : list A) x :
  List.find P l = Some x →
  ∃ i, l !! i = Some x ∧ P x = true ∧ ∀ j y, (j < i)%nat → l !! j = Some y → P y = false.
Proof.
  induction l as [|a l IH]; simpl; [done|].
  destruct (P a) eqn:Ha.
  - intros [= ->]. exists 0%nat. split_and!; [done..|]. intros j y Hj. lia.
  - intros Hfind. destruct (IH Hfind) as (i & Hi & Hx & Hbefore).
    exists (S i). split_and!; [done..|].
    intros [|j] y Hj; simpl; [by intros [= <-]|]. apply Hbefore. lia.
Qed.

Lemma find_None_all {A} (P : A → bool) (l : list A) x :
  List.find P l = None → x ∈ l → P x = false.
Proof. intros Hfind Hx. eapply find_none; [done|]. by apply list_elem_of_In. Qed.

(** An ascending scan of [0 .. n-1]. *)
Lemma find_ascending P n y :
  List.find P (seqZ 0 n) = Some y →
  0 ≤ y < n ∧ P y = true ∧ ∀ z, 0 ≤ z < y → P z = false.
Proof.
  intros Hfind. apply find_Some_first in Hfind as (i & Hi & Hy & Hbefore).
  apply lookup_seqZ in Hi as [-> Hi]. split_and!; [lia..|done|].
  intros z Hz. apply (Hbefore (Z.to_nat z)); [lia|].
  apply lookup_seqZ. lia.
Qed.

(** A descending scan of [n-1 .. 0]. *)
Lemma find_descending P n y :
  List.find P (reverse (seqZ 0 n)) = Some y →
  0 ≤ y < n ∧ P y = true ∧ ∀ z, y < z < n → P z = false.
Proof.
  intros Hfind. apply find_Some_first in Hfind as (i & Hi & Hy & Hbefore).
  assert (i < length (seqZ 0 n))%nat as Hlen.
  { apply lookup_lt_Some in Hi. by rewrite length_reverse in Hi. }
  rewrite reverse_lookup in Hi by done.
  rewrite length_seqZ in *.
  apply lookup_seqZ in Hi as [-> Hi]. split_and!; [lia..|done|].
  intros z Hz. apply (Hbefore (Z.to_nat (n - 1 - z))); [lia|].
  rewrite reverse_lookup by (rewrite length_seqZ; lia).
  rewrite length_seqZ. apply lookup_seqZ. lia.
Qed.

Lemma find_scan_None P n z :
  List.find P (seqZ 0 n) = None → 0 ≤ z < n → P z = false.
Proof. intros Hfind Hz. eapply find_None_all; [done|]. apply elem_of_seqZ. lia. Qed.

Lemma find_reverse_scan_None P n z :
  List.find P (reverse (seqZ 0 n)) = None → 0 ≤ z < n → P z = false.
Proof.
  intros Hfind Hz. eapply find_None_all; [done|].
  apply elem_of_reverse, elem_of_seqZ. lia.
Qed.

Lemma existsb_seqZ P n :
  existsb P (seqZ 0 n) = true ↔ ∃ z, 0 ≤ z < n ∧ P z = true.
Proof.
  rewrite existsb_exists. split.
  - intros (z & Hz & HP). apply list_elem_of_In, elem_of_seqZ in Hz. exists z. split; [lia|done].
  - intros (z & Hz & HP). exists z. split; [|done]. apply list_elem_of_In, elem_of_seqZ. lia.
Qed.

Lemma existsb_seqZ_false P n :
  existsb P (seqZ 0 n) = false ↔ ∀ z, 0 ≤ z < n → P z = false.
Proof.
  split.
  - intros Hnone z Hz. destruct (P z) eqn:HP; [|done].
    rewrite <- Hnone. symmetry. apply existsb_seqZ. eauto.
  - intros Hall. destruct (existsb P (seqZ 0 n)) eqn:Hex; [|done].
    apply existsb_seqZ in Hex as (z & Hz & HP). rewrite Hall in HP; done.
Qed.

(** The test of the scans, read on the buffer: the alpha byte of the pixel
    is present and strictly above the threshold. *)
Lemma is_content_alpha pixels width threshold x y :
  is_content pixels width threshold x y = true ↔
  ∃ alpha, buf_get pixels (pixel_index width x y + 3) = Num alpha ∧ threshold < alpha.
Proof.
  unfold is_content, num_gt, num_lt.
  destruct (buf_get pixels (pixel_index width x y + 3)) as [a|].
  - rewrite Z.ltb_lt. split; [eauto|]. by intros (? & [= <-] & ?).
  - split; [done|]. by intros (? & [=] & _).
Qed.

Section bounds.

Variables (threshold : Z) (pixels : Buffer) (width height : Z).

Local Abbreviation content_at := (content_at threshold pixels width height).

Lemma row_has_content_true y :
  row_has_content pixels width threshold y = true ↔
  ∃ x, 0 ≤ x < width ∧ is_content pixels width threshold x y = true.
Proof. apply existsb_seqZ. Qed.

Lemma column_has_content_true x :
  column_has_content pixels width height threshold x = true ↔
  ∃ y, 0 ≤ y < height ∧ is_content pixels width threshold x y = true.
Proof. apply existsb_seqZ. Qed.

Lemma content_row x y :
  content_at x y → row_has_content pixels width threshold y = true.
Proof.
  intros (Hx & Hy & Ha). apply row_has_content_true. exists x.
  split; [done|]. by apply is_content_alpha.
Qed.

Lemma content_column x y :
  content_at x y → column_has_content pixels width height threshold x = true.
Proof.
  intros (Hx & Hy & Ha). apply column_has_content_true. exists y.
  split; [done|]. by apply is_content_alpha.
Qed.

Lemma row_content y :
  0 ≤ y < height → row_has_content pixels width threshold y = true → ∃ x, content_at x y.
Proof.
  intros Hy (x & Hx & Hc)%row_has_content_true. exists x.
  split_and!; [lia..|]. by apply is_content_alpha.
Qed.

Lemma column_content x :
  0 ≤ x < width → column_has_content pixels width height threshold x = true →
  ∃ y, content_at x y.
Proof.
  intros Hx (y & Hy & Hc)%column_has_content_true. exists y.
  split_and!; [lia..|]. by apply is_content_alpha.
Qed.

(** Without content no scan reaches its [break]. *)
Lemma findContentBounds_none :
  (∀ x y, ¬ content_at x y) →
  findContentBounds threshold pixels width height
  = {| top := 0; bottom := height; left := 0; right := width |}.
Proof.
  intros Hnone. unfold findContentBounds.
  destruct (List.find _ (seqZ 0 height)) as [y|] eqn:Htop.
  { destruct (find_ascending _ _ _ Htop) as (Hy & Hyc & _).
    destruct (row_content y Hy Hyc) as (x & Hc). destruct (Hnone _ _ Hc). }
  destruct (List.find _ (reverse (seqZ 0 height))) as [y|] eqn:Hbot.
  { destruct (find_descending _ _ _ Hbot) as (Hy & Hyc & _).
    destruct (row_content y Hy Hyc) as (x & Hc). destruct (Hnone _ _ Hc). }
  destruct (List.find _ (seqZ 0 width)) as [x|] eqn:Hleft.
  { destruct (find_ascending _ _ _ Hleft) as (Hx & Hxc & _).
    destruct (column_content x Hx Hxc) as (y & Hc). destruct (Hnone _ _ Hc). }
  destruct (List.find _ (reverse (seqZ 0 width))) as [x|] eqn:Hright.
  { destruct (find_descending _ _ _ Hright) as (Hx & Hxc & _).
    destruct (column_content x Hx Hxc) as (y & Hc). destruct (Hnone _ _ Hc). }
  done.
Qed.

(** C3. For an image of positive width and height and any threshold, the box
    of [findContentBounds] satisfies 0 <= top < bottom <= height and
    0 <= left < right <= width; it contains every pixel whose alpha is
    strictly above the threshold; when there is such a pixel, each of its
    four edges touches one (so every box that contains them all contains
    it); and when there is none it is the full image. *)
Theorem findContentBounds_spec :
  0 < width → 0 < height →
  let box := findContentBounds threshold pixels width height in
  (0 ≤ top box ∧ top box < bottom box ∧ bottom box ≤ height
   ∧ 0 ≤ left box ∧ left box < right box ∧ right box ≤ width)
  ∧ (∀ x y, content_at x y → top box ≤ y < bottom box ∧ left box ≤ x < right box)
  ∧ ((∃ x y, content_at x y) →
       (∃ x, content_at x (top box)) ∧ (∃ x, content_at x (bottom box - 1))
       ∧ (∃ y, content_at (left box) y) ∧ (∃ y, content_at (right box - 1) y))
  ∧ (∀ t b l r, (∃ x y, content_at x y) →
       (∀ x y, content_at x y → t ≤ y < b ∧ l ≤ x < r) →
       t ≤ top box ∧ bottom box ≤ b ∧ l ≤ left box ∧ right box ≤ r)
  ∧ ((∀ x y, ¬ content_at x y) →
       box = {| top := 0; bottom := height; left := 0; right := width |}).
Proof.
  intros Hw Hh box.
  destruct (List.find (row_has_content pixels width threshold) (seqZ 0 height))
    as [t|] eqn:Htop.
  - (* some row holds content, hence so do a last row and two columns *)
    destruct (find_ascending _ _ _ Htop) as (Ht & Htc & Htmin).
    destruct (row_content t Ht Htc) as (x0 & Hx0).
    pose proof (content_column _ _ Hx0) as Hx0c.
    destruct (List.find (row_has_content pixels width threshold) (reverse (seqZ 0 height)))
      as [b'|] eqn:Hbot;
      [|by rewrite (find_reverse_scan_None _ _ t Hbot Ht) in Htc].
    destruct (find_descending _ _ _ Hbot) as (Hb & Hbc & Hbmax).
    destruct (List.find (column_has_content pixels width height threshold) (seqZ 0 width))
      as [l'|] eqn:Hleft;
      [|by rewrite (find_scan_None _ _ x0 Hleft (proj1 Hx0)) in Hx0c].
    destruct (find_ascending _ _ _ Hleft) as (Hl & Hlc & Hlmin).
    destruct (List.find (column_has_content pixels width height threshold)
                (reverse (seqZ 0 width))) as [r'|] eqn:Hright;
      [|by rewrite (find_reverse_scan_None _ _ x0 Hright (proj1 Hx0)) in Hx0c].
    destruct (find_descending _ _ _ Hright) as (Hr & Hrc & Hrmax).
    assert (box = {| top := t; bottom := b' + 1; left := l'; right := r' + 1 |}) as ->.
    { unfold box, findContentBounds. by rewrite Htop, Hbot, Hleft, Hright. }
    simpl.
    assert (∀ x y, content_at x y → t ≤ y < b' + 1 ∧ l' ≤ x < r' + 1) as Hinside.
    { intros x y Hc. pose proof (content_row _ _ Hc) as Hrow.
      pose proof (content_column _ _ Hc) as Hcol.
      destruct Hc as (Hx & Hy & _).
      split_and!.
      - destruct (decide (t ≤ y)); [done|]. rewrite Htmin in Hrow; [done|lia].
      - destruct (decide (y < b' + 1)); [done|]. rewrite Hbmax in Hrow; [done|lia].
      - destruct (decide (l' ≤ x)); [done|]. rewrite Hlmin in Hcol; [done|lia].
      - destruct (decide (x < r' + 1)); [done|]. rewrite Hrmax in Hcol; [done|lia]. }
    assert ((∃ x, content_at x t) ∧ (∃ x, content_at x (b' + 1 - 1))
            ∧ (∃ y, content_at l' y) ∧ (∃ y, content_at (r' + 1 - 1) y)) as Htouch.
    { rewrite !Z.add_simpl_r. split_and!.
      - by apply row_content.
      - by apply row_content.
      - by apply column_content.
      - by apply column_content. }
    split_and!; try lia.
    + destruct (Hinside _ _ Hx0). lia.
    + destruct (Hinside _ _ Hx0). lia.
    + done.
    + done.
    + intros t0 b0 l0 r0 _ Hall.
      destruct Htouch as ((x1 & H1) & (x2 & H2) & (y3 & H3) & (y4 & H4)).
      apply Hall in H1, H2, H3, H4. lia.
    + intros Hnone. destruct (Hnone _ _ Hx0).
  - (* no row holds content: no scan reaches its [break] *)
    assert (∀ x y, ¬ content_at x y) as Hnone.
    { intros x y Hc. pose proof (content_row _ _ Hc) as Hrow.
      rewrite (find_scan_None _ _ y Htop) in Hrow; [done|]. apply Hc. }
    assert (box = {| top := 0; bottom := height; left := 0; right := width |}) as ->
      by by apply findContentBounds_none.
    simpl. split_and!; try lia; try done.
    + intros x y Hc. destruct (Hnone _ _ Hc).
    + intros (x & y & Hc). destruct (Hnone _ _ Hc).
    + intros t b l r (x & y & Hc). destruct (Hnone _ _ Hc).
Qed.

End bounds.

(** A 3 by 2 image whose only content is the middle pixel of the second
    row. *)
Lemma findContentBounds_spec_witness :
  findContentBounds 10
    [1; 1; 1; 0;  1; 1; 1; 0;    1; 1; 1; 0;
     1; 1; 1; 0;  1; 1; 1; 200;  1; 1; 1; 10] 3 2
  = {| top := 1; bottom := 2; left := 1; right := 2 |}
  ∧ ∀ x y, content_at 10 [1; 1; 1; 0;  1; 1; 1; 0;    1; 1; 1; 0;
                          1; 1; 1; 0;  1; 1; 1; 200;  1; 1; 1; 10] 3 2 x y →
           1 ≤ y < 2 ∧ 1 ≤ x < 2.
Proof.
  split; [reflexivity|].
  exact (proj1 (proj2 (findContentBounds_spec 10
           [1; 1; 1; 0;  1; 1; 1; 0;    1; 1; 1; 0;
            1; 1; 1; 0;  1; 1; 1; 200;  1; 1; 1; 10] 3 2
           ltac:(lia) ltac:(lia)))).
Defined.

(** ** Padding to a square (part_000) *)

Lemma odd_mod2 x : x `mod` 2 = if Z.odd x then 1 else 0.
Proof. rewrite <- Z.bit0_mod, Z.bit0_odd. by destruct (Z.odd x). Qed.

(** C6. With side = max(w, h), the padding is padLeft = floor((side - w) / 2),
    padTop = floor((side - h) / 2), padRight = side - w - padLeft and
    padBottom = side - h - padTop: the two sides add up to what is missing,
    they are equal when that is even, and when it is odd the right (bottom)
    side gets one pixel more than the left (top). These are the values the
    pipeline hands to [extend], for the size that [trim] reported. *)
Theorem squarePadding_spec (w h : Z) :
  let side := Z.max w h in
  let pad := Part000.squarePadding w h in
  (padLeft pad = (side - w) / 2 ∧ padTop pad = (side - h) / 2
   ∧ padRight pad = side - w - padLeft pad ∧ padBottom pad = side - h - padTop pad)
  ∧ (padLeft pad + w + padRight pad = side ∧ padTop pad + h + padBottom pad = side)
  ∧ (padRight pad = if Z.odd (side - w) then padLeft pad + 1 else padLeft pad)
  ∧ (padBottom pad = if Z.odd (side - h) then padTop pad + 1 else padTop pad)
  ∧ (∀ sh st buf width height trimmed,
       sharp_metadata sh buf = Ok {| md_width := Some width; md_height := Some height |} →
       width ≠ 0 → height ≠ 0 →
       sharp_trim sh buf (trimThreshold st) = Ok trimmed →
       info_width trimmed = w → info_height trimmed = h →
       Part000.crop sh st buf =
       sharp_extend_resize_png sh (data trimmed)
         {| padTop := (side - h) / 2; padBottom := side - h - (side - h) / 2;
            padLeft := (side - w) / 2; padRight := side - w - (side - w) / 2 |}
         (if String.eqb (backgroundColor st) "transparent"
          then Transparent else Parsed (backgroundColor st))
         (targetSize st)).
Proof.
  intros side pad. unfold pad, Part000.squarePadding. fold side. simpl.
  split_and!; try done; try lia.
  - pose proof (odd_mod2 (side - w)). destruct (Z.odd (side - w)); lia.
  - pose proof (odd_mod2 (side - h)). destruct (Z.odd (side - h)); lia.
  - intros sh st buf width height trimmed Hmd Hw Hh Htrim Ew Eh.
    unfold Part000.crop. rewrite Hmd. simpl.
    destruct (Z.eqb_spec width 0); [done|]. destruct (Z.eqb_spec height 0); [done|].
    simpl. rewrite Htrim. simpl. unfold Part000.squarePadding. by rewrite Ew, Eh.
Qed.

(** The toy library trims the picture to 2 by 1; one row goes below. *)
Example squarePadding_picture :
  Part000.crop Toy.library (settings (Toy.plugin 4 false)) (Toy.encode Toy.picture)
  = sharp_extend_resize_png Toy.library [2; 1; 200; 0; 0; 255; 0; 0; 200; 255]
      {| padTop := 0; padBottom := 1; padLeft := 0; padRight := 0 |} Transparent 4.
Proof. reflexivity. Qed.

(** ** The fallback of autocropImage *)

Section fallback.

Variables (sh : Sharp) (st : Settings).

Let P : Plugin := {| sharp := Some sh; settings := st |}.

Lemma main_autocropImage_ok inputBuffer out :
  Main.crop sh st inputBuffer = Ok out →
  Main.autocropImage P inputBuffer = (Ok (Some out), []).
Proof. intros H. unfold Main.autocropImage. simpl. by rewrite H. Qed.

(** Whatever was thrown, the fallback runs. *)
Lemma main_autocropImage_err inputBuffer error :
  Main.crop sh st inputBuffer = Err error →
  Main.autocropImage P inputBuffer =
  (Main.resizeOnly P inputBuffer, ["Autocrop failed: " +:+ error]).
Proof. intros H. unfold Main.autocropImage. simpl. by rewrite H. Qed.

Lemma main_crop_decode_error inputBuffer error :
  sharp_raw sh inputBuffer = Err error → Main.crop sh st inputBuffer = Err error.
Proof. intros H. unfold Main.crop. by rewrite H. Qed.

Lemma part000_autocropImage_ok inputBuffer out :
  Part000.crop sh st (Part000.workingBuffer P inputBuffer).1 = Ok out →
  Part000.autocropImage P inputBuffer = (Ok (Some out), (Part000.workingBuffer P inputBuffer).2).
Proof.
  intros H. unfold Part000.autocropImage. simpl.
  destruct (Part000.workingBuffer P inputBuffer) as [working lines]. simpl in *.
  by rewrite H.
Qed.

(** Only an error that mentions "trim" takes the fallback. *)
Lemma part000_autocropImage_err inputBuffer error :
  Part000.crop sh st (Part000.workingBuffer P inputBuffer).1 = Err error →
  Part000.autocropImage P inputBuffer =
  if includes error "trim"
  then (Part000.resizeOnly P inputBuffer,
        (Part000.workingBuffer P inputBuffer).2 ++ ["Trim failed, trying resize only"])
  else (Err error, (Part000.workingBuffer P inputBuffer).2).
Proof.
  intros H. unfold Part000.autocropImage. simpl.
  destruct (Part000.workingBuffer P inputBuffer) as [working lines]. simpl in *.
  by rewrite H.
Qed.

End fallback.

(** C1, as the code has it. In main.ts the fallback runs whenever the [try]
    block throws, whatever the error (a decode failure included); the caller
    gets what [resizeOnly] returns or throws. In part_000 the fallback runs
    exactly when the message of the error contains "trim", and any other
    error reaches the caller as it was thrown. *)
Theorem autocropImage_fallback (sh : Sharp) (st : Settings) (inputBuffer : Buffer) :
  let P := {| sharp := Some sh; settings := st |} in
  (∀ out, Main.crop sh st inputBuffer = Ok out →
     Main.autocropImage P inputBuffer = (Ok (Some out), []))
  ∧ (∀ error, Main.crop sh st inputBuffer = Err error →
       Main.autocropImage P inputBuffer =
       (Main.resizeOnly P inputBuffer, ["Autocrop failed: " +:+ error]))
  ∧ (∀ error, sharp_raw sh inputBuffer = Err error →
       Main.autocropImage P inputBuffer =
       (Main.resizeOnly P inputBuffer, ["Autocrop failed: " +:+ error]))
  ∧ (∀ error, Part000.crop sh st (Part000.workingBuffer P inputBuffer).1 = Err error →
       Part000.autocropImage P inputBuffer =
       if includes error "trim"
       then (Part000.resizeOnly P inputBuffer,
             (Part000.workingBuffer P inputBuffer).2 ++ ["Trim failed, trying resize only"])
       else (Err error, (Part000.workingBuffer P inputBuffer).2))
  ∧ (∀ out, Part000.crop sh st (Part000.workingBuffer P inputBuffer).1 = Ok out →
       Part000.autocropImage P inputBuffer =
       (Ok (Some out), (Part000.workingBuffer P inputBuffer).2)).
Proof.
  intros P. split_and!.
  - apply main_autocropImage_ok.
  - apply main_autocropImage_err.
  - intros error H. by apply main_autocropImage_err, main_crop_decode_error.
  - apply part000_autocropImage_err.
  - apply part000_autocropImage_ok.
Qed.

(** C1, as stated, fails in main.ts. Bytes that are no image make the decode
    throw, no crop is attempted, and the fallback runs all the same; and
    with a target size of 0 the resize throws, the fallback runs and its
    result hides the error from the caller. *)
Lemma autocropImage_fallback_not_only_degenerate :
  sharp_raw Toy.library Toy.garbage = Err Toy.unsupported
  ∧ Main.autocropImage (Toy.plugin 2 false) Toy.garbage
    = (Main.resizeOnly (Toy.plugin 2 false) Toy.garbage,
       ["Autocrop failed: " +:+ Toy.unsupported])
  ∧ Main.crop Toy.library (settings (Toy.plugin 0 false)) (Toy.encode Toy.picture)
    = Err "Expected positive integer for width"
  ∧ Main.autocropImage (Toy.plugin 0 false) (Toy.encode Toy.picture)
    = (Ok (Some (Toy.encode Toy.picture)),
       ["Autocrop failed: Expected positive integer for width"]).
Proof. split_and!; reflexivity. Qed.

(** ** Solid images through the pipeline of main.ts *)

Lemma foldl_bind {A B C} (f : A → C → A) (k : B → list C) (l : list B) s :
  foldl f s (l ≫= k) = foldl (λ s a, foldl f s (k a)) s l.
Proof.
  revert s. induction l as [|a l IH]; intros s; [done|].
  rewrite bind_cons, foldl_app. simpl. apply IH.
Qed.

(** A loop whose body does the same thing at every index. *)
Lemma foldl_uniform {A B} (f : A → B → A) (step : A → A) (l : list B) s :
  (∀ s i, i ∈ l → f s i = step s) → foldl f s l = Nat.iter (length l) step s.
Proof.
  revert s. induction l as [|i l IH]; intros s Hf; [done|].
  simpl foldl. rewrite Hf by apply list_elem_of_here.
  rewrite IH by (intros; apply Hf; by apply list_elem_of_further).
  simpl length. by rewrite Nat.iter_succ_r.
Qed.

Lemma elem_of_for_range_unit n i : i ∈ for_range 0 n 1 ↔ 0 ≤ i < n.
Proof.
  rewrite elem_of_for_range by lia. split.
  - intros (j & ? & -> & ?). lia.
  - intros ?. exists i. lia.
Qed.

Lemma length_for_range_unit n : 0 ≤ n → length (for_range 0 n 1) = Z.to_nat n.
Proof.
  intros Hn. unfold for_range. rewrite length_fmap, length_seqZ. f_equal. lia.
Qed.

Section solid.

Variables (cr cg cb : Z).

Lemma solid_length n alpha : buf_length (solid n cr cg cb alpha) = 4 * Z.of_nat n.
Proof. unfold buf_length. induction n as [|n IH]; cbn [solid length]; lia. Qed.

Lemma solid_lookup n alpha (k : nat) :
  (k < n)%nat →
  solid n cr cg cb alpha !! (4 * k)%nat = Some cr
  ∧ solid n cr cg cb alpha !! (4 * k + 1)%nat = Some cg
  ∧ solid n cr cg cb alpha !! (4 * k + 2)%nat = Some cb
  ∧ solid n cr cg cb alpha !! (4 * k + 3)%nat = Some alpha.
Proof.
  revert k. induction n as [|n IH]; intros k Hk; [lia|].
  destruct k as [|k].
  - done.
  - replace (4 * S k)%nat with (S (S (S (S (4 * k))))) by lia. simpl.
    apply IH. lia.
Qed.

(** The bytes of pixel [k]. *)
Lemma solid_get n alpha k :
  0 ≤ k < Z.of_nat n →
  buf_get (solid n cr cg cb alpha) (4 * k) = Num cr
  ∧ buf_get (solid n cr cg cb alpha) (4 * k + 1) = Num cg
  ∧ buf_get (solid n cr cg cb alpha) (4 * k + 2) = Num cb
  ∧ buf_get (solid n cr cg cb alpha) (4 * k + 3) = Num alpha.
Proof.
  intros Hk. destruct (solid_lookup n alpha (Z.to_nat k)) as (H0 & H1 & H2 & H3); [lia|].
  unfold buf_get.
  repeat match goal with |- context [?i <? 0] => destruct (Z.ltb_spec i 0); [lia|] end.
  replace (Z.to_nat (4 * k)) with (4 * Z.to_nat k)%nat by lia.
  replace (Z.to_nat (4 * k + 1)) with (4 * Z.to_nat k + 1)%nat by lia.
  replace (Z.to_nat (4 * k + 2)) with (4 * Z.to_nat k + 2)%nat by lia.
  replace (Z.to_nat (4 * k + 3)) with (4 * Z.to_nat k + 3)%nat by lia.
  by rewrite H0, H1, H2, H3.
Qed.

Local Abbreviation bump := (add_samples cr cg cb).

Lemma bump_0 s : bump 0 s = s.
Proof.
  destruct s as [[]  [] [] ?]; unfold add_samples; simpl; f_equal; try done;
    first [ring | f_equal; ring].
Qed.

Lemma bump_add j k s : bump j (bump k s) = bump (k + j) s.
Proof.
  destruct s as [[]  [] [] ?]; unfold add_samples; simpl; f_equal; try done;
    first [ring | f_equal; ring].
Qed.

Lemma iter_bump n k s :
  Nat.iter n (bump k) s = bump (Z.of_nat n * k) s.
Proof.
  induction n as [|n IH].
  - simpl. by rewrite bump_0.
  - rewrite Nat.iter_succ, IH, bump_add. f_equal. lia.
Qed.

Variables (width height : Z).

Let image : Buffer := solid (Z.to_nat (width * height)) cr cg cb 255.

Lemma pixel_inside x y :
  0 ≤ x < width → 0 ≤ y < height → 0 ≤ y * width + x < width * height.
Proof. intros Hx Hy. nia. Qed.

Lemma sample_solid s x y :
  0 ≤ x < width → 0 ≤ y < height →
  sample image width s x y = bump 1 s.
Proof.
  intros Hx Hy. pose proof (pixel_inside x y Hx Hy) as Hk.
  destruct (solid_get (Z.to_nat (width * height)) 255 (y * width + x)) as (H0 & H1 & H2 & H3);
    [lia|].
  unfold sample, pixel_index, image.
  replace ((y * width + x) * 4) with (4 * (y * width + x)) by lia.
  rewrite H0, H1, H2, H3. simpl. unfold add_samples. by rewrite !Z.mul_1_l.
Qed.

(** One corner block that lies inside the image. *)
Lemma sample_corner_solid s cx cy :
  0 ≤ cx → cx + 20 ≤ width → 0 ≤ cy → cy + 20 ≤ height →
  foldl (λ s p, sample image width s p.1 p.2) s
    (for_range 0 20 1 ≫= λ dy,
       for_range 0 20 1 ≫= λ dx,
         if (cx + dx >=? width) || (cy + dy >=? height) then [] else [(cx + dx, cy + dy)])
  = bump 400 s.
Proof.
  intros Hx0 Hx1 Hy0 Hy1.
  rewrite foldl_bind, (foldl_uniform _ (bump 20)).
  - rewrite length_for_range_unit by done. rewrite iter_bump. f_equal.
  - intros s' dy Hdy%elem_of_for_range_unit.
    rewrite foldl_bind, (foldl_uniform _ (bump 1)).
    + rewrite length_for_range_unit by done. rewrite iter_bump. f_equal.
    + intros s'' dx Hdx%elem_of_for_range_unit.
      destruct (Z.geb_spec (cx + dx) width); [lia|].
      destruct (Z.geb_spec (cy + dy) height); [lia|].
      simpl. apply sample_solid; lia.
Qed.

Lemma corner_sums_solid :
  20 ≤ width → 20 ≤ height →
  sample_all image width no_sums (corner_points width height)
  = {| sum_r := Num (1600 * cr); sum_g := Num (1600 * cg); sum_b := Num (1600 * cb);
       count := 1600 |}.
Proof.
  intros Hw Hh. unfold sample_all, corner_points.
  rewrite foldl_bind. unfold corners, sampleSize. cbn [foldl fst snd].
  rewrite !(sample_corner_solid _ _ _) by lia.
  rewrite !bump_add. unfold add_samples, no_sums. simpl. by rewrite !Z.add_0_l.
Qed.

Lemma detectBackgroundColor_solid :
  20 ≤ width → 20 ≤ height →
  detectBackgroundColor image width height = Some (rgb cr cg cb).
Proof.
  intros Hw Hh. unfold detectBackgroundColor, background_sums.
  rewrite corner_sums_solid by done. simpl. unfold rgb.
  repeat f_equal; lia.
Qed.

Lemma makeBackgroundTransparent_solid n tolerance :
  0 ≤ tolerance →
  makeBackgroundTransparent (solid n cr cg cb 255) (rgb cr cg cb) tolerance
  = solid n cr cg cb 0.
Proof.
  intros Ht. apply buf_ext.
  - by rewrite makeBackgroundTransparent_length, !solid_length.
  - rewrite makeBackgroundTransparent_length, solid_length. intros j Hj.
    rewrite makeBackgroundTransparent_get, solid_length.
    set (k := j / 4).
    assert (0 ≤ k < Z.of_nat n) as Hk by lia.
    assert (j = 4 * k ∨ j = 4 * k + 1 ∨ j = 4 * k + 2 ∨ j = 4 * k + 3) as Hcase by lia.
    clearbody k.
    destruct (solid_get n 255 k Hk) as (H0 & H1 & H2 & H3).
    destruct (solid_get n 0 k Hk) as (K0 & K1 & K2 & K3).
    destruct Hcase as [-> | [-> | [-> | ->]]].
    + rewrite decide_False by (intros (Hm & _); lia). congruence.
    + rewrite decide_False by (intros (Hm & _); lia). congruence.
    + rewrite decide_False by (intros (Hm & _); lia). congruence.
    + rewrite decide_True; [done|].
      split_and!; [lia| |lia..].
      replace (4 * k + 3 - 3) with (4 * k) by lia.
      rewrite (near_background_rgb _ _ _ _ _ _ cr cg cb) by done.
      apply bool_decide_eq_true. lia.
Qed.

Lemma findContentBounds_cleared threshold :
  0 < width → 0 < height → 0 ≤ threshold →
  findContentBounds threshold (solid (Z.to_nat (width * height)) cr cg cb 0) width height
  = {| top := 0; bottom := height; left := 0; right := width |}.
Proof.
  intros Hw Hh Ht.
  apply findContentBounds_none.
  intros x y (Hx & Hy & alpha & Hget & Halpha).
  pose proof (pixel_inside x y Hx Hy) as Hk.
  destruct (solid_get (Z.to_nat (width * height)) 0 (y * width + x)) as (_ & _ & _ & H3);
    [lia|].
  unfold pixel_index in Hget.
  replace ((y * width + x) * 4) with (4 * (y * width + x)) in Hget by lia.
  rewrite H3 in Hget. injection Hget as <-. lia.
Qed.

End solid.

(** ** The reference library does what the library is relied on for *)

Lemma length_bind_const {A B} (f : A → list B) (l : list A) (n : nat) :
  (∀ a, length (f a) = n) → length (l ≫= f) = (length l * n)%nat.
Proof.
  intros Hf. induction l as [|a l IH]; [done|].
  rewrite bind_cons, length_app, Hf, IH. simpl. lia.
Qed.

Lemma render_length (w h : Z) (f : Z → Z → list Z) :
  0 ≤ w → 0 ≤ h → (∀ x y, length (f x y) = 4%nat) →
  buf_length (data (Toy.render w h f)) = w * h * 4.
Proof.
  intros Hw Hh Hf. unfold Toy.render, buf_length. cbn [data].
  rewrite (length_bind_const _ _ (Z.to_nat w * 4)).
  - rewrite length_seqZ. nia.
  - intros y. rewrite (length_bind_const _ _ 4); [|done]. by rewrite length_seqZ.
Qed.

Lemma render_width (w h : Z) (f : Z → Z → list Z) : info_width (Toy.render w h f) = w.
Proof. reflexivity. Qed.

Lemma render_height (w h : Z) (f : Z → Z → list Z) : info_height (Toy.render w h f) = h.
Proof. reflexivity. Qed.

Lemma toy_resizes_squares : resizes_squares Toy.library.
Proof.
  intros img region size Hlen Hleft Htop Hside Hsquare Hright Hbottom Hsize.
  cbn [Toy.library sharp_extract_resize_png sharp_raw].
  unfold Toy.extract.
  destruct (Z.leb_spec 0 (region_left region)); [|lia].
  destruct (Z.leb_spec 0 (region_top region)); [|lia].
  destruct (Z.ltb_spec 0 (region_width region)); [|lia].
  destruct (Z.ltb_spec 0 (region_height region)); [|lia].
  destruct (Z.leb_spec (region_left region + region_width region) (info_width img)); [|lia].
  destruct (Z.leb_spec (region_top region + region_height region) (info_height img)); [|lia].
  cbn [andb mbind result_bind]. unfold Toy.resize_inside, Toy.fitted.
  rewrite !render_width, !render_height, Hsquare.
  destruct (Z.leb_spec (region_width region) (region_width region)); [|lia].
  rewrite (Z.mul_comm (region_width region) size), Z.div_mul by lia.
  rewrite Z.max_r by lia.
  destruct (Z.ltb_spec 0 size); [|lia].
  unfold Toy.resize_fill. destruct (Z.ltb_spec 0 size); [|lia]. cbn [andb mbind result_bind].
  eexists. eexists. split; [reflexivity|].
  unfold Toy.encode, Toy.decode. rewrite !render_width, !render_height.
  destruct (Z.ltb_spec 0 size); [|lia]. cbn [andb].
  rewrite (render_length size size) by (lia || done).
  rewrite Z.eqb_refl. by split_and!.
Qed.

(** C5, as the code has it. For a solid opaque 50 by 50 image of any
    colour, a positive target size and a library that extracts and resizes
    squares as relied on, main.ts does not throw and takes no fallback,
    and its output decodes to an image of the target size by the target
    size. The output is the direct resize (extract of the whole image,
    resize inside the target size, PNG) not of the input but of the input
    with every alpha byte set to 0: the detector returns the image's colour,
    the masker clears every pixel, and the bounds are the full extent. *)
Theorem solid_image_autocrop (sh : Sharp) (st : Settings) (inputBuffer : Buffer)
    (cr cg cb : Z) :
  let P := {| sharp := Some sh; settings := st |} in
  let opaque := solid 2500 cr cg cb 255 in
  let cleared := {| data := solid 2500 cr cg cb 0; info_width := 50; info_height := 50 |} in
  let whole := {| region_left := 0; region_top := 0;
                  region_width := 50; region_height := 50 |} in
  sharp_raw sh inputBuffer = Ok {| data := opaque; info_width := 50; info_height := 50 |} →
  resizes_squares sh → 0 < targetSize st → 0 ≤ trimThreshold st →
  ∃ out decoded,
    Main.autocropImage P inputBuffer = (Ok (Some out), [])
    ∧ sharp_raw sh out = Ok decoded
    ∧ info_width decoded = targetSize st ∧ info_height decoded = targetSize st
    ∧ sharp_extract_resize_png sh cleared whole (targetSize st) = Ok out
    ∧ detectBackgroundColor opaque 50 50 = Some (rgb cr cg cb)
    ∧ makeBackgroundTransparent opaque (rgb cr cg cb) 30 = solid 2500 cr cg cb 0
    ∧ findContentBounds (trimThreshold st) (solid 2500 cr cg cb 0) 50 50
      = {| top := 0; bottom := 50; left := 0; right := 50 |}.
Proof.
  intros P opaque cleared whole Hraw Hlibrary Hsize Hthreshold.
  assert (detectBackgroundColor opaque 50 50 = Some (rgb cr cg cb)) as Hdetect
    by (apply (detectBackgroundColor_solid cr cg cb 50 50); lia).
  assert (makeBackgroundTransparent opaque (rgb cr cg cb) 30 = solid 2500 cr cg cb 0)
    as Hmask by (apply makeBackgroundTransparent_solid; lia).
  assert (findContentBounds (trimThreshold st) (solid 2500 cr cg cb 0) 50 50
          = {| top := 0; bottom := 50; left := 0; right := 50 |}) as Hbounds
    by (apply (findContentBounds_cleared cr cg cb 50 50); lia).
  assert (Main.crop sh st inputBuffer
          = sharp_extract_resize_png sh cleared whole (targetSize st)) as Hcrop.
  { unfold Main.crop. rewrite Hraw.
    cbn [mbind result_bind data info_width info_height]. fold opaque.
    rewrite Hdetect, Hmask, Hbounds. done. }
  assert (buf_length (data cleared) = info_width cleared * info_height cleared * 4) as Hlen.
  { subst cleared. cbn [data info_width info_height]. rewrite solid_length.
    vm_compute. reflexivity. }
  destruct (Hlibrary cleared whole (targetSize st) Hlen) as (out & decoded & Hout & Hdec & Hw & Hh);
    [subst cleared whole; cbn [region_left region_top region_width region_height
                                info_width info_height]; lia..|].
  exists out, decoded.
  refine (conj _ (conj Hdec (conj Hw (conj Hh (conj Hout
            (conj Hdetect (conj Hmask Hbounds))))))).
  apply main_autocropImage_ok. rewrite Hcrop. exact Hout.
Qed.

Lemma solid_image_autocrop_witness :
  ∃ out decoded,
    Main.autocropImage (Toy.plugin 2 false) (Toy.encode Toy.blank) = (Ok (Some out), [])
    ∧ sharp_raw Toy.library out = Ok decoded
    ∧ info_width decoded = 2 ∧ info_height decoded = 2
    ∧ sharp_extract_resize_png Toy.library
        {| data := solid 2500 9 9 9 0; info_width := 50; info_height := 50 |}
        {| region_left := 0; region_top := 0; region_width := 50; region_height := 50 |} 2
      = Ok out.
Proof.
  destruct (solid_image_autocrop Toy.library (settings (Toy.plugin 2 false))
              (Toy.encode Toy.blank) 9 9 9)
    as (out & decoded & H1 & H2 & H3 & H4 & H5 & _).
  - vm_compute. reflexivity.
  - exact toy_resizes_squares.
  - vm_compute. reflexivity.
  - vm_compute. intros [=].
  - exists out, decoded. exact (conj H1 (conj H2 (conj H3 (conj H4 H5)))).
Defined.

(** C5, as stated, fails in main.ts: the output for a solid opaque 50 by 50
    image is transparent, and differs from each resize of the input that the
    library offers. *)
Lemma solid_image_output_is_not_the_input_resized :
  let P := Toy.plugin 2 false in
  let inputBuffer := Toy.encode Toy.blank in
  let whole := {| region_left := 0; region_top := 0;
                  region_width := 50; region_height := 50 |} in
  ∃ out,
    Main.autocropImage P inputBuffer = (Ok (Some out), [])
    ∧ Part000.resizeOnly P inputBuffer ≠ Ok (Some out)
    ∧ Main.resizeOnly P inputBuffer ≠ Ok (Some out)
    ∧ sharp_extract_resize_png Toy.library Toy.blank whole 2 ≠ Ok out.
Proof.
  intros P inputBuffer whole. eexists. split.
  - vm_compute. reflexivity.
  - split_and!; vm_compute; intros [=].
Qed.

(** ** Paths *)

Lemma string_length_app (s1 s2 : string) :
  String.length (s1 +:+ s2) = (String.length s1 + String.length s2)%nat.
Proof. induction s1 as [|c s1 IH]; simpl; [done|]. by rewrite IH. Qed.

Lemma substring_length (s : string) (n m : nat) :
  (n + m ≤ String.length s)%nat → String.length (String.substring n m s) = m.
Proof.
  revert n m. induction s as [|c s IH]; intros n m Hlen; simpl in Hlen.
  - destruct n, m; simpl; lia.
  - destruct n as [|n]; destruct m as [|m]; simpl; try done.
    + rewrite IH; [done|lia].
    + apply IH. lia.
    + apply IH. lia.
Qed.

Lemma js_substring_length (s : string) (start stop : Z) :
  Z.of_nat (String.length (js_substring s start stop)) =
  Z.abs (Z.max 0 (Z.min stop (Z.of_nat (String.length s)))
         - Z.max 0 (Z.min start (Z.of_nat (String.length s)))).
Proof. unfold js_substring. rewrite substring_length; lia. Qed.

Lemma lastIndexOf_from_bounds (s : string) c (i found : Z) :
  lastIndexOf_from s c i found = found
  ∨ i ≤ lastIndexOf_from s c i found < i + Z.of_nat (String.length s).
Proof.
  revert i found. induction s as [|a s IH]; intros i found; simpl; [by left|].
  destruct (IH (i + 1) (if Ascii.eqb a c then i else found)) as [->|H].
  - destruct (Ascii.eqb a c); [right; lia|by left].
  - right. lia.
Qed.

Lemma lastIndexOf_bounds (s : string) c :
  -1 ≤ lastIndexOf s c < Z.of_nat (String.length s).
Proof.
  unfold lastIndexOf. destruct (lastIndexOf_from_bounds s c 0 (-1)) as [->|H]; lia.
Qed.

(** A backup path is longer than the path it backs up. *)
Lemma getBackupPath_length (p : string) :
  (String.length p < String.length (getBackupPath p))%nat.
Proof.
  unfold getBackupPath, js_substring_from.
  pose proof (lastIndexOf_bounds p "/"%char) as Hk.
  pose proof (js_substring_length p 0 (lastIndexOf p "/")) as Hdir.
  pose proof (js_substring_length p (lastIndexOf p "/" + 1) (Z.of_nat (String.length p)))
    as Hname.
  rewrite !string_length_app. simpl String.length. lia.
Qed.

Lemma getBackupPath_ne (p : string) : getBackupPath p ≠ p.
Proof. intros E. pose proof (getBackupPath_length p) as H. rewrite E in H. lia. Qed.

(** The folder of a backup is not the backup. *)
Lemma backupDir_ne (p : string) :
  js_substring (getBackupPath p) 0 (lastIndexOf (getBackupPath p) "/") ≠ getBackupPath p.
Proof.
  intros E. pose proof (getBackupPath_length p) as Hlen.
  pose proof (lastIndexOf_bounds (getBackupPath p) "/"%char) as Hk.
  pose proof (js_substring_length (getBackupPath p) 0 (lastIndexOf (getBackupPath p) "/"))
    as Hdir.
  rewrite E in Hdir. lia.
Qed.

(** ** processImage *)

Lemma writes_to_app p ops1 ops2 :
  writes_to p (ops1 ++ ops2) = writes_to p ops1 ++ writes_to p ops2.
Proof. apply filter_app. Qed.

Lemma writes_to_other p op : op_path op ≠ p → writes_to p [op] = [].
Proof. intros H. unfold writes_to. by rewrite filter_cons_False, filter_nil. Qed.

Lemma writes_to_same p op : op_path op = p → writes_to p [op] = [op].
Proof. intros H. unfold writes_to. by rewrite filter_cons_True, filter_nil. Qed.

Section processImage_facts.

Variable autocropImage : Plugin → Buffer → Logged (option Buffer).
Variable refreshImageCache : TFile → result unit.

Local Abbreviation settle := (processImage_run autocropImage refreshImageCache).

(** The backup step never throws: it creates the folder and the backup
    when they are missing and touches nothing that exists. *)
Lemma keep_backup_spec file contents w :
  ∃ w', keep_backup file contents w = (Ok (), w')
        ∧ only_creates w w'
        ∧ (vault w !! getBackupPath (path file) = None →
           vault w' !! getBackupPath (path file) = Some (File contents)).
Proof.
  unfold keep_backup, getAbstractFileByPath, mbind, M_bind.
  set (backupPath := getBackupPath (path file)).
  set (backupDir := js_substring backupPath 0 (lastIndexOf backupPath "/")).
  assert (backupDir ≠ backupPath) as Hne by apply backupDir_ne.
  destruct (vault w !! backupPath) as [existing|] eqn:Hbackup.
  { exists w. unfold only_creates. by split_and!. }
  destruct (vault w !! backupDir) as [folder|] eqn:Hdir; simpl.
  - unfold createBinary. rewrite Hbackup. simpl.
    eexists. split; [done|]. split.
    + unfold only_creates. simpl. split_and!; try done.
      intros p e Hp. rewrite lookup_insert_ne by congruence.
      by rewrite writes_to_app, writes_to_other, app_nil_r by (simpl; congruence).
    + intros _. simpl. apply lookup_insert_eq.
  - unfold createFolder. rewrite Hdir. simpl.
    unfold createBinary. simpl. rewrite lookup_insert_ne, Hbackup by done. simpl.
    eexists. split; [done|]. split.
    + unfold only_creates. simpl. split_and!; try done.
      intros p e Hp. rewrite !lookup_insert_ne by congruence.
      by rewrite !writes_to_app, !writes_to_other, !app_nil_r by (simpl; congruence).
    + intros _. simpl. apply lookup_insert_eq.
Qed.

Lemma only_creates_refl w : only_creates w w.
Proof. unfold only_creates. by split_and!. Qed.

(** The backup step of a run, enabled or not. *)
Lemma backup_step P file contents w :
  ∃ w', (if keepBackup (settings P) then keep_backup file contents else mret ()) w
        = (Ok (), w')
        ∧ only_creates w w'
        ∧ (keepBackup (settings P) = true →
           vault w !! getBackupPath (path file) = None →
           vault w' !! getBackupPath (path file) = Some (File contents)).
Proof.
  destruct (keepBackup (settings P)).
  - destruct (keep_backup_spec file contents w) as (w' & H & Hc & Hb). eauto.
  - exists w. split_and!; [done|apply only_creates_refl|done].
Qed.

(** What a run that was let in does, by cases on the file and on what
    [autocropImage] returns. *)
Lemma processImage_run_effect P file w :
  let r := (settle P file w).1 in
  let w' := (settle P file w).2 in
  processing w' = processing w ∧ clock w' = clock w
  ∧ timers w' = timers w ++ [(clock w + 2000, path file)]
  ∧ (∀ p e, p ≠ path file → vault w !! p = Some e →
       vault w' !! p = Some e ∧ writes_to p (journal w') = writes_to p (journal w))
  ∧ match vault w !! path file with
    | Some (File contents) =>
        (keepBackup (settings P) = true →
         vault w !! getBackupPath (path file) = None →
         vault w' !! getBackupPath (path file) = Some (File contents))
        ∧ match autocropImage P contents with
          | (Ok (Some out), _) =>
              vault w' !! path file = Some (File out)
              ∧ writes_to (path file) (journal w')
                = writes_to (path file) (journal w) ++ [ModifiedBinary (path file) out]
              ∧ match refreshImageCache file with
                | Ok _ => r = Ok true
                          ∧ notices w' = notices w ++ ["Image autocropped: " +:+ name file]
                | Err reason => r = Ok false
                                ∧ notices w' = notices w ++ [failure_notice file reason]
                end
          | (Ok None, _) =>
              untouched (path file) w w' ∧ r = Ok false ∧ notices w' = notices w
          | (Err reason, _) =>
              untouched (path file) w w' ∧ r = Ok false
              ∧ notices w' = notices w ++ [failure_notice file reason]
          end
    | _ =>
        vault w' = vault w ∧ journal w' = journal w ∧ r = Ok false
        ∧ notices w' = notices w ++ [failure_notice file "File not found"]
    end.
Proof.
  unfold processImage_run, try_finally, try_catch, processImage_try.
  unfold mbind, M_bind, console_log, readBinary. simpl.
  destruct (vault w !! path file) as [[contents|]|] eqn:Hread;
    [|simpl; by split_and!..].
  destruct (backup_step P file contents (with_console ["Processing image: " +:+ path file] w))
    as (wb & -> & Hcreates & Hbackup).
  destruct Hcreates as (Hproc & Htimers & Hclock & Hnotices & Hkept).
  simpl in Hproc, Htimers, Hclock, Hnotices, Hkept, Hbackup.
  unfold logged, modifyBinary, new_Notice, processImage_catch, untouched, failure_notice.
  unfold mbind, M_bind, console_log.
  destruct (Hkept (path file) _ Hread) as [Hfile Hwrites].
  assert (path file ≠ getBackupPath (path file)) as Hne
    by (intros E; by apply (getBackupPath_ne (path file))).
  destruct (autocropImage P contents) as [[[out|]|reason] lines]; simpl.
  - assert (∀ p e, p ≠ path file → vault w !! p = Some e →
              <[path file := File out]> (vault wb) !! p = Some e
              ∧ writes_to p (journal wb ++ [ModifiedBinary (path file) out])
                = writes_to p (journal w)) as Hframe.
    { intros p e Hp Hlook. destruct (Hkept p e Hlook) as [Hv Hj].
      rewrite lookup_insert_ne by done.
      by rewrite writes_to_app, writes_to_other, app_nil_r by (simpl; congruence). }
    assert (writes_to (path file) (journal wb ++ [ModifiedBinary (path file) out])
            = writes_to (path file) (journal w) ++ [ModifiedBinary (path file) out])
      as Hone by (by rewrite writes_to_app, Hwrites, writes_to_same).
    destruct (refreshImageCache file) as [[]|reason]; simpl;
      rewrite Hproc, Htimers, Hclock, Hnotices, lookup_insert_eq;
      (split_and!; [done..| |done|done|done|done]);
      intros Hk Hn; rewrite lookup_insert_ne by done; by apply Hbackup.
  - rewrite Hproc, Htimers, Hclock, Hnotices, Hfile, Hwrites.
    split_and!; try done. intros p e _ Hp. by apply Hkept.
  - rewrite Hproc, Htimers, Hclock, Hnotices, Hfile, Hwrites.
    split_and!; try done. intros p e _ Hp. by apply Hkept.
Qed.

Local Abbreviation process := (processImage autocropImage refreshImageCache).

(** The three ways a call can go: no library, a run already let in for the
    path, or a run of its own. *)
Lemma processImage_cases P file w :
  (sharp P = None
   ∧ process P file w = (Ok false, with_notice "Image processing library not available" w))
  ∨ (is_Some (sharp P) ∧ path file ∈ processing w ∧ process P file w = (Ok false, w))
  ∨ (is_Some (sharp P) ∧ (path file ∉ processing w)
     ∧ process P file w
       = settle P file (with_processing ({[path file]} ∪ processing w) w)).
Proof.
  unfold processImage, processImage_enter, mbind, M_bind.
  destruct (sharp P) as [sh|]; [|by left].
  right. destruct (decide (path file ∈ processing w)); [left|right]; by split_and!.
Qed.

(** A call leaves alone every entry but the image's own. *)
Lemma processImage_frame P file w p e :
  p ≠ path file → vault w !! p = Some e →
  vault (process P file w).2 !! p = Some e
  ∧ writes_to p (journal (process P file w).2) = writes_to p (journal w).
Proof.
  intros Hne Hp.
  destruct (processImage_cases P file w) as [[_ ->]|[(_ & _ & ->)|(_ & _ & ->)]];
    [done..|].
  pose proof (processImage_run_effect P file
                (with_processing ({[path file]} ∪ processing w) w)) as (_ & _ & _ & H & _).
  by apply H.
Qed.

End processImage_facts.



(** Bytes that are no image, in either variant: nothing is written, and
    the notice carries the library's message. *)
Example processImage_garbage :
  let w := fresh {[ "art/a.png" := File Toy.garbage ]} in
  let file := {| path := "art/a.png"; name := "a.png" |} in
  let main := processImage Main.autocropImage (λ _, Ok ()) (Toy.plugin 200 false) file w in
  let part000 :=
    processImage Part000.autocropImage (λ _, Ok ()) (Toy.plugin 200 false) file w in
  main.1 = Ok false ∧ part000.1 = Ok false
  ∧ vault main.2 = vault w ∧ vault part000.2 = vault w
  ∧ journal main.2 = [] ∧ journal part000.2 = []
  ∧ notices main.2
    = ["Failed to process a.png: Input buffer contains unsupported image format"]
  ∧ notices part000.2 = notices main.2.
Proof. by vm_compute. Qed.

(** C9. A call never changes an existing backup of the image: the entry at
    [<dir>/_originals/<name>] is what it was, whatever the image's bytes
    now are, and no write was made to it. The backup is created by a run
    that finds none. *)
Theorem processImage_keeps_backup
    (autocropImage : Plugin → Buffer → Logged (option Buffer))
    (refreshImageCache : TFile → result unit) (P : Plugin) (file : TFile) (w : World) :
  let process := processImage autocropImage refreshImageCache P file in
  let backupPath := getBackupPath (path file) in
  (∀ backup, vault w !! backupPath = Some backup →
     vault (process w).2 !! backupPath = Some backup
     ∧ writes_to backupPath (journal (process w).2) = writes_to backupPath (journal w))
  ∧ (∀ contents,
       is_Some (sharp P) → path file ∉ processing w → keepBackup (settings P) = true →
       vault w !! path file = Some (File contents) → vault w !! backupPath = None →
       vault (process w).2 !! backupPath = Some (File contents)
       ∧ ∀ later, vault later !! backupPath = vault (process w).2 !! backupPath →
           vault (process later).2 !! backupPath = Some (File contents)).
Proof.
  intros process backupPath.
  assert (∀ w0 backup, vault w0 !! backupPath = Some backup →
            vault (process w0).2 !! backupPath = Some backup
            ∧ writes_to backupPath (journal (process w0).2)
              = writes_to backupPath (journal w0)) as Hkept
    by (intros w0 backup Hbackup; apply processImage_frame;
        [apply getBackupPath_ne|done]).
  split; [apply Hkept|].
  intros contents Hsharp Hnotin Hkeep Hread Hnone.
  assert (vault (process w).2 !! backupPath = Some (File contents)) as Hcreated.
  { unfold process.
    destruct (processImage_cases autocropImage refreshImageCache P file w)
      as [[Hno _]|[(_ & Hin & _)|(_ & _ & ->)]].
    - rewrite Hno in Hsharp. by destruct Hsharp.
    - done.
    - pose proof (processImage_run_effect autocropImage refreshImageCache P file
                    (with_processing ({[path file]} ∪ processing w) w))
        as (_ & _ & _ & _ & H).
      simpl in H. rewrite Hread in H. destruct H as [H _]. by apply H. }
  split; [done|]. intros later Hlater. apply Hkept. by rewrite Hlater.
Qed.

(** Processing a picture twice, with backups on: the backup made by the
    first run still holds the original bytes after the second, though the
    image has changed by then. *)
Example processImage_twice :
  let file := {| path := "art/a.png"; name := "a.png" |} in
  let s := run Part000.autocropImage (λ _, Ok ()) (Toy.plugin 4 true)
             (start (fresh {[ "art/a.png" := File (Toy.encode Toy.picture) ]}))
             [Request file; Settle file; Elapse 2000; Request file; Settle file] in
  vault (world s) !! "art/_originals/a.png" = Some (File (Toy.encode Toy.picture))
  ∧ vault (world s) !! "art/a.png" ≠ Some (File (Toy.encode Toy.picture))
  ∧ returned s = [(file, Ok true); (file, Ok true)]
  ∧ length (writes_to "art/_originals/a.png" (journal (world s))) = 1%nat.
Proof. by vm_compute. Qed.

(** ** One run per path *)

Lemma NoDup_fmap_inj_on {A B} (f : A → B) (l : list A) x y :
  NoDup (f <$> l) → x ∈ l → y ∈ l → f x = f y → x = y.
Proof.
  induction l as [|a l IH]; intros Hnd Hx Hy Hf; [by apply elem_of_nil in Hx|].
  rewrite fmap_cons in Hnd. apply NoDup_cons in Hnd as [Ha Hnd].
  apply elem_of_cons in Hx as [->|Hx]; apply elem_of_cons in Hy as [->|Hy].
  - done.
  - destruct Ha. rewrite Hf. by apply list_elem_of_fmap_2.
  - destruct Ha. rewrite <- Hf. by apply list_elem_of_fmap_2.
  - by apply IH.
Qed.

Lemma NoDup_fmap_filter {A B} (f : A → B) (P : A → Prop) `{∀ x, Decision (P x)}
    (l : list A) :
  NoDup (f <$> l) → NoDup (f <$> filter P l).
Proof.
  induction l as [|a l IH]; [done|].
  rewrite fmap_cons. intros [Ha Hnd]%NoDup_cons.
  rewrite filter_cons. destruct (decide (P a)); [|by apply IH].
  rewrite fmap_cons. apply NoDup_cons. split; [|by apply IH].
  intros (x & Hx & Hin)%list_elem_of_fmap. apply list_elem_of_filter in Hin as [_ Hin].
  apply Ha. rewrite Hx. by apply list_elem_of_fmap_2.
Qed.

Lemma elem_of_fmap_filter {A B} (f : A → B) (P : A → Prop) `{∀ x, Decision (P x)}
    (l : list A) b :
  b ∈ f <$> filter P l → b ∈ f <$> l.
Proof.
  intros (x & -> & Hin)%list_elem_of_fmap. apply list_elem_of_filter in Hin as [_ Hin].
  by apply list_elem_of_fmap_2.
Qed.

Section exclusion.

Variable autocropImage : Plugin → Buffer → Logged (option Buffer).
Variable refreshImageCache : TFile → result unit.
Variable P : Plugin.

Local Abbreviation settle := (processImage_run autocropImage refreshImageCache).
Local Abbreviation advance := (step autocropImage refreshImageCache P).
Local Abbreviation play := (run autocropImage refreshImageCache P).

Lemma exclusive_start v : exclusive (start (fresh v)).
Proof.
  unfold exclusive, held. simpl. split; [apply NoDup_nil_2|].
  intros p Hp. by apply elem_of_nil in Hp.
Qed.

(** A request for a path that is in [processing] does nothing. *)
Lemma request_rejected s file :
  is_Some (sharp P) → path file ∈ processing (world s) →
  advance s (Request file)
  = {| world := world s; inflight := inflight s;
       returned := returned s ++ [(file, Ok false)] |}.
Proof.
  intros [sh Hsh] Hin. unfold step, processImage_enter. rewrite Hsh.
  by rewrite decide_True.
Qed.

Lemma request_admitted s file :
  is_Some (sharp P) → path file ∉ processing (world s) →
  advance s (Request file)
  = {| world := with_processing ({[path file]} ∪ processing (world s)) (world s);
       inflight := inflight s ++ [file]; returned := returned s |}.
Proof.
  intros [sh Hsh] Hin. unfold step, processImage_enter. rewrite Hsh.
  by rewrite decide_False.
Qed.

Lemma settle_step s file :
  file ∈ inflight s →
  advance s (Settle file)
  = {| world := (settle P file (world s)).2;
       inflight := filter (λ f, f ≠ file) (inflight s);
       returned := returned s ++ [(file, (settle P file (world s)).1)] |}.
Proof.
  intros Hin. unfold step. rewrite decide_True by done.
  by destruct (settle P file (world s)).
Qed.

Lemma exclusive_request s file : exclusive s → exclusive (advance s (Request file)).
Proof.
  intros [Hnd Hheld]. unfold step, processImage_enter.
  destruct (sharp P) as [sh|]; [|done].
  destruct (decide (path file ∈ processing (world s))) as [Hin|Hnotin]; [done|].
  unfold exclusive, held in *. simpl. split.
  - rewrite fmap_app, <- app_assoc. simpl.
    apply NoDup_app in Hnd as (Hfl & Hdis & Htm).
    apply NoDup_app. split_and!; [done| |].
    + intros p Hp [->|Hq]%elem_of_cons.
      * apply Hnotin, Hheld, elem_of_app. by left.
      * by apply (Hdis p).
    + apply NoDup_cons. split; [|done].
      intros Hq. apply Hnotin, Hheld, elem_of_app. by right.
  - intros p. rewrite fmap_app, !elem_of_app, elem_of_union, elem_of_singleton.
    simpl. rewrite list_elem_of_singleton.
    intros [[Hp| ->]|Hp]; [right|by left|right]; apply Hheld, elem_of_app; tauto.
Qed.

Lemma exclusive_settle s file : exclusive s → exclusive (advance s (Settle file)).
Proof.
  intros [Hnd Hheld]. destruct (decide (file ∈ inflight s)) as [Hin|Hnotin];
    [|unfold step; by rewrite decide_False].
  rewrite settle_step by done.
  pose proof (processImage_run_effect autocropImage refreshImageCache P file (world s))
    as (Hproc & _ & Htimers & _).
  unfold exclusive, held in *. simpl. rewrite Hproc, Htimers, fmap_app. simpl.
  apply NoDup_app in Hnd as (Hfl & Hdis & Htm).
  assert (path file ∉ path <$> filter (λ f, f ≠ file) (inflight s)) as Hgone.
  { intros (g & Hg & Hgin)%list_elem_of_fmap.
    apply list_elem_of_filter in Hgin as [Hne Hgin].
    apply Hne. by apply (NoDup_fmap_inj_on path (inflight s)). }
  split.
  - apply NoDup_app. split_and!.
    + by apply NoDup_fmap_filter.
    + intros p Hp [Hq| ->%list_elem_of_singleton]%elem_of_app; [|done].
      apply (Hdis p); [|done]. by eapply elem_of_fmap_filter.
    + apply NoDup_app. split_and!; [done| |apply NoDup_singleton].
      intros p Hp ->%list_elem_of_singleton.
      apply (Hdis (path file)); [by apply list_elem_of_fmap_2|done].
  - intros p. rewrite !elem_of_app, list_elem_of_singleton.
    intros [Hp|[Hp| ->]]; apply Hheld, elem_of_app.
    + left. by eapply elem_of_fmap_filter.
    + by right.
    + left. by apply list_elem_of_fmap_2.
Qed.

Lemma exclusive_elapse s ms : exclusive s → exclusive (advance s (Elapse ms)).
Proof.
  intros [Hnd Hheld]. unfold exclusive, held, step, fire_timers in *. simpl.
  set (now := clock (world s) + Z.max 0 ms).
  apply NoDup_app in Hnd as (Hfl & Hdis & Htm).
  split.
  - apply NoDup_app. split_and!; [done| |by apply NoDup_fmap_filter].
    intros p Hp Hq. apply (Hdis p); [done|]. by eapply elem_of_fmap_filter.
  - intros p Hp. apply elem_of_difference. split.
    + apply Hheld. apply elem_of_app in Hp as [Hp|Hp]; apply elem_of_app; [by left|right].
      by eapply elem_of_fmap_filter.
    + rewrite elem_of_list_to_set.
      intros (due & Hdue & Hduein)%list_elem_of_fmap.
      apply list_elem_of_filter in Hduein as [Hisdue Hduein].
      apply elem_of_app in Hp as [Hp|Hp].
      * apply (Hdis p); [done|]. rewrite Hdue. by apply list_elem_of_fmap_2.
      * apply list_elem_of_fmap in Hp as (t & Ht & Htin).
        apply list_elem_of_filter in Htin as [Hpending Htin].
        assert (due = t) as -> by
          (apply (NoDup_fmap_inj_on snd (timers (world s))); congruence).
        done.
Qed.

Lemma exclusive_step s e : exclusive s → exclusive (advance s e).
Proof.
  destruct e; [apply exclusive_request|apply exclusive_settle|apply exclusive_elapse].
Qed.

Lemma exclusive_run s events : exclusive s → exclusive (play s events).
Proof.
  revert s. induction events as [|e events IH]; intros s Hs; [done|].
  apply IH, exclusive_step, Hs.
Qed.

Lemma exclusive_inflight s : exclusive s → NoDup (path <$> inflight s).
Proof. intros [Hnd _]. by apply NoDup_app in Hnd as (? & _ & _). Qed.

End exclusion.

Section one_run.

Variable autocropImage : Plugin → Buffer → Logged (option Buffer).
Variable refreshImageCache : TFile → result unit.
Variable P : Plugin.

Local Abbreviation settle := (processImage_run autocropImage refreshImageCache).
Local Abbreviation advance := (step autocropImage refreshImageCache P).
Local Abbreviation play := (run autocropImage refreshImageCache P).

(** While a path is held, a request for it returns false and does nothing. *)
Lemma held_request_rejected s file :
  is_Some (sharp P) → exclusive s → path file ∈ held s →
  advance s (Request file)
  = {| world := world s; inflight := inflight s;
       returned := returned s ++ [(file, Ok false)] |}.
Proof. intros Hsharp [_ Hheld] Hin. apply request_rejected; [done|]. by apply Hheld. Qed.

(** The path stays in [processing] when the run ends, and until 2000 ms have
    passed. *)
Lemma deleted_after_delay s file :
  exclusive s → file ∈ inflight s →
  let s1 := advance s (Settle file) in
  path file ∈ processing (world s1)
  ∧ (∀ ms, ms < 2000 → path file ∈ processing (world (advance s1 (Elapse ms))))
  ∧ (∀ ms, 2000 ≤ ms → path file ∉ processing (world (advance s1 (Elapse ms)))).
Proof.
  intros Hs Hin s1.
  pose proof (exclusive_settle autocropImage refreshImageCache P s file Hs) as Hs1.
  fold s1 in Hs1. unfold s1 in *. clear s1. rewrite settle_step in * by done.
  pose proof (processImage_run_effect autocropImage refreshImageCache P file (world s))
    as (Hproc & Hclock & Htimers & _).
  set (w1 := (settle P file (world s)).2) in *.
  assert ((clock (world s) + 2000, path file) ∈ timers w1) as Htimer
    by (rewrite Htimers, elem_of_app, list_elem_of_singleton; by right).
  assert (path file ∈ processing w1) as Hheld.
  { destruct Hs1 as [_ Hall]. apply Hall. unfold held. simpl.
    apply elem_of_app. right.
    by apply (list_elem_of_fmap_2' snd _ (clock (world s) + 2000, path file)). }
  split_and!; [done|..]; intros ms Hms; unfold step, fire_timers; simpl;
    rewrite elem_of_difference, elem_of_list_to_set.
  - split; [done|]. intros (due & Hdue & Hduein)%list_elem_of_fmap.
    apply list_elem_of_filter in Hduein as [Hisdue Hduein]. simpl in Hisdue.
    assert (due = (clock (world s) + 2000, path file)) as ->.
    { destruct Hs1 as [Hnd _]. unfold held in Hnd. simpl in Hnd.
      apply NoDup_app in Hnd as (_ & _ & Hnd).
      by apply (NoDup_fmap_inj_on snd (timers w1)). }
    simpl in Hisdue. lia.
  - intros [_ Hnot]. apply Hnot.
    apply (list_elem_of_fmap_2' snd _ (clock (world s) + 2000, path file)); [|done].
    apply list_elem_of_filter. split; [simpl; lia|done].
Qed.

(** Two requests before the first run ends: the second changes nothing, and
    the image is written at most once, by the run that was let in. *)
Lemma two_requests w file :
  is_Some (sharp P) → path file ∉ processing w →
  let s2 := play (start w) [Request file; Request file; Settle file] in
  let s1 := play (start w) [Request file; Settle file] in
  world s2 = world s1 ∧ inflight s2 = []
  ∧ (∃ r, returned s1 = [(file, r)] ∧ returned s2 = [(file, Ok false); (file, r)])
  ∧ (∀ contents out lines,
       vault w !! path file = Some (File contents) →
       autocropImage P contents = (Ok (Some out), lines) →
       writes_to (path file) (journal (world s2))
       = writes_to (path file) (journal w) ++ [ModifiedBinary (path file) out])
  ∧ (∀ contents,
       vault w !! path file = Some (File contents) →
       (autocropImage P contents).1 ≠ Ok None →
       (∀ out, (autocropImage P contents).1 ≠ Ok (Some out)) →
       writes_to (path file) (journal (world s2)) = writes_to (path file) (journal w))
  ∧ (∀ contents, vault w !! path file = Some (File contents) →
     (autocropImage P contents).1 = Ok None →
     writes_to (path file) (journal (world s2)) = writes_to (path file) (journal w))
  ∧ ((∀ contents, vault w !! path file ≠ Some (File contents)) →
     writes_to (path file) (journal (world s2)) = writes_to (path file) (journal w)).
Proof.
  intros Hsharp Hnotin s2 s1. unfold s2, s1, run. clear s1 s2. cbn [foldl].
  rewrite (request_admitted autocropImage refreshImageCache P (start w) file Hsharp Hnotin).
  rewrite (request_rejected _ _ _ _ file Hsharp) by (simpl; set_solver).
  rewrite !settle_step by (simpl; apply list_elem_of_here).
  simpl. set (w0 := with_processing _ w).
  pose proof (processImage_run_effect autocropImage refreshImageCache P file w0)
    as (_ & _ & _ & _ & H).
  change (vault w0) with (vault w) in H. change (journal w0) with (journal w) in H.
  split_and!.
  - done.
  - by rewrite filter_cons_False, filter_nil by (intros Hne; by apply Hne).
  - by eexists.
  - intros contents out lines Hread Hcrop. rewrite Hread, Hcrop in H. apply H.
  - intros contents Hread Hnone Hsome. rewrite Hread in H. destruct H as [_ H].
    destruct (autocropImage P contents) as [[[out|]|reason] l]; simpl in *.
    + by destruct (Hsome out).
    + done.
    + apply H.
  - intros contents Hread Hnone. rewrite Hread in H. destruct H as [_ H].
    destruct (autocropImage P contents) as [[[out|]|reason] l]; simpl in *; try done.
    apply H.
  - intros Hread. destruct (vault w !! path file) as [[contents|]|] eqn:Hlook.
    + by destruct (Hread contents).
    + destruct H as (_ & -> & _). done.
    + destruct H as (_ & -> & _). done.
Qed.

End one_run.

(** C8, as the code has it. From a freshly loaded plugin, whatever requests,
    completions and delays follow, no two runs in flight have the same path;
    a request for a path that has a run in flight (or whose deletion is
    still pending) returns false and changes nothing; the path leaves
    [processing] 2000 ms after its run has ended, not before; and two
    requests for a path before the first run ends make at most one write to
    the image: exactly one when the run that was let in gets a buffer from
    [autocropImage], and none when that throws or the file cannot be read. *)
Theorem one_run_per_path
    (autocropImage : Plugin → Buffer → Logged (option Buffer))
    (refreshImageCache : TFile → result unit) (P : Plugin) :
  let advance := step autocropImage refreshImageCache P in
  let play := run autocropImage refreshImageCache P in
  (∀ v events, exclusive (play (start (fresh v)) events)
               ∧ NoDup (path <$> inflight (play (start (fresh v)) events)))
  ∧ (∀ s file, is_Some (sharp P) → exclusive s → path file ∈ held s →
       advance s (Request file)
       = {| world := world s; inflight := inflight s;
            returned := returned s ++ [(file, Ok false)] |})
  ∧ (∀ s file, exclusive s → file ∈ inflight s →
       path file ∈ processing (world (advance s (Settle file)))
       ∧ (∀ ms, ms < 2000 →
            path file ∈ processing (world (advance (advance s (Settle file)) (Elapse ms))))
       ∧ (∀ ms, 2000 ≤ ms →
            path file ∉ processing (world (advance (advance s (Settle file)) (Elapse ms)))))
  ∧ (∀ w file, is_Some (sharp P) → path file ∉ processing w →
       let s2 := play (start w) [Request file; Request file; Settle file] in
       let s1 := play (start w) [Request file; Settle file] in
       world s2 = world s1 ∧ inflight s2 = []
       ∧ (∃ r, returned s1 = [(file, r)] ∧ returned s2 = [(file, Ok false); (file, r)])
       ∧ (∀ contents out lines,
            vault w !! path file = Some (File contents) →
            autocropImage P contents = (Ok (Some out), lines) →
            writes_to (path file) (journal (world s2))
            = writes_to (path file) (journal w) ++ [ModifiedBinary (path file) out])
       ∧ (∀ contents reason lines,
            vault w !! path file = Some (File contents) →
            autocropImage P contents = (Err reason, lines) →
            writes_to (path file) (journal (world s2)) = writes_to (path file) (journal w))
       ∧ ((∀ contents, vault w !! path file ≠ Some (File contents)) →
          writes_to (path file) (journal (world s2)) = writes_to (path file) (journal w))).
Proof.
  intros advance play. split_and!.
  - intros v events.
    assert (exclusive (play (start (fresh v)) events)) as H
      by apply exclusive_run, exclusive_start.
    split; [done|]. by apply exclusive_inflight.
  - apply held_request_rejected.
  - intros s file Hs Hin. by apply deleted_after_delay.
  - intros w file Hsharp Hnotin.
    pose proof (two_requests autocropImage refreshImageCache P w file Hsharp Hnotin)
      as (H1 & H2 & H3 & H4 & H5 & _ & H7).
    split_and!; try done.
    intros contents reason lines Hread Hcrop. apply (H5 contents Hread).
    + by rewrite Hcrop.
    + intros out. by rewrite Hcrop.
Qed.

(** C8, as stated, fails where it counts one write. With bytes that are no
    image the run that was let in fails, and the two requests write nothing;
    with a picture and backups on (the default) they make three writes to
    storage, one of them to the image. *)
Lemma two_requests_not_one_write :
  let file := {| path := "art/a.png"; name := "a.png" |} in
  let play P w := run Main.autocropImage (λ _, Ok ()) P (start (fresh w))
                    [Request file; Request file; Settle file] in
  (journal (world (play (Toy.plugin 200 false) {[ "art/a.png" := File Toy.garbage ]})) = []
   ∧ returned (play (Toy.plugin 200 false) {[ "art/a.png" := File Toy.garbage ]})
     = [(file, Ok false); (file, Ok false)])
  ∧ journal (world (play (Toy.plugin 2 true)
                      {[ "art/a.png" := File (Toy.encode Toy.picture) ]}))
    = [CreatedFolder "art/_originals";
       CreatedBinary "art/_originals/a.png" (Toy.encode Toy.picture);
       ModifiedBinary "art/a.png" [2; 1; 255; 255; 255; 255; 255; 255; 255; 255]].
Proof. by vm_compute. Qed.

(** ** The background detector on small images *)

Lemma list_elem_of_bind_iff {A B} (f : A → list B) (l : list A) (b : B) :
  b ∈ l ≫= f ↔ ∃ a, b ∈ f a ∧ a ∈ l.
Proof. apply list_elem_of_bind. Qed.

(** From 20 by 20 on, every sampled pixel lies in the image. *)
Lemma sampled_points_inside (width height x y : Z) :
  20 ≤ width → 20 ≤ height →
  (x, y) ∈ corner_points width height ++ edge_points width height →
  0 ≤ x < width ∧ 0 ≤ y < height.
Proof.
  intros Hw Hh. unfold corner_points, edge_points, corners, sampleSize.
  rewrite !elem_of_app.
  intros [Hin|[Hin|Hin]].
  - apply list_elem_of_bind_iff in Hin as (corner & Hin & Hcorner).
    apply list_elem_of_bind_iff in Hin as (dy & Hin & Hdy%elem_of_for_range_unit).
    apply list_elem_of_bind_iff in Hin as (dx & Hin & Hdx%elem_of_for_range_unit).
    destruct (Z.geb_spec (corner.1 + dx) width); simpl in Hin;
      [by apply elem_of_nil in Hin|].
    destruct (Z.geb_spec (corner.2 + dy) height); simpl in Hin;
      [by apply elem_of_nil in Hin|].
    apply list_elem_of_singleton in Hin as [= -> ->].
    repeat (apply elem_of_cons in Hcorner as [->|Hcorner]); simpl in *;
      [lia..|by apply elem_of_nil in Hcorner].
  - apply list_elem_of_bind_iff in Hin as (x' & Hin & Hx).
    apply elem_of_for_range in Hx as (j & Hj & -> & Hlt); [|lia].
    apply list_elem_of_bind_iff in Hin as (y' & Hin & Hy).
    apply list_elem_of_singleton in Hin as [= -> ->].
    repeat (apply elem_of_cons in Hy as [->|Hy]); [lia..|by apply elem_of_nil in Hy].
  - apply list_elem_of_bind_iff in Hin as (y' & Hin & Hy).
    apply elem_of_for_range in Hy as (j & Hj & -> & Hlt); [|lia].
    apply list_elem_of_bind_iff in Hin as (x' & Hin & Hx).
    apply list_elem_of_singleton in Hin as [= -> ->].
    repeat (apply elem_of_cons in Hx as [->|Hx]); [lia..|by apply elem_of_nil in Hx].
Qed.

(** C4 fails on images narrower or lower than 20 pixels. For a solid opaque
    10 by 10 image of colour (10, 20, 30) the right-hand corners start at
    column -10: the pixel sampled after the first corner is (-10, 0), its
    index -40 lies before the buffer, the read yields [undefined], the sums
    become [NaN], and the colour returned is (NaN, NaN, NaN) where the mean
    of the sampled pixels is (10, 20, 30). *)
Theorem detectBackgroundColor_small_image :
  let pixels := solid 100 10 20 30 255 in
  corner_points 10 10 !! 100%nat = Some (-10, 0)
  ∧ pixel_index 10 (-10) 0 = -40
  ∧ buf_get pixels (pixel_index 10 (-10) 0 + 3) = NaN
  ∧ sample_all pixels 10 no_sums (take 100 (corner_points 10 10))
    = {| sum_r := Num 1000; sum_g := Num 2000; sum_b := Num 3000; count := 100 |}
  ∧ sample_all pixels 10 no_sums (take 101 (corner_points 10 10))
    = {| sum_r := NaN; sum_g := NaN; sum_b := NaN; count := 101 |}
  ∧ detectBackgroundColor pixels 10 10 = Some {| r := NaN; g := NaN; b := NaN |}.
Proof. by vm_compute. Qed.


(** ** Strings *)

Lemma string_app_cons (c : Ascii.ascii) (s t : string) :
  String c s +:+ t = String c (s +:+ t).
Proof. reflexivity. Qed.

Lemma string_app_nil_l (s : string) : "" +:+ s = s.
Proof. reflexivity. Qed.

Lemma string_app_nil_r (s : string) : s +:+ "" = s.
Proof. induction s as [|c s IH]; [done|]. by rewrite string_app_cons, IH. Qed.

Lemma string_app_assoc (s1 s2 s3 : string) : (s1 +:+ s2) +:+ s3 = s1 +:+ s2 +:+ s3.
Proof. induction s1 as [|c s1 IH]; [done|]. by rewrite !string_app_cons, IH. Qed.

Lemma string_app_inj_l (s t1 t2 : string) : s +:+ t1 = s +:+ t2 → t1 = t2.
Proof.
  induction s as [|c s IH]; [done|]. rewrite !string_app_cons. intros [= H]. by apply IH.
Qed.

Lemma string_app_inj_r (s1 s2 t : string) : s1 +:+ t = s2 +:+ t → s1 = s2.
Proof.
  revert s2. induction s1 as [|c s1 IH]; intros [|d s2] H.
  - done.
  - apply (f_equal String.length) in H. rewrite !string_length_app in H. simpl in H. lia.
  - apply (f_equal String.length) in H. rewrite !string_length_app in H. simpl in H. lia.
  - rewrite !string_app_cons in H. injection H as -> H. f_equal. by apply IH.
Qed.

Lemma prefix_app (s t : string) : String.prefix s (s +:+ t) = true.
Proof.
  induction s as [|c s IH]; [by destruct t|]. rewrite string_app_cons. simpl.
  destruct (Ascii.ascii_dec c c); [done|congruence].
Qed.

Lemma prefix_spec (s t : string) : String.prefix s t = true ↔ ∃ rest, t = s +:+ rest.
Proof.
  split.
  - revert t. induction s as [|c s IH]; intros t H; [by exists t|].
    destruct t as [|d t]; [done|]. simpl in H.
    destruct (Ascii.ascii_dec c d) as [->|]; [|done].
    destruct (IH t H) as [rest ->]. by exists rest.
  - intros [rest ->]. apply prefix_app.
Qed.

Lemma includes_here (hay needle : string) :
  String.prefix needle hay = true → includes hay needle = true.
Proof. intros H. destruct hay; simpl in *; by rewrite H. Qed.

Lemma includes_app (before needle after : string) :
  includes (before +:+ needle +:+ after) needle = true.
Proof.
  induction before as [|c before IH].
  - rewrite string_app_nil_l. apply includes_here, prefix_app.
  - rewrite string_app_cons. simpl. rewrite IH. apply orb_true_r.
Qed.

Lemma includes_spec (hay needle : string) :
  includes hay needle = true ↔ ∃ before after, hay = before +:+ needle +:+ after.
Proof.
  split.
  - induction hay as [|c hay IH].
    + destruct needle; [|done]. intros _. by exists "", "".
    + cbn [includes]. intros [[after H]%prefix_spec|H]%orb_true_iff.
      * by exists "", after.
      * destruct (IH H) as (before & after & ->). by exists (String c before), after.
  - intros (before & after & ->). apply includes_app.
Qed.

Lemma toLowerCase_app (s t : string) :
  toLowerCase (s +:+ t) = toLowerCase s +:+ toLowerCase t.
Proof.
  induction s as [|c s IH]; [done|]. rewrite string_app_cons. simpl.
  by rewrite IH, string_app_cons.
Qed.

Lemma toLowerCase_length (s : string) : String.length (toLowerCase s) = String.length s.
Proof. induction s as [|c s IH]; simpl; [done|]. by rewrite IH. Qed.

Lemma lower_char_idem (c : Ascii.ascii) : lower_char (lower_char c) = lower_char c.
Proof. by destruct c as [[] [] [] [] [] [] [] []]. Qed.

Lemma toLowerCase_idem (s : string) : toLowerCase (toLowerCase s) = toLowerCase s.
Proof. induction s as [|c s IH]; simpl; [done|]. by rewrite IH, lower_char_idem. Qed.

(** ** Paths: the last slash *)

Lemma lastIndexOf_from_app (s t : string) c (i found : Z) :
  lastIndexOf_from (s +:+ t) c i found
  = lastIndexOf_from t c (i + Z.of_nat (String.length s)) (lastIndexOf_from s c i found).
Proof.
  revert i found. induction s as [|a s IH]; intros i found.
  - rewrite string_app_nil_l. simpl. by rewrite Z.add_0_r.
  - rewrite string_app_cons. cbn [lastIndexOf_from String.length]. rewrite IH.
    f_equal. lia.
Qed.

Lemma lastIndexOf_from_absent (s : string) c (i found : Z) :
  occurs c s = false → lastIndexOf_from s c i found = found.
Proof.
  revert i found. induction s as [|a s IH]; intros i found; simpl; [done|].
  intros [Ha Hs]%orb_false_iff. rewrite Ha. by apply IH.
Qed.

Lemma lastIndexOf_from_found (s : string) c (i found : Z) :
  found < i → lastIndexOf_from s c i found = found → occurs c s = false.
Proof.
  revert i found. induction s as [|a s IH]; intros i found Hlt; simpl; [done|].
  destruct (Ascii.eqb a c) eqn:Ha; simpl.
  - intros H. destruct (lastIndexOf_from_bounds s c (i + 1) i) as [E|E]; lia.
  - apply IH. lia.
Qed.

(** [s.lastIndexOf(c)] is -1 exactly when [c] does not occur in [s]. *)
Lemma lastIndexOf_absent (s : string) c : lastIndexOf s c = -1 ↔ occurs c s = false.
Proof.
  unfold lastIndexOf. split.
  - apply lastIndexOf_from_found. lia.
  - apply lastIndexOf_from_absent.
Qed.

Lemma lastIndexOf_last (s t : string) c :
  occurs c t = false → lastIndexOf (s +:+ String c t) c = Z.of_nat (String.length s).
Proof.
  intros Ht. unfold lastIndexOf. rewrite lastIndexOf_from_app.
  cbn [lastIndexOf_from]. rewrite Ascii.eqb_refl.
  rewrite lastIndexOf_from_absent by done. lia.
Qed.

Lemma substring_whole (s : string) : String.substring 0 (String.length s) s = s.
Proof. induction s as [|a s IH]; simpl; [done|]. by rewrite IH. Qed.

Lemma substring_none (s : string) : String.substring 0 0 s = "".
Proof. by destruct s. Qed.

Lemma substring_app_l (s t : string) : String.substring 0 (String.length s) (s +:+ t) = s.
Proof.
  induction s as [|a s IH]; [apply substring_none|].
  rewrite string_app_cons. simpl. by rewrite IH.
Qed.

Lemma substring_app_skip (s t : string) (n m : nat) :
  String.substring (String.length s + n) m (s +:+ t) = String.substring n m t.
Proof.
  induction s as [|a s IH]; [done|]. rewrite string_app_cons. simpl. apply IH.
Qed.

Lemma js_substring_app_l (s t : string) :
  js_substring (s +:+ t) 0 (Z.of_nat (String.length s)) = s.
Proof.
  unfold js_substring. rewrite string_length_app.
  replace (Z.to_nat (Z.min _ _)) with 0%nat by lia.
  replace (Z.to_nat (_ - _)) with (String.length s) by lia.
  apply substring_app_l.
Qed.

Lemma js_substring_from_app_r (s t : string) c :
  js_substring_from (s +:+ String c t) (Z.of_nat (String.length s) + 1) = t.
Proof.
  unfold js_substring_from, js_substring. rewrite string_length_app. simpl String.length.
  replace (Z.to_nat (Z.min _ _)) with (String.length s + 1)%nat by lia.
  replace (Z.to_nat (_ - _)) with (String.length t) by lia.
  rewrite substring_app_skip. simpl. apply substring_whole.
Qed.

Lemma js_substring_empty (s : string) : js_substring s 0 (-1) = "".
Proof.
  unfold js_substring.
  replace (Z.to_nat (Z.min _ _)) with 0%nat by lia.
  replace (Z.to_nat (_ - _)) with 0%nat by lia.
  apply substring_none.
Qed.

Lemma js_substring_from_0 (s : string) : js_substring_from s 0 = s.
Proof.
  unfold js_substring_from, js_substring.
  replace (Z.to_nat (Z.min _ _)) with 0%nat by lia.
  replace (Z.to_nat (_ - _)) with (String.length s) by lia.
  apply substring_whole.
Qed.

(** The backup of a file in a folder, and of a file at the root. *)
Lemma getBackupPath_folder (dir name : string) :
  occurs "/" name = false →
  getBackupPath (dir +:+ "/" +:+ name) = dir +:+ "/_originals/" +:+ name.
Proof.
  intros Hname. unfold getBackupPath.
  change ("/" +:+ name) with (String "/" name).
  rewrite lastIndexOf_last by done.
  by rewrite js_substring_app_l, js_substring_from_app_r.
Qed.

Lemma getBackupPath_root (name : string) :
  occurs "/" name = false → getBackupPath name = "/_originals/" +:+ name.
Proof.
  intros Hname%lastIndexOf_absent. unfold getBackupPath. rewrite Hname.
  by rewrite js_substring_empty, js_substring_from_0.
Qed.

(** Every string is free of [c], or something, [c] and a string free of
    [c]. *)
Lemma char_split (c : Ascii.ascii) (s : string) :
  occurs c s = false
  ∨ ∃ stem ext, s = stem +:+ String c ext ∧ occurs c ext = false.
Proof.
  induction s as [|a s IH]; [by left|].
  destruct IH as [Hs|(stem & ext & -> & Hext)].
  - destruct (Ascii.eqb a c) eqn:Ha.
    + right. apply Ascii.eqb_eq in Ha as ->. by exists "", s.
    + left. simpl. by rewrite Ha.
  - right. by exists (String a stem), ext.
Qed.

(** Every path is a name without a slash, or a folder, a slash and such a
    name. *)
Lemma path_split (p : string) :
  occurs "/" p = false
  ∨ ∃ dir name, p = dir +:+ "/" +:+ name ∧ occurs "/" name = false.
Proof. apply char_split. Qed.

(** What precedes and what follows the last slash are determined. *)
Lemma last_slash_unique (s1 s2 t1 t2 : string) c :
  occurs c t1 = false → occurs c t2 = false →
  s1 +:+ String c t1 = s2 +:+ String c t2 → s1 = s2 ∧ t1 = t2.
Proof.
  intros H1 H2 E.
  assert (Z.of_nat (String.length s1) = Z.of_nat (String.length s2)) as Hlen.
  { rewrite <- (lastIndexOf_last s1 t1 c), <- (lastIndexOf_last s2 t2 c) by done.
    by rewrite E. }
  assert (s1 = s2) as ->.
  { rewrite <- (js_substring_app_l s1 (String c t1)), <- (js_substring_app_l s2 (String c t2)).
    by rewrite E, Hlen. }
  split; [done|]. apply string_app_inj_l in E. by injection E.
Qed.

(** X1. For every name without a slash: the backup of the file of this name
    at the vault's root is [/_originals/<name>], and the backup of the file
    of this name in a folder [dir] is [<dir>/_originals/<name>]. *)
Theorem getBackupPath_in_folder (name : string) :
  lastIndexOf name "/" = -1 →
  getBackupPath name = "/_originals/" +:+ name
  ∧ ∀ dir, getBackupPath (dir +:+ "/" +:+ name) = dir +:+ "/_originals/" +:+ name.
Proof.
  intros Hname%lastIndexOf_absent. split.
  - by apply getBackupPath_root.
  - intros dir. by apply getBackupPath_folder.
Qed.

Lemma getBackupPath_in_folder_witness :
  getBackupPath "a.png" = "/_originals/a.png"
  ∧ ∀ dir, getBackupPath (dir +:+ "/" +:+ "a.png") = dir +:+ "/_originals/" +:+ "a.png".
Proof. apply (getBackupPath_in_folder "a.png"). reflexivity. Defined.

(** X2. Two paths have the same backup path exactly when they are equal or
    one is a name without a slash and the other is this name after a slash:
    no two files of a vault, whose paths never start with a slash, share a
    backup. *)
Theorem getBackupPath_collision (p q : string) :
  getBackupPath p = getBackupPath q
  ↔ p = q ∨ (lastIndexOf q "/" = -1 ∧ p = "/" +:+ q)
    ∨ (lastIndexOf p "/" = -1 ∧ q = "/" +:+ p).
Proof.
  split.
  - intros E.
    destruct (path_split p) as [Hp|(d1 & n1 & -> & Hn1)];
      destruct (path_split q) as [Hq|(d2 & n2 & -> & Hn2)].
    + rewrite !getBackupPath_root in E by done. left. by apply string_app_inj_l in E.
    + rewrite (getBackupPath_root p), (getBackupPath_folder d2 n2) in E by done.
      change ("/_originals/" +:+ p) with ("" +:+ "/_originals" +:+ String "/" p) in E.
      change (d2 +:+ "/_originals/" +:+ n2)
        with (d2 +:+ "/_originals" +:+ String "/" n2) in E.
      rewrite <- !string_app_assoc in E.
      apply last_slash_unique in E as [E ->]; [|done..].
      apply string_app_inj_r in E as <-.
      right. right. split; [by apply lastIndexOf_absent|done].
    + rewrite (getBackupPath_root q), (getBackupPath_folder d1 n1) in E by done.
      change ("/_originals/" +:+ q) with ("" +:+ "/_originals" +:+ String "/" q) in E.
      change (d1 +:+ "/_originals/" +:+ n1)
        with (d1 +:+ "/_originals" +:+ String "/" n1) in E.
      rewrite <- !string_app_assoc in E.
      apply last_slash_unique in E as [E ->]; [|done..].
      apply string_app_inj_r in E as ->.
      right. left. split; [by apply lastIndexOf_absent|done].
    + rewrite !getBackupPath_folder in E by done.
      change (d1 +:+ "/_originals/" +:+ n1)
        with (d1 +:+ "/_originals" +:+ String "/" n1) in E.
      change (d2 +:+ "/_originals/" +:+ n2)
        with (d2 +:+ "/_originals" +:+ String "/" n2) in E.
      rewrite <- !string_app_assoc in E.
      apply last_slash_unique in E as [E ->]; [|done..].
      apply string_app_inj_r in E as ->. by left.
  - intros [->|[[Hq%lastIndexOf_absent ->]|[Hp%lastIndexOf_absent ->]]]; [done|..].
    + change ("/" +:+ q) with ("" +:+ "/" +:+ q).
      by rewrite (getBackupPath_folder "" q), (getBackupPath_root q).
    + change ("/" +:+ p) with ("" +:+ "/" +:+ p).
      by rewrite (getBackupPath_folder "" p), (getBackupPath_root p).
Qed.

(** ** Which files the plugin handles *)

Lemma occurs_app (c : Ascii.ascii) (s t : string) :
  occurs c (s +:+ t) = occurs c s || occurs c t.
Proof.
  induction s as [|a s IH]; [done|]. rewrite string_app_cons. simpl.
  by rewrite IH, orb_assoc.
Qed.

Lemma split_nonempty (s : string) c : split s c ≠ [].
Proof.
  destruct s as [|a s]; simpl; [done|].
  destruct (Ascii.eqb a c); [done|]. by destruct (split s c).
Qed.

Lemma split_absent (s : string) c : occurs c s = false → split s c = [s].
Proof.
  induction s as [|a s IH]; simpl; [done|].
  intros [Ha Hs]%orb_false_iff. by rewrite Ha, IH.
Qed.

Lemma split_single (s piece : string) c : split s c = [piece] → occurs c s = false.
Proof.
  revert piece. induction s as [|a s IH]; intros piece; simpl; [done|].
  destruct (Ascii.eqb a c); simpl.
  - intros [= _ H]. by apply split_nonempty in H.
  - destruct (split s c) as [|first rest] eqn:Hsplit; [by apply split_nonempty in Hsplit|].
    intros [= _ ->]. by apply (IH first).
Qed.

(** The last piece is what follows the last separator. *)
Lemma last_split_present (stem ext : string) c :
  occurs c ext = false → last (split (stem +:+ String c ext) c) = Some ext.
Proof.
  intros Hext. induction stem as [|a stem IH].
  - rewrite string_app_nil_l. simpl. rewrite Ascii.eqb_refl.
    by rewrite split_absent.
  - rewrite string_app_cons. simpl.
    destruct (Ascii.eqb a c).
    + rewrite last_cons. by rewrite IH.
    + destruct (split (stem +:+ String c ext) c) as [|first rest] eqn:Hsplit; [done|].
      destruct rest as [|second rest].
      * apply split_single in Hsplit. rewrite occurs_app in Hsplit. simpl in Hsplit.
        rewrite Ascii.eqb_refl in Hsplit. simpl in Hsplit.
        by rewrite orb_true_r in Hsplit.
      * exact IH.
Qed.

Lemma last_split_spec (s ext : string) c :
  last (split s c) = Some ext
  ↔ (occurs c s = false ∧ s = ext)
    ∨ (occurs c ext = false ∧ ∃ stem, s = stem +:+ String c ext).
Proof.
  split.
  - destruct (char_split c s) as [Hs|(stem & ext' & -> & Hext)].
    + rewrite split_absent by done. intros [= <-]. by left.
    + rewrite last_split_present by done. intros [= <-]. right. split; [done|by exists stem].
  - intros [[Hs <-]|[Hext [stem ->]]].
    + by rewrite split_absent.
    + by apply last_split_present.
Qed.

(** X3. A path is an image file exactly when its lower-case form does not
    contain [/_originals/] and is [png] or ends in [.png]: the extension is
    what follows the last dot, whatever the case of its letters, and a path
    without a dot is its own extension. *)
Theorem isImageFile_spec (filePath : string) :
  isImageFile filePath = true
  ↔ includes (toLowerCase filePath) "/_originals/" = false
    ∧ (toLowerCase filePath = "png" ∨ ∃ stem, toLowerCase filePath = stem +:+ ".png").
Proof.
  unfold isImageFile.
  destruct (includes (toLowerCase filePath) "/_originals/"); [by split; [|intros []]|].
  destruct (last (split (toLowerCase filePath) ".")) as [ext|] eqn:Hext.
  - apply last_split_spec in Hext. rewrite String.eqb_eq. split.
    + intros ->. split; [done|].
      destruct Hext as [[_ ->]|[_ [stem ->]]]; [by left|right; by exists stem].
    + intros [_ [Hpng|[stem Hstem]]].
      * destruct Hext as [[_ Hsame]|[Hfree [stem Hstem]]]; [congruence|].
        rewrite Hstem in Hpng.
        apply (f_equal (occurs ".")) in Hpng. rewrite occurs_app in Hpng.
        simpl in Hpng. by rewrite orb_true_r in Hpng.
      * assert (last (split (toLowerCase filePath) ".") = Some "png") as Hlast
          by (rewrite Hstem; by apply (last_split_present stem "png")).
        assert (last (split (toLowerCase filePath) ".") = Some ext) as Hlast'
          by (by apply last_split_spec).
        congruence.
  - exfalso. apply (split_nonempty (toLowerCase filePath) ".").
    by apply last_None.
Qed.

Lemma toLowerCase_backup (p : string) :
  includes (toLowerCase (getBackupPath p)) "/_originals/" = true.
Proof.
  unfold getBackupPath. rewrite !toLowerCase_app.
  change (toLowerCase "/_originals/") with "/_originals/".
  apply includes_app.
Qed.

Lemma isImageFile_backup (p : string) : isImageFile (getBackupPath p) = false.
Proof. unfold isImageFile. by rewrite toLowerCase_backup. Qed.

Lemma isImageFile_ne_backup (p q : string) : isImageFile p = true → p ≠ getBackupPath q.
Proof. intros H ->. by rewrite isImageFile_backup in H. Qed.

(** X4. No backup path is an image file, whatever the path it backs up:
    the commands, the file menu, the watcher and the batch, which all ask
    [isImageFile], leave the backups alone. *)
Theorem backup_is_no_image (p : string) (ready : bool) (st : Settings) (file : TFile) :
  isImageFile (getBackupPath p) = false
  ∧ (path file = getBackupPath p → fileCreatedHandler ready st file = None)
  ∧ images_under (AFile (file_at (getBackupPath p))) = [].
Proof.
  split_and!.
  - apply isImageFile_backup.
  - intros Hpath. unfold fileCreatedHandler. rewrite Hpath, isImageFile_backup.
    simpl. by repeat case_match.
  - simpl. by rewrite isImageFile_backup.
Qed.

(** ** The watched folder *)

Lemma drop_last_slash_keeps (s : string) :
  last_char s ≠ Some "/"%char → drop_last_slash s = s.
Proof.
  induction s as [|a s IH]; [done|]. simpl. destruct s as [|b s].
  - intros H. destruct (Ascii.eqb a "/") eqn:Ha; [|done].
    apply Ascii.eqb_eq in Ha as ->. done.
  - intros H. by rewrite IH.
Qed.

Lemma drop_last_slash_app (s : string) :
  last_char s ≠ Some "/"%char → drop_last_slash (s +:+ "/") = s.
Proof.
  induction s as [|a s IH]; [done|]. rewrite string_app_cons. simpl. destruct s as [|b s].
  - done.
  - intros H. rewrite string_app_cons in *. by rewrite IH.
Qed.

(** The four spellings of a folder that the setting accepts. *)
Lemma strip_slashes_spellings (folder : string) :
  first_char folder ≠ Some "/"%char → last_char folder ≠ Some "/"%char →
  strip_slashes folder = folder
  ∧ strip_slashes ("/" +:+ folder) = folder
  ∧ strip_slashes (folder +:+ "/") = folder
  ∧ strip_slashes ("/" +:+ folder +:+ "/") = folder.
Proof.
  intros Hfirst Hlast. split_and!.
  - destruct folder as [|a s]; [done|]. unfold strip_slashes.
    destruct (Ascii.eqb a "/") eqn:Ha.
    + apply Ascii.eqb_eq in Ha as ->. done.
    + by apply drop_last_slash_keeps.
  - change ("/" +:+ folder) with (String "/" folder). simpl.
    by apply drop_last_slash_keeps.
  - destruct folder as [|a s]; [done|]. rewrite string_app_cons. unfold strip_slashes.
    destruct (Ascii.eqb a "/") eqn:Ha.
    + apply Ascii.eqb_eq in Ha as ->. done.
    + rewrite <- string_app_cons. by apply drop_last_slash_app.
  - change ("/" +:+ folder +:+ "/") with (String "/" (folder +:+ "/")). simpl.
    by apply drop_last_slash_app.
Qed.

Lemma isInWatchedFolder_prefix (st : Settings) (filePath : string) :
  isInWatchedFolder st filePath = true
  ↔ forward_slashes filePath = strip_slashes (watchedFolder st)
    ∨ ∃ tail, forward_slashes filePath = strip_slashes (watchedFolder st) +:+ "/" +:+ tail.
Proof.
  unfold isInWatchedFolder. rewrite orb_true_iff, prefix_spec, String.eqb_eq.
  split.
  - intros [[rest H]|H]; [right|by left]. exists rest. by rewrite <- string_app_assoc.
  - intros [H|[tail H]]; [by right|left]. exists tail. by rewrite string_app_assoc.
Qed.

(** X5. A folder that neither starts nor ends with a slash may be given to
    the setting as it is, after a slash, before a slash or between two: in
    each case a path is in the watched folder exactly when, with its
    backslashes turned into slashes, it is the folder or starts with the
    folder and a slash. A path that only starts with the folder's name is
    not. *)
Theorem isInWatchedFolder_spellings (st : Settings) (folder filePath : string) :
  first_char folder ≠ Some "/"%char → last_char folder ≠ Some "/"%char →
  watchedFolder st ∈ [folder; "/" +:+ folder; folder +:+ "/"; "/" +:+ folder +:+ "/"] →
  isInWatchedFolder st filePath = true
  ↔ forward_slashes filePath = folder
    ∨ ∃ tail, forward_slashes filePath = folder +:+ "/" +:+ tail.
Proof.
  intros Hfirst Hlast Hin.
  destruct (strip_slashes_spellings folder Hfirst Hlast) as (H1 & H2 & H3 & H4).
  rewrite isInWatchedFolder_prefix.
  assert (strip_slashes (watchedFolder st) = folder) as ->; [|done].
  repeat (apply elem_of_cons in Hin as [->|Hin]); [done..|].
  by apply elem_of_nil in Hin.
Qed.

Lemma isInWatchedFolder_spellings_witness :
  isInWatchedFolder DEFAULT_SETTINGS "_Assets/Enluminures/a.png" = true
  ↔ forward_slashes "_Assets/Enluminures/a.png" = "_Assets/Enluminures"
    ∨ ∃ tail, forward_slashes "_Assets/Enluminures/a.png"
              = "_Assets/Enluminures" +:+ "/" +:+ tail.
Proof.
  apply (isInWatchedFolder_spellings DEFAULT_SETTINGS "_Assets/Enluminures").
  - simpl. congruence.
  - simpl. congruence.
  - simpl. apply list_elem_of_here.
Defined.

(** X6. When the watched folder is set to the empty string or to a slash
    (the vault's root), no file of the vault is in the watched folder: only
    the empty path and the paths that start with a slash or a backslash
    are, and the vault's paths do neither. *)
Theorem vault_root_is_not_watched (st : Settings) (filePath : string) :
  watchedFolder st = "" ∨ watchedFolder st = "/" ∨ watchedFolder st = "//" →
  isInWatchedFolder st filePath = true
  ↔ filePath = ""
    ∨ first_char filePath = Some "/"%char ∨ first_char filePath = Some backslash.
Proof.
  intros Hroot. rewrite isInWatchedFolder_prefix.
  assert (strip_slashes (watchedFolder st) = "") as ->
    by (by destruct Hroot as [-> | [-> | ->]]).
  destruct filePath as [|c rest]; simpl.
  - split; [by left|by left].
  - destruct (Ascii.eqb c backslash) eqn:Hc.
    + apply Ascii.eqb_eq in Hc as ->. split; [intros _; by right; right|].
      intros _. right. by exists (forward_slashes rest).
    + split.
      * intros [H|[tail H]]; [done|]. rewrite string_app_nil_l in H.
        injection H as -> _. right. by left.
      * intros [H|[[= ->]|[= ->]]]; [done| |by rewrite Ascii.eqb_refl in Hc].
        right. by exists (forward_slashes rest).
Qed.

Lemma vault_root_is_not_watched_witness :
  isInWatchedFolder
    {| watchedFolder := "/"; targetSize := 200; enabled := true; processExisting := false;
       trimThreshold := 10; backgroundColor := "transparent"; removeBackground := false;
       backgroundTolerance := 30; keepBackup := true |} "a.png" = true
  ↔ "a.png" = "" ∨ first_char "a.png" = Some "/"%char ∨ first_char "a.png" = Some backslash.
Proof. apply vault_root_is_not_watched. right. left. reflexivity. Defined.

(** ** restoreFromBackup *)

Section restore_facts.

Variable refreshImageCache : TFile → result unit.

Local Abbreviation restore := (restoreFromBackup refreshImageCache).

(** What a call does, by cases on the backup and on the refresh. *)
Lemma restoreFromBackup_effect file w :
  let r := (restore file w).1 in
  let w' := (restore file w).2 in
  processing w' = processing w ∧ timers w' = timers w ∧ clock w' = clock w
  ∧ match vault w !! getBackupPath (path file) with
    | Some (File original) =>
        vault w' = <[path file := File original]> (vault w)
        ∧ journal w' = journal w ++ [ModifiedBinary (path file) original]
        ∧ match refreshImageCache file with
          | Ok _ => r = Ok true ∧ notices w' = notices w ++ ["Restored: " +:+ name file]
          | Err reason =>
              r = Ok false ∧ notices w' = notices w ++ ["Failed to restore: " +:+ reason]
          end
    | _ =>
        vault w' = vault w ∧ journal w' = journal w ∧ r = Ok false
        ∧ notices w' = notices w ++ ["No backup found for: " +:+ name file]
    end.
Proof.
  unfold restoreFromBackup, getAbstractFileByPath, mbind, M_bind.
  destruct (vault w !! getBackupPath (path file)) as [[original|]|] eqn:Hbackup;
    [|simpl; by split_and!..].
  unfold try_catch, restore_try, restore_catch, readBinary, modifyBinary, new_Notice,
    console_log, mbind, M_bind.
  cbn [path file_at]. rewrite Hbackup.
  destruct (refreshImageCache file) as [[]|reason]; simpl; by split_and!.
Qed.

Lemma restoreFromBackup_vault file w original :
  vault w !! getBackupPath (path file) = Some (File original) →
  vault (restore file w).2 !! path file = Some (File original)
  ∧ vault (restore file w).2 !! getBackupPath (path file) = Some (File original).
Proof.
  intros Hbackup.
  pose proof (restoreFromBackup_effect file w) as (_ & _ & _ & H).
  rewrite Hbackup in H. destruct H as (-> & _).
  rewrite lookup_insert_eq. split; [done|].
  rewrite lookup_insert_ne; [done|]. intros E. by apply (getBackupPath_ne (path file)).
Qed.

End restore_facts.

(** X7. Restoring never throws and shows one notice. It writes nothing but
    the image: the backup stays and every other entry is as it was. It
    returns true only when the backup path held a file, whose bytes are
    then the image's; when the backup path holds no file (nothing, or a
    folder) nothing is written and the call returns false. When the refresh
    of the view throws, the call returns false although the image has been
    restored. *)
Theorem restoreFromBackup_spec
    (refreshImageCache : TFile → result unit) (file : TFile) (w : World) :
  let r := (restoreFromBackup refreshImageCache file w).1 in
  let w' := (restoreFromBackup refreshImageCache file w).2 in
  let backupPath := getBackupPath (path file) in
  (∃ answer, r = Ok answer)
  ∧ length (notices w') = S (length (notices w))
  ∧ (∀ p, p ≠ path file →
       vault w' !! p = vault w !! p ∧ writes_to p (journal w') = writes_to p (journal w))
  ∧ (r = Ok true →
     ∃ original, vault w !! backupPath = Some (File original)
                 ∧ vault w' !! path file = Some (File original))
  ∧ ((∀ original, vault w !! backupPath ≠ Some (File original)) →
     vault w' = vault w ∧ journal w' = journal w ∧ r = Ok false)
  ∧ (∀ original reason,
       vault w !! backupPath = Some (File original) → refreshImageCache file = Err reason →
       r = Ok false ∧ vault w' !! path file = Some (File original)).
Proof.
  intros r w' backupPath. unfold r, w', backupPath. clear r w' backupPath.
  pose proof (restoreFromBackup_effect refreshImageCache file w) as (_ & _ & _ & H).
  destruct (vault w !! getBackupPath (path file)) as [[original|]|] eqn:Hbackup.
  - destruct H as (Hvault & Hjournal & H).
    rewrite Hvault, Hjournal.
    assert (∀ p, p ≠ path file →
              <[path file := File original]> (vault w) !! p = vault w !! p
              ∧ writes_to p (journal w ++ [ModifiedBinary (path file) original])
                = writes_to p (journal w)) as Hframe.
    { intros p Hp. rewrite lookup_insert_ne by done.
      by rewrite writes_to_app, writes_to_other, app_nil_r by (simpl; congruence). }
    destruct (refreshImageCache file) as [[]|reason]; destruct H as [-> ->];
      rewrite length_app, Nat.add_1_r, lookup_insert_eq.
    + split_and!; [by eexists|done|done|by exists original| |done].
      intros Hnone. by destruct (Hnone original).
    + split_and!; [by eexists|done|done|done| |by intros ? ? [= ->] _].
      intros Hnone. by destruct (Hnone original).
  - destruct H as (-> & -> & -> & ->). rewrite length_app, Nat.add_1_r.
    by split_and!; [by eexists|..].
  - destruct H as (-> & -> & -> & ->). rewrite length_app, Nat.add_1_r.
    by split_and!; [by eexists|..].
Qed.

(** ** Processing, backups and restoring together *)

Section backups.

Variable autocropImage : Plugin → Buffer → Logged (option Buffer).
Variable refreshImageCache : TFile → result unit.

Local Abbreviation settle := (processImage_run autocropImage refreshImageCache).
Local Abbreviation process := (processImage autocropImage refreshImageCache).
Local Abbreviation advance := (step autocropImage refreshImageCache).
Local Abbreviation play := (run autocropImage refreshImageCache).

(** The writes of the backup step: at most a folder and the backup. *)
Lemma keep_backup_journal file contents w :
  ∃ ops, journal (keep_backup file contents w).2 = journal w ++ ops
         ∧ ∀ q c, CreatedBinary q c ∈ ops →
             q = getBackupPath (path file) ∧ c = contents.
Proof.
  unfold keep_backup, getAbstractFileByPath, mbind, M_bind.
  set (backupPath := getBackupPath (path file)).
  set (backupDir := js_substring backupPath 0 (lastIndexOf backupPath "/")).
  assert (backupDir ≠ backupPath) as Hne by apply backupDir_ne.
  destruct (vault w !! backupPath) as [existing|] eqn:Hbackup.
  { exists []. rewrite app_nil_r. split; [done|].
    intros q c Hin. by apply elem_of_nil in Hin. }
  destruct (vault w !! backupDir) as [folder|] eqn:Hdir; simpl.
  - unfold createBinary. rewrite Hbackup. simpl.
    exists [CreatedBinary backupPath contents]. split; [done|].
    by intros q c [= -> ->]%list_elem_of_singleton.
  - unfold createFolder. rewrite Hdir. simpl.
    unfold createBinary. simpl. rewrite lookup_insert_ne, Hbackup by done. simpl.
    exists [CreatedFolder backupDir; CreatedBinary backupPath contents].
    split; [by rewrite <- app_assoc|].
    intros q c [H|H%list_elem_of_singleton]%elem_of_cons; [done|].
    by injection H as -> ->.
Qed.

(** The writes of a run: those of the backup step, then at most one to the
    image. *)
Lemma processImage_run_journal P file w :
  ∃ ops, journal (settle P file w).2 = journal w ++ ops
         ∧ ∀ q c, CreatedBinary q c ∈ ops →
             q = getBackupPath (path file) ∧ vault w !! path file = Some (File c).
Proof.
  unfold processImage_run, try_finally, try_catch, processImage_try.
  unfold mbind, M_bind, console_log, readBinary. simpl.
  destruct (vault w !! path file) as [[contents|]|] eqn:Hread;
    [|simpl; exists []; rewrite app_nil_r; split; [done|];
      intros q c Hin; by apply elem_of_nil in Hin..].
  set (w0 := with_console _ w).
  assert (∃ ops wb,
            (if keepBackup (settings P) then keep_backup file contents else mret ()) w0
            = (Ok (), wb)
            ∧ journal wb = journal w ++ ops
            ∧ ∀ q c, CreatedBinary q c ∈ ops →
                q = getBackupPath (path file) ∧ c = contents) as (ops & wb & -> & Hops & Hcreated).
  { destruct (backup_step P file contents w0)
      as (wb & Hstep & _).
    destruct (keepBackup (settings P)).
    - destruct (keep_backup_journal file contents w0) as (ops & Hj & Hc).
      rewrite Hstep in Hj. exists ops, wb. by split_and!.
    - exists [], wb. split_and!; [done| |intros q c Hin; by apply elem_of_nil in Hin].
      injection Hstep as <-. by rewrite app_nil_r. }
  unfold logged, modifyBinary, new_Notice, processImage_catch.
  unfold mbind, M_bind, console_log.
  assert (∀ q c, CreatedBinary q c ∈ ops →
            q = getBackupPath (path file) ∧ Some (File contents) = Some (File c)) as Hin
    by (intros q c Hqc; destruct (Hcreated q c Hqc) as [-> ->]; done).
  destruct (autocropImage P contents) as [[[out|]|reason] lines]; simpl.
  - exists (ops ++ [ModifiedBinary (path file) out]).
    assert (∀ q c, CreatedBinary q c ∈ ops ++ [ModifiedBinary (path file) out] →
              q = getBackupPath (path file) ∧ Some (File contents) = Some (File c)) as Hin'.
    { intros q c [Hqc|Hqc%list_elem_of_singleton]%elem_of_app; [by apply Hin|done]. }
    destruct (refreshImageCache file) as [[]|reason]; simpl;
      (split; [by rewrite Hops, app_assoc|done]).
  - exists ops. by split.
  - exists ops. by split.
Qed.

Lemma processImage_journal P file w :
  ∃ ops, journal (process P file w).2 = journal w ++ ops
         ∧ ∀ q c, CreatedBinary q c ∈ ops →
             q = getBackupPath (path file) ∧ vault w !! path file = Some (File c).
Proof.
  destruct (processImage_cases autocropImage refreshImageCache P file w)
    as [[_ ->]|[(_ & _ & ->)|(_ & _ & ->)]].
  - exists []. rewrite app_nil_r. split; [done|]. intros q c Hin. by apply elem_of_nil in Hin.
  - exists []. rewrite app_nil_r. split; [done|]. intros q c Hin. by apply elem_of_nil in Hin.
  - apply (processImage_run_journal P file (with_processing _ w)).
Qed.

(** A call never throws. *)
Lemma processImage_answer P file w : ∃ answer, (process P file w).1 = Ok answer.
Proof.
  destruct (processImage_cases autocropImage refreshImageCache P file w)
    as [[_ ->]|[(_ & _ & ->)|(_ & _ & ->)]]; [by eexists..|].
  set (w0 := with_processing _ w).
  pose proof (processImage_run_effect autocropImage refreshImageCache P file w0)
    as (_ & _ & _ & _ & H).
  destruct (vault w0 !! path file) as [[contents|]|].
  - destruct H as [_ H].
    destruct (autocropImage P contents) as [[[out|]|reason] lines].
    + destruct H as (_ & _ & H). destruct (refreshImageCache file); destruct H as [-> _];
        by eexists.
    + destruct H as (_ & -> & _). by eexists.
    + destruct H as (_ & -> & _). by eexists.
  - destruct H as (_ & _ & -> & _). by eexists.
  - destruct H as (_ & _ & -> & _). by eexists.
Qed.

(** What is at [q] stays through a step that does not settle a run for
    [q]. *)
Lemma step_keeps P s e q entry :
  vault (world s) !! q = Some entry →
  (∀ file, e = Settle file → path file ≠ q) →
  vault (world (advance P s e)) !! q = Some entry.
Proof.
  intros Hq Hsettle. destruct e as [file|file|ms].
  - unfold step, processImage_enter. destruct (sharp P); [|done].
    by destruct (decide (path file ∈ processing (world s))).
  - destruct (decide (file ∈ inflight s)) as [Hin|Hnotin];
      [|unfold step; by rewrite decide_False].
    rewrite settle_step by done. simpl.
    pose proof (processImage_run_effect autocropImage refreshImageCache P file (world s))
      as (_ & _ & _ & H & _).
    apply H; [|done]. intros ->. by apply (Hsettle file).
  - done.
Qed.

Lemma run_keeps P s events q entry :
  vault (world s) !! q = Some entry →
  (∀ file, Settle file ∈ events → path file ≠ q) →
  vault (world (play P s events)) !! q = Some entry.
Proof.
  revert s. induction events as [|e events IH]; intros s Hq Hsettle; [done|].
  apply IH.
  - apply step_keeps; [done|]. intros file ->. apply Hsettle, list_elem_of_here.
  - intros file Hin. by apply Hsettle, list_elem_of_further.
Qed.

End backups.

Lemma guarded_settle (events : list Event) (file : TFile) :
  guarded events = true → Settle file ∈ events → isImageFile (path file) = true.
Proof.
  unfold guarded. rewrite forallb_forall. intros Hall Hin.
  apply (Hall (Settle file)). by apply list_elem_of_In.
Qed.

(** X8. Processing an image that has no backup yet, with backups on, and
    then restoring it gives the image the bytes it had before the
    processing, whatever the pipeline did and whether or not the refresh of
    the view worked; the backup holds the same bytes. *)
Theorem process_then_restore
    (autocropImage : Plugin → Buffer → Logged (option Buffer))
    (refreshImageCache : TFile → result unit) (P : Plugin) (file : TFile) (w : World)
    (original : Buffer) :
  is_Some (sharp P) → keepBackup (settings P) = true → path file ∉ processing w →
  vault w !! path file = Some (File original) →
  vault w !! getBackupPath (path file) = None →
  let w1 := (processImage autocropImage refreshImageCache P file w).2 in
  let w2 := (restoreFromBackup refreshImageCache file w1).2 in
  vault w2 !! path file = Some (File original)
  ∧ vault w2 !! getBackupPath (path file) = Some (File original).
Proof.
  intros Hsharp Hkeep Hnotin Hread Hnone w1 w2. unfold w2, w1. clear w1 w2.
  apply restoreFromBackup_vault.
  destruct (processImage_cases autocropImage refreshImageCache P file w)
    as [[Hno _]|[(_ & Hin & _)|(_ & _ & ->)]].
  - rewrite Hno in Hsharp. by destruct Hsharp.
  - done.
  - pose proof (processImage_run_effect autocropImage refreshImageCache P file
                  (with_processing ({[path file]} ∪ processing w) w))
      as (_ & _ & _ & _ & H).
    simpl in H. rewrite Hread in H. destruct H as [H _]. by apply H.
Qed.

Lemma process_then_restore_witness :
  let file := {| path := "art/a.png"; name := "a.png" |} in
  let w := fresh {[ "art/a.png" := File (Toy.encode Toy.picture) ]} in
  let w1 := (processImage Main.autocropImage (λ _, Ok ()) (Toy.plugin 2 true) file w).2 in
  let w2 := (restoreFromBackup (λ _, Ok ()) file w1).2 in
  vault w2 !! path file = Some (File (Toy.encode Toy.picture))
  ∧ vault w2 !! getBackupPath (path file) = Some (File (Toy.encode Toy.picture)).
Proof.
  apply (process_then_restore Main.autocropImage (λ _, Ok ()) (Toy.plugin 2 true)
           {| path := "art/a.png"; name := "a.png" |}
           (fresh {[ "art/a.png" := File (Toy.encode Toy.picture) ]})
           (Toy.encode Toy.picture)).
  - by eexists.
  - reflexivity.
  - simpl. apply not_elem_of_empty.
  - reflexivity.
  - reflexivity.
Defined.

(** X9. Once an image has a backup, the backup keeps its bytes through
    every sequence of requests, runs and delays in which each call of
    [processImage] is for an image file, and restoring the image afterwards
    gives it the bytes of the backup: no run, of the image or of another
    file, ever writes to a backup. *)
Theorem backup_outlives_runs
    (autocropImage : Plugin → Buffer → Logged (option Buffer))
    (refreshImageCache : TFile → result unit) (P : Plugin) (s : Sched)
    (events : list Event) (file : TFile) (original : Buffer) :
  vault (world s) !! getBackupPath (path file) = Some (File original) →
  guarded events = true →
  let s' := run autocropImage refreshImageCache P s events in
  vault (world s') !! getBackupPath (path file) = Some (File original)
  ∧ vault (restoreFromBackup refreshImageCache file (world s')).2 !! path file
    = Some (File original).
Proof.
  intros Hbackup Hguarded s'.
  assert (vault (world s') !! getBackupPath (path file) = Some (File original)) as Hkept.
  { apply run_keeps; [done|]. intros g Hg.
    apply isImageFile_ne_backup. by apply (guarded_settle events). }
  split; [done|]. by apply restoreFromBackup_vault.
Qed.

Lemma backup_outlives_runs_witness :
  let file := {| path := "art/a.png"; name := "a.png" |} in
  let s := start (fresh {[ "art/a.png" := File (Toy.encode Toy.picture);
                           "art/_originals/a.png" := File [7] ]}) in
  let s' := run Main.autocropImage (λ _, Ok ()) (Toy.plugin 2 true) s
              [Request file; Settle file; Elapse 2000; Request file; Settle file] in
  vault (world s') !! getBackupPath (path file) = Some (File [7])
  ∧ vault (restoreFromBackup (λ _, Ok ()) file (world s')).2 !! path file = Some (File [7]).
Proof.
  apply (backup_outlives_runs Main.autocropImage (λ _, Ok ()) (Toy.plugin 2 true)
           (start (fresh {[ "art/a.png" := File (Toy.encode Toy.picture);
                            "art/_originals/a.png" := File [7] ]}))
           [Request {| path := "art/a.png"; name := "a.png" |};
            Settle {| path := "art/a.png"; name := "a.png" |}; Elapse 2000;
            Request {| path := "art/a.png"; name := "a.png" |};
            Settle {| path := "art/a.png"; name := "a.png" |}]
           {| path := "art/a.png"; name := "a.png" |} [7]).
  - reflexivity.
  - reflexivity.
Defined.

(** X10. The only files that a call of [processImage] creates are backups:
    each file created is at the backup path of the image and holds the
    bytes the image had, it is no image file, and the handler of the
    vault's create events schedules nothing for it. A run does not set off
    another run. *)
Theorem processImage_creates_only_backups
    (autocropImage : Plugin → Buffer → Logged (option Buffer))
    (refreshImageCache : TFile → result unit) (P : Plugin) (file : TFile) (w : World) :
  ∃ ops,
    journal (processImage autocropImage refreshImageCache P file w).2 = journal w ++ ops
    ∧ ∀ q contents, CreatedBinary q contents ∈ ops →
        q = getBackupPath (path file) ∧ vault w !! path file = Some (File contents)
        ∧ isImageFile q = false
        ∧ ∀ ready st created, path created = q →
            fileCreatedHandler ready st created = None.
Proof.
  destruct (processImage_journal autocropImage refreshImageCache P file w)
    as (ops & Hjournal & Hcreated).
  exists ops. split; [done|]. intros q contents Hin.
  destruct (Hcreated q contents Hin) as [-> Hread].
  split_and!; [done|done|apply isImageFile_backup|].
  intros ready st created Hpath. unfold fileCreatedHandler.
  rewrite Hpath, isImageFile_backup. simpl. by repeat case_match.
Qed.

(** X11. A call of [processImage] never throws. It returns true exactly
    when the library is loaded, no run holds the path, the file can be
    read, [autocropImage] returns a buffer and the refresh of the view
    works. When only the refresh throws, the call returns false and shows
    the notice of a failure although the image has been replaced. *)
Theorem processImage_returns
    (autocropImage : Plugin → Buffer → Logged (option Buffer))
    (refreshImageCache : TFile → result unit) (P : Plugin) (file : TFile) (w : World) :
  let r := (processImage autocropImage refreshImageCache P file w).1 in
  let w' := (processImage autocropImage refreshImageCache P file w).2 in
  (∃ answer, r = Ok answer)
  ∧ (r = Ok true
     ↔ is_Some (sharp P) ∧ (path file ∉ processing w)
       ∧ ∃ contents out lines,
           vault w !! path file = Some (File contents)
           ∧ autocropImage P contents = (Ok (Some out), lines)
           ∧ refreshImageCache file = Ok ())
  ∧ (∀ contents out lines reason,
       is_Some (sharp P) → path file ∉ processing w →
       vault w !! path file = Some (File contents) →
       autocropImage P contents = (Ok (Some out), lines) →
       refreshImageCache file = Err reason →
       r = Ok false ∧ vault w' !! path file = Some (File out)
       ∧ notices w' = notices w ++ [failure_notice file reason]).
Proof.
  intros r w'. unfold r, w'. clear r w'.
  split; [apply processImage_answer|].
  destruct (processImage_cases autocropImage refreshImageCache P file w)
    as [[Hnone ->]|[(_ & Hin & ->)|(Hsharp & Hnotin & ->)]].
  - rewrite Hnone. simpl. split.
    + split; [done|]. intros ([? ?] & _). done.
    + intros ? ? ? ? [? ?]. done.
  - simpl. split; [|done]. split; [done|]. intros (_ & ? & _). done.
  - set (w0 := with_processing _ w).
    pose proof (processImage_run_effect autocropImage refreshImageCache P file w0)
      as (_ & _ & _ & _ & H).
    change (vault w0) with (vault w) in H. change (notices w0) with (notices w) in H.
    split.
    + split.
      * intros Htrue. split_and!; [done..|].
        destruct (vault w !! path file) as [[contents|]|];
          [|destruct H as (_ & _ & Hr & _); congruence..].
        destruct H as [_ H].
        destruct (autocropImage P contents) as [[[out|]|reason] lines] eqn:Hcrop;
          [|destruct H as (_ & Hr & _); congruence..].
        destruct H as (_ & _ & H).
        destruct (refreshImageCache file) as [[]|reason];
          [|destruct H as [Hr _]; congruence].
        by exists contents, out, lines.
      * intros (_ & _ & contents & out & lines & Hread & Hcrop & Hrefresh).
        rewrite Hread, Hcrop, Hrefresh in H. apply H.
    + intros contents out lines reason _ _ Hread Hcrop Hrefresh.
      rewrite Hread, Hcrop, Hrefresh in H. destruct H as (_ & Hv & _ & Hr & Hn).
      by split_and!.
Qed.

(** X12. In both variants [autocropImage] returns no buffer only when the
    library is missing, so the branch of [processImage] for it is never
    taken: every call that finds the path free shows exactly one notice,
    of a success or of a failure. *)
Theorem processImage_always_notifies
    (refreshImageCache : TFile → result unit) (P : Plugin) (file : TFile) (w : World)
    (inputBuffer : Buffer) :
  ((Main.autocropImage P inputBuffer).1 = Ok None ↔ sharp P = None)
  ∧ ((Part000.autocropImage P inputBuffer).1 = Ok None ↔ sharp P = None)
  ∧ (path file ∉ processing w →
     length (notices (processImage Main.autocropImage refreshImageCache P file w).2)
     = S (length (notices w))
     ∧ length (notices (processImage Part000.autocropImage refreshImageCache P file w).2)
       = S (length (notices w))).
Proof.
  assert ((Main.autocropImage P inputBuffer).1 = Ok None ↔ sharp P = None) as Hmain.
  { clear. unfold Main.autocropImage, Main.resizeOnly.
    destruct (sharp P) as [sh|]; [|done].
    destruct (Main.crop sh (settings P) inputBuffer); simpl; [done|].
    by destruct (sharp_png sh inputBuffer). }
  assert ((Part000.autocropImage P inputBuffer).1 = Ok None ↔ sharp P = None) as Hpart.
  { clear. unfold Part000.autocropImage, Part000.resizeOnly.
    destruct (sharp P) as [sh|]; [|done].
    destruct (Part000.workingBuffer P inputBuffer) as [working lines].
    destruct (Part000.crop sh (settings P) working) as [|error]; simpl; [done|].
    destruct (includes error "trim"); simpl; [|done].
    by destruct (sharp_resize_contain_png sh inputBuffer (targetSize (settings P))). }
  split_and!; [done..|]. clear Hmain Hpart inputBuffer.
  intros Hnotin.
  assert (∀ autocropImage : Plugin → Buffer → Logged (option Buffer),
            (∀ contents, is_Some (sharp P) → (autocropImage P contents).1 ≠ Ok None) →
            length (notices (processImage autocropImage refreshImageCache P file w).2)
            = S (length (notices w))) as Hone.
  { intros autocropImage Hsome.
    destruct (processImage_cases autocropImage refreshImageCache P file w)
      as [[Hnone ->]|[(_ & Hin & _)|(Hsharp & _ & ->)]]; [|done|].
    - simpl. by rewrite length_app, Nat.add_1_r.
    - set (w0 := with_processing _ w).
      pose proof (processImage_run_effect autocropImage refreshImageCache P file w0)
        as (_ & _ & _ & _ & H).
      change (notices w0) with (notices w) in H.
      destruct (vault w0 !! path file) as [[contents|]|];
        [|destruct H as (_ & _ & _ & ->); by rewrite length_app, Nat.add_1_r..].
      destruct H as [_ H]. specialize (Hsome contents Hsharp).
      destruct (autocropImage P contents) as [[[out|]|reason] lines]; [|done|].
      + destruct H as (_ & _ & H).
        destruct (refreshImageCache file); destruct H as [_ ->];
          by rewrite length_app, Nat.add_1_r.
      + destruct H as (_ & _ & ->). by rewrite length_app, Nat.add_1_r. }
  split; apply Hone; intros contents [sh Hsh] Hnone.
  - unfold Main.autocropImage, Main.resizeOnly in Hnone. rewrite Hsh in Hnone.
    destruct (Main.crop sh (settings P) contents); simpl in Hnone; [done|].
    by destruct (sharp_png sh contents).
  - unfold Part000.autocropImage, Part000.resizeOnly in Hnone. rewrite Hsh in Hnone.
    destruct (Part000.workingBuffer P contents) as [working lines].
    destruct (Part000.crop sh (settings P) working) as [|error]; simpl in Hnone; [done|].
    destruct (includes error "trim"); simpl in Hnone; [|done].
    by destruct (sharp_resize_contain_png sh contents (targetSize (settings P))).
Qed.

Lemma processImage_always_notifies_witness :
  let file := {| path := "art/a.png"; name := "a.png" |} in
  let w := fresh {[ "art/a.png" := File Toy.garbage ]} in
  length (notices (processImage Main.autocropImage (λ _, Ok ()) (Toy.plugin 2 true)
                     file w).2) = 1%nat.
Proof.
  intros file w.
  exact (proj1 (proj2 (proj2 (processImage_always_notifies (λ _, Ok ()) (Toy.plugin 2 true)
                                file w []))
                  ltac:(simpl; apply not_elem_of_empty))).
Defined.

(** ** Processing a whole folder *)

Lemma TAbstractFile_nested_ind (Q : TAbstractFile → Prop) :
  (∀ file, Q (AFile file)) →
  (∀ p children, Forall Q children → Q (AFolder p children)) →
  ∀ child, Q child.
Proof.
  intros Hfile Hfolder. fix IH 1. intros [file|p children]; [apply Hfile|].
  apply Hfolder. induction children as [|child children IHc]; constructor; [apply IH|done].
Qed.

Lemma filter_flat_map {A B} (Q : B → Prop) `{∀ x, Decision (Q x)} (f g : A → list B)
    (l : list A) :
  Forall (λ a, g a = filter Q (f a)) l → flat_map g l = filter Q (flat_map f l).
Proof.
  induction 1 as [|a l Ha _ IH]; simpl; [done|]. by rewrite filter_app, Ha, IH.
Qed.

Lemma images_under_filter (child : TAbstractFile) :
  images_under child = filter (λ file, isImageFile (path file) = true) (files_under child).
Proof.
  induction child as [file|p children IH] using TAbstractFile_nested_ind; simpl.
  - destruct (isImageFile (path file)) eqn:Himage.
    + by rewrite filter_cons_True.
    + rewrite filter_cons_False; [done|]. by rewrite Himage.
  - by apply filter_flat_map.
Qed.

Lemma getAllImagesInFolder_filter (children : list TAbstractFile) :
  getAllImagesInFolder children
  = filter (λ file, isImageFile (path file) = true) (flat_map files_under children).
Proof.
  unfold getAllImagesInFolder. apply filter_flat_map, Forall_forall.
  intros child _. apply images_under_filter.
Qed.

Lemma getAllImagesInFolder_images (children : list TAbstractFile) (file : TFile) :
  file ∈ getAllImagesInFolder children → isImageFile (path file) = true.
Proof. rewrite getAllImagesInFolder_filter. by intros [? _]%list_elem_of_filter. Qed.

(** X13. The walk of a folder returns the files below it that are image
    files, each as often and in the order the walk meets them, down through
    all the folders; none of them lies below an [_originals] folder, so no
    backup is among them. *)
Theorem getAllImagesInFolder_spec (children : list TAbstractFile) :
  getAllImagesInFolder children
  = filter (λ file, isImageFile (path file) = true) (flat_map files_under children)
  ∧ ∀ file, file ∈ getAllImagesInFolder children →
      includes (toLowerCase (path file)) "/_originals/" = false
      ∧ ∀ p, path file ≠ getBackupPath p.
Proof.
  split; [apply getAllImagesInFolder_filter|].
  intros file Hin%getAllImagesInFolder_images. split.
  - unfold isImageFile in Hin.
    by destruct (includes (toLowerCase (path file)) "/_originals/").
  - intros p. by apply isImageFile_ne_backup.
Qed.

Section batch.

Variable autocropImage : Plugin → Buffer → Logged (option Buffer).
Variable refreshImageCache : TFile → result unit.

Local Abbreviation process := (processImage autocropImage refreshImageCache).
Local Abbreviation one := (process_one autocropImage refreshImageCache).
Local Abbreviation each := (process_each autocropImage refreshImageCache).
Local Abbreviation given := (answers autocropImage refreshImageCache).

(** One turn of the loop: the call does not throw, the counter of its
    answer goes up by one, and the world is that of the call after the
    pause. *)
Lemma process_one_spec P tally file w :
  ∃ answer : bool,
    (process P file w).1 = Ok answer
    ∧ one P tally file w
      = (Ok (if answer
             then {| processed := processed tally + 1; failed := failed tally |}
             else {| processed := processed tally; failed := failed tally + 1 |}),
         (sleep 100 (process P file w).2).2).
Proof.
  unfold process_one, mbind, M_bind.
  destruct (processImage_answer autocropImage refreshImageCache P file w) as [answer Hr].
  exists answer. split; [done|].
  destruct (process P file w) as [r w1]. simpl in Hr. subst r. done.
Qed.

Lemma sleep_vault ms w : vault (sleep ms w).2 = vault w.
Proof. done. Qed.

Lemma process_each_spec P files : ∀ tally w,
  ∃ tally',
    (each P tally files w).1 = Ok tally'
    ∧ processed tally'
      = processed tally
        + Z.of_nat (length (filter (λ a, succeeded a = true) (given P files w)))
    ∧ failed tally'
      = failed tally
        + Z.of_nat (length (filter (λ a, succeeded a = false) (given P files w)))
    ∧ processed tally' + failed tally'
      = processed tally + failed tally + Z.of_nat (length files)
    ∧ ∀ q entry, q ∉ path <$> files → vault w !! q = Some entry →
        vault (each P tally files w).2 !! q = Some entry.
Proof.
  induction files as [|file files IH]; intros tally w.
  - exists tally. simpl. split_and!; [done|lia|lia|lia|done].
  - destruct (process_one_spec P tally file w) as (answer & Hr & Hone).
    cbn [process_each answers]. unfold mbind, M_bind. rewrite Hone, Hr.
    set (w1 := (sleep 100 (process P file w).2).2).
    set (tally1 := if answer then _ else _).
    destruct (IH tally1 w1) as (tally' & Hr' & Hp & Hf & Hsum & Hframe).
    exists tally'. split; [done|].
    assert (∀ q entry, q ∉ path <$> file :: files → vault w !! q = Some entry →
              vault (each P tally1 files w1).2 !! q = Some entry) as Hframe'.
    { intros q entry Hq Hlook. rewrite fmap_cons, not_elem_of_cons in Hq.
      destruct Hq as [Hne Hq]. apply Hframe; [done|]. unfold w1. rewrite sleep_vault.
      by apply processImage_frame. }
    subst tally1. destruct answer; cbn [succeeded processed failed] in *.
    + rewrite filter_cons_True by done. rewrite filter_cons_False by done.
      cbn [length]. split_and!; [lia..|done].
    + rewrite filter_cons_False by done. rewrite filter_cons_True by done.
      cbn [length]. split_and!; [lia..|done].
Qed.

End batch.

(** X14. Processing the watched folder never throws. When the folder holds
    image files, the last notice gives two counts: the first is the number
    of calls of [processImage] in the batch that returned true and the
    second the number of the other calls, each call being made in the world
    that the turns before it left; they add up to the number of image files
    found. Every entry of the vault that is no image file, and so every
    backup, is after the batch what it was before. *)
Theorem processAllInFolder_spec
    (autocropImage : Plugin → Buffer → Logged (option Buffer))
    (refreshImageCache : TFile → result unit) (P : Plugin)
    (folder : option TAbstractFile) (w : World) :
  let r := (processAllInFolder autocropImage refreshImageCache P folder w).1 in
  let w' := (processAllInFolder autocropImage refreshImageCache P folder w).2 in
  r = Ok ()
  ∧ (∀ p children,
       folder = Some (AFolder p children) → getAllImagesInFolder children ≠ [] →
       let files := getAllImagesInFolder children in
       let begun := with_notice ("Processing " +:+ pretty (length files) +:+ " images...") w in
       let given := answers autocropImage refreshImageCache P files begun in
       ∃ tally, last (notices w') = Some (batch_notice tally)
                ∧ processed tally
                  = Z.of_nat (length (filter (λ a, succeeded a = true) given))
                ∧ failed tally
                  = Z.of_nat (length (filter (λ a, succeeded a = false) given))
                ∧ processed tally + failed tally = Z.of_nat (length files))
  ∧ (∀ q entry, isImageFile q = false → vault w !! q = Some entry →
       vault w' !! q = Some entry).
Proof.
  intros r w'. unfold r, w'. clear r w'. unfold processAllInFolder.
  destruct folder as [[file|p children]|]; [by split_and!| |by split_and!].
  destruct (getAllImagesInFolder children) as [|file files] eqn:Hfiles.
  { split_and!; [done| |done]. intros ? ? [= <- <-] Hne. by rewrite Hfiles in Hne. }
  cbn [length Nat.eqb]. unfold mbind, M_bind, new_Notice.
  set (w0 := with_notice _ w).
  destruct (process_each_spec autocropImage refreshImageCache P (file :: files)
              {| processed := 0; failed := 0 |} w0)
    as (tally & Hr & Hp & Hf & Hsum & Hframe).
  destruct (process_each autocropImage refreshImageCache P _ (file :: files) w0)
    as [r w1]. simpl in Hr. subst r. cbn [processed failed] in Hp, Hf, Hsum.
  cbn [fst snd notices with_notice].
  split_and!; [done| |].
  - intros ? ? [= <- <-] _. rewrite Hfiles. cbn zeta. exists tally. split_and!.
    + unfold batch_notice. by rewrite last_snoc.
    + rewrite Hp. cbn [length]. fold w0. lia.
    + rewrite Hf. cbn [length]. fold w0. lia.
    + rewrite Hsum. lia.
  - intros q entry Himage Hlook. apply Hframe; [|done].
    intros (image & -> & Hin)%list_elem_of_fmap.
    rewrite <- Hfiles in Hin. apply getAllImagesInFolder_images in Hin. congruence.
Qed.

(** A folder with a picture, bytes that are no image, a note and an older
    backup: one image is processed, one fails, and the backup is not
    looked at. *)
Example processAllInFolder_two_images :
  let picture := {| path := "art/a.png"; name := "a.png" |} in
  let broken := {| path := "art/sub/b.PNG"; name := "b.PNG" |} in
  let folder :=
    AFolder "art"
      [AFile picture; AFile {| path := "art/notes.md"; name := "notes.md" |};
       AFolder "art/_originals"
         [AFile {| path := "art/_originals/a.png"; name := "a.png" |}];
       AFolder "art/sub" [AFile broken]] in
  let w := fresh {[ "art/a.png" := File (Toy.encode Toy.picture);
                    "art/sub/b.PNG" := File Toy.garbage;
                    "art/_originals/a.png" := File [7] ]} in
  let batch := processAllInFolder Main.autocropImage (λ _, Ok ()) (Toy.plugin 2 false)
                 (Some folder) w in
  batch.1 = Ok ()
  ∧ notices batch.2
    = ["Processing 2 images...";
       "Image autocropped: a.png";
       "Failed to process b.PNG: Input buffer contains unsupported image format";
       "Processed 1 images, 1 skipped/failed"]
  ∧ vault batch.2 !! "art/_originals/a.png" = Some (File [7]).
Proof. by vm_compute. Qed.

(** ** More on the transparency masker *)

(** The test on a masked buffer is the test on the buffer: it reads colour
    bytes only. *)
Lemma near_background_masked pixels bg tolerance bg' tolerance' k :
  k `mod` 4 = 0 →
  near_background (makeBackgroundTransparent pixels bg tolerance) bg' tolerance' k
  = near_background pixels bg' tolerance' k.
Proof.
  intros Hk. unfold near_background. rewrite !makeBackgroundTransparent_get.
  repeat case_decide; try done; exfalso;
    repeat match goal with H : _ ∧ _ |- _ => destruct H end; lia.
Qed.

(** Every byte after two maskings, in terms of the input. *)
Lemma makeBackgroundTransparent_twice_get pixels bg1 t1 bg2 t2 j :
  buf_get (makeBackgroundTransparent (makeBackgroundTransparent pixels bg1 t1) bg2 t2) j
  = if decide (j `mod` 4 = 3
               ∧ (near_background pixels bg1 t1 (j - 3) = true
                  ∨ near_background pixels bg2 t2 (j - 3) = true)
               ∧ 0 ≤ j < buf_length pixels)
    then Num 0 else buf_get pixels j.
Proof.
  rewrite makeBackgroundTransparent_get, makeBackgroundTransparent_length.
  destruct (decide (j `mod` 4 = 3)) as [Hmod|Hmod].
  - rewrite near_background_masked by lia. rewrite makeBackgroundTransparent_get.
    repeat case_decide; try done; exfalso; tauto.
  - rewrite makeBackgroundTransparent_get.
    repeat case_decide; try done; exfalso; tauto.
Qed.

Lemma near_background_mono pixels bg t t' k :
  t ≤ t' → near_background pixels bg t k = true → near_background pixels bg t' k = true.
Proof.
  intros Ht. unfold near_background.
  destruct (num_abs (num_sub (buf_get pixels k) (r bg))) as [dr|];
    destruct (num_abs (num_sub (buf_get pixels (k + 1)) (g bg))) as [dg|];
    destruct (num_abs (num_sub (buf_get pixels (k + 2)) (b bg))) as [db|];
    simpl; rewrite ?andb_false_r; try done.
  rewrite !andb_true_iff, !Z.leb_le. lia.
Qed.

(** X15. Two maskings, each with a background and a tolerance of its own,
    give the same buffer in either order. *)
Theorem makeBackgroundTransparent_commutes
    (pixels : Buffer) (bg1 bg2 : Color) (t1 t2 : Z) :
  makeBackgroundTransparent (makeBackgroundTransparent pixels bg1 t1) bg2 t2
  = makeBackgroundTransparent (makeBackgroundTransparent pixels bg2 t2) bg1 t1.
Proof.
  apply buf_ext.
  - by rewrite !makeBackgroundTransparent_length.
  - intros j _. rewrite !makeBackgroundTransparent_twice_get.
    repeat case_decide; try done; exfalso; tauto.
Qed.

(** X16. Masking with one background at two tolerances, one after the
    other, gives what one masking at the larger tolerance gives: a larger
    tolerance clears every pixel that a smaller one clears. *)
Theorem makeBackgroundTransparent_larger_tolerance
    (pixels : Buffer) (bg : Color) (t1 t2 : Z) :
  makeBackgroundTransparent (makeBackgroundTransparent pixels bg t1) bg t2
  = makeBackgroundTransparent pixels bg (Z.max t1 t2).
Proof.
  apply buf_ext.
  - by rewrite !makeBackgroundTransparent_length.
  - intros j _. rewrite makeBackgroundTransparent_twice_get, makeBackgroundTransparent_get.
    assert (near_background pixels bg t1 (j - 3) = true
            ∨ near_background pixels bg t2 (j - 3) = true
            ↔ near_background pixels bg (Z.max t1 t2) (j - 3) = true) as Hmax.
    { split.
      - intros [H|H]; (eapply near_background_mono; [|exact H]); lia.
      - destruct (Z.max_spec t1 t2) as [[_ ->]|[_ ->]]; tauto. }
    repeat case_decide; try done; exfalso; tauto.
Qed.

(** Masking with a background that is not a colour changes nothing. *)
Lemma makeBackgroundTransparent_NaN pixels tolerance :
  makeBackgroundTransparent pixels {| r := NaN; g := NaN; b := NaN |} tolerance = pixels.
Proof.
  apply buf_ext.
  - by rewrite makeBackgroundTransparent_length.
  - intros j _. rewrite makeBackgroundTransparent_get.
    rewrite decide_False; [done|]. intros (_ & Hnear & _).
    unfold near_background in Hnear. simpl in Hnear.
    by destruct (buf_get pixels (j - 3)).
Qed.

(** ** More on the background detector *)

Lemma buf_get_bounded pixels lo hi i :
  Forall (λ v, lo ≤ v ≤ hi) pixels → 0 ≤ i < buf_length pixels →
  ∃ v, buf_get pixels i = Num v ∧ lo ≤ v ≤ hi.
Proof.
  intros Hall Hi. unfold buf_get, buf_length in *.
  destruct (Z.ltb_spec i 0); [lia|].
  destruct (lookup_lt_is_Some_2 pixels (Z.to_nat i)) as [v Hv]; [lia|].
  rewrite Hv. exists v. split; [done|]. by apply (Forall_lookup_1 _ _ _ _ Hall Hv).
Qed.

Section detector.

Variables (pixels : Buffer) (width height : Z).

Lemma sample_within lo hi s x y :
  buf_length pixels = width * height * 4 → Forall (λ v, lo ≤ v ≤ hi) pixels →
  0 ≤ x < width → 0 ≤ y < height →
  sums_within lo hi s → sums_within lo hi (sample pixels width s x y).
Proof.
  intros Hlen Hall Hx Hy (Hcount & sr & sg & sb & Hr & Hg & Hb & Br & Bg & Bb).
  assert (0 ≤ y * width + x < width * height) as Hk by nia.
  unfold sample, pixel_index.
  destruct (num_lt (buf_get pixels ((y * width + x) * 4 + 3)) (Num 128));
    [by split; [|exists sr, sg, sb]|].
  destruct (buf_get_bounded pixels lo hi ((y * width + x) * 4)) as (vr & -> & Hvr);
    [done|lia|].
  destruct (buf_get_bounded pixels lo hi ((y * width + x) * 4 + 1)) as (vg & -> & Hvg);
    [done|lia|].
  destruct (buf_get_bounded pixels lo hi ((y * width + x) * 4 + 2)) as (vb & -> & Hvb);
    [done|lia|].
  rewrite Hr, Hg, Hb. split; simpl; [lia|].
  exists (sr + vr), (sg + vg), (sb + vb). split_and!; try done; lia.
Qed.

Lemma sample_all_within lo hi points : ∀ s,
  buf_length pixels = width * height * 4 → Forall (λ v, lo ≤ v ≤ hi) pixels →
  (∀ x y, (x, y) ∈ points → 0 ≤ x < width ∧ 0 ≤ y < height) →
  sums_within lo hi s → sums_within lo hi (sample_all pixels width s points).
Proof.
  induction points as [|[x y] points IH]; intros s Hlen Hall Hinside Hs; [done|].
  unfold sample_all. cbn [foldl fst snd]. apply IH; [done..| |].
  - intros x' y' Hin. by apply Hinside, list_elem_of_further.
  - destruct (Hinside x y) as [Hx Hy]; [apply list_elem_of_here|].
    by apply sample_within.
Qed.

Lemma background_sums_within lo hi :
  20 ≤ width → 20 ≤ height →
  buf_length pixels = width * height * 4 → Forall (λ v, lo ≤ v ≤ hi) pixels →
  sums_within lo hi (background_sums pixels width height).
Proof.
  intros Hw Hh Hlen Hall. unfold background_sums.
  assert (sums_within lo hi
            (sample_all pixels width no_sums (corner_points width height))) as Hcorners.
  { apply sample_all_within; [done..| |].
    - intros x y Hin. apply (sampled_points_inside width height); [done..|].
      apply elem_of_app. by left.
    - split; simpl; [lia|]. exists 0, 0, 0. split_and!; try done; lia. }
  destruct (count _ <? 100); [|done].
  apply sample_all_within; [done..| |done].
  intros x y Hin. apply (sampled_points_inside width height); [done..|].
  apply elem_of_app. by right.
Qed.

Lemma sample_count s x y : 0 ≤ count s → 0 ≤ count (sample pixels width s x y).
Proof.
  intros Hs. unfold sample.
  destruct (num_lt (buf_get pixels (pixel_index width x y + 3)) (Num 128)); simpl; lia.
Qed.

Lemma sample_lost s x y : sums_lost s → sums_lost (sample pixels width s x y).
Proof.
  intros (Hr & Hg & Hb & Hcount). unfold sample.
  destruct (num_lt (buf_get pixels (pixel_index width x y + 3)) (Num 128));
    [done|].
  unfold sums_lost. simpl. rewrite Hr, Hg, Hb. split_and!; try done. lia.
Qed.

(** A sample before the start of the buffer loses the sums. *)
Lemma sample_outside s x y :
  pixel_index width x y + 3 < 0 → 0 ≤ count s → sums_lost (sample pixels width s x y).
Proof.
  intros Hidx Hs. unfold sample.
  rewrite !(buf_get_outside pixels) by lia. simpl.
  unfold sums_lost. simpl.
  destruct (sum_r s), (sum_g s), (sum_b s); split_and!; try done; lia.
Qed.

Lemma sample_all_lost points : ∀ s,
  sums_lost s → sums_lost (sample_all pixels width s points).
Proof.
  induction points as [|[x y] points IH]; intros s Hs; [done|].
  unfold sample_all. cbn [foldl fst snd]. apply IH. by apply sample_lost.
Qed.

Lemma sample_all_outside points x y : ∀ s,
  (x, y) ∈ points → pixel_index width x y + 3 < 0 → 0 ≤ count s →
  sums_lost (sample_all pixels width s points).
Proof.
  induction points as [|[x' y'] points IH]; intros s Hin Hidx Hs;
    [by apply elem_of_nil in Hin|].
  unfold sample_all. cbn [foldl fst snd].
  apply elem_of_cons in Hin as [[= <- <-]|Hin].
  - apply sample_all_lost. by apply sample_outside.
  - apply IH; [done..|]. by apply sample_count.
Qed.

(** In an image narrower or lower than 20 pixels the corner pass reaches a
    pixel before the start of the buffer. *)
Lemma corner_point_outside :
  0 < width → 0 < height → width < 20 ∨ height < 20 →
  ∃ x y, (x, y) ∈ corner_points width height ∧ pixel_index width x y + 3 < 0.
Proof.
  intros Hw Hh Hsmall. unfold corner_points, corners, sampleSize, pixel_index.
  destruct (decide (width < 20)) as [Hnarrow|Hwide].
  - exists (width - 20), 0. split; [|lia].
    apply list_elem_of_bind_iff. exists (width - 20, 0). split; [|apply list_elem_of_further, list_elem_of_here].
    apply list_elem_of_bind_iff. exists 0. split; [|apply elem_of_for_range_unit; lia].
    apply list_elem_of_bind_iff. exists 0. split; [|apply elem_of_for_range_unit; lia].
    cbn [fst snd]. rewrite !Z.add_0_r.
    destruct (Z.geb_spec (width - 20) width); [lia|].
    destruct (Z.geb_spec 0 height); [lia|]. simpl. apply list_elem_of_here.
  - exists 0, (height - 20). split; [|nia].
    apply list_elem_of_bind_iff. exists (0, height - 20).
    split; [|apply list_elem_of_further, list_elem_of_further, list_elem_of_here].
    apply list_elem_of_bind_iff. exists 0. split; [|apply elem_of_for_range_unit; lia].
    apply list_elem_of_bind_iff. exists 0. split; [|apply elem_of_for_range_unit; lia].
    cbn [fst snd]. rewrite !Z.add_0_r.
    destruct (Z.geb_spec 0 width); [lia|].
    destruct (Z.geb_spec (height - 20) height); [lia|]. simpl. apply list_elem_of_here.
Qed.

Lemma detectBackgroundColor_lost :
  0 < width → 0 < height → width < 20 ∨ height < 20 →
  detectBackgroundColor pixels width height = Some {| r := NaN; g := NaN; b := NaN |}.
Proof.
  intros Hw Hh Hsmall.
  destruct (corner_point_outside Hw Hh Hsmall) as (x & y & Hin & Hidx).
  assert (sums_lost (background_sums pixels width height)) as (Hr & Hg & Hb & Hcount).
  { unfold background_sums.
    assert (sums_lost (sample_all pixels width no_sums (corner_points width height)))
      as Hcorners by (by apply (sample_all_outside _ x y)).
    destruct (count _ <? 100); [|done]. by apply sample_all_lost. }
  unfold detectBackgroundColor. rewrite Hr, Hg, Hb.
  destruct (Z.eqb_spec (count (background_sums pixels width height)) 0); [lia|done].
Qed.

End detector.

(** X17. For every image of at least 20 by 20 pixels whose bytes all lie
    between [lo] and [hi] (0 and 255 for an image), the colour that the
    detector returns has three numbers for its channels, each between [lo]
    and [hi]: no sample is read outside the buffer, and a rounded mean lies
    between the least and the greatest of its samples. *)
Theorem detectBackgroundColor_in_range
    (pixels : Buffer) (width height lo hi : Z) (bg : Color) :
  20 ≤ width → 20 ≤ height → buf_length pixels = width * height * 4 →
  Forall (λ v, lo ≤ v ≤ hi) pixels →
  detectBackgroundColor pixels width height = Some bg →
  ∃ cr cg cb, bg = rgb cr cg cb ∧ lo ≤ cr ≤ hi ∧ lo ≤ cg ≤ hi ∧ lo ≤ cb ≤ hi.
Proof.
  intros Hw Hh Hlen Hall. unfold detectBackgroundColor.
  destruct (background_sums_within pixels width height lo hi Hw Hh Hlen Hall)
    as (Hcount & sr & sg & sb & -> & -> & -> & Br & Bg & Bb).
  set (n := count (background_sums pixels width height)) in *. clearbody n.
  destruct (Z.eqb_spec n 0) as [|Hn]; [done|]. intros [= <-].
  assert (∀ s, lo * n ≤ s ≤ hi * n → lo ≤ (2 * s + n) / (2 * n) ≤ hi) as Hmean.
  { intros s Hs. split.
    - apply Z.div_le_lower_bound; [lia|]. nia.
    - assert ((2 * s + n) / (2 * n) < hi + 1); [|lia].
      apply Z.div_lt_upper_bound; [lia|]. nia. }
  exists ((2 * sr + n) / (2 * n)), ((2 * sg + n) / (2 * n)), ((2 * sb + n) / (2 * n)).
  split; [done|]. split_and!; by apply Hmean.
Qed.

Lemma detectBackgroundColor_in_range_witness :
  ∃ cr cg cb, rgb 9 9 9 = rgb cr cg cb ∧ 0 ≤ cr ≤ 255 ∧ 0 ≤ cg ≤ 255 ∧ 0 ≤ cb ≤ 255.
Proof.
  apply (detectBackgroundColor_in_range (solid 400 9 9 9 255) 20 20 0 255 (rgb 9 9 9)).
  - lia.
  - lia.
  - vm_compute. reflexivity.
  - apply (bool_decide_unpack _). vm_compute. exact I.
  - vm_compute. reflexivity.
Defined.

(** ** What main.ts hands to the library *)

(** An ascending and a descending scan of [0 .. n-1] for the same test. *)
Lemma scans_valid (Q : Z → bool) (n : Z) :
  0 < n →
  let first := default 0 (List.find Q (seqZ 0 n)) in
  let past := default n ((λ z, z + 1) <$> List.find Q (reverse (seqZ 0 n))) in
  0 ≤ first ∧ first < past ∧ past ≤ n.
Proof.
  intros Hn.
  destruct (List.find Q (seqZ 0 n)) as [lo|] eqn:Hlo;
    destruct (List.find Q (reverse (seqZ 0 n))) as [hi|] eqn:Hhi; simpl.
  - apply find_ascending in Hlo as (Hlo & Hfound & _).
    apply find_descending in Hhi as (Hhi & _ & Hafter).
    split_and!; [lia| |lia].
    destruct (decide (lo ≤ hi)); [lia|]. rewrite Hafter in Hfound by lia. done.
  - apply find_ascending in Hlo as (Hlo & Hfound & _).
    by rewrite (find_reverse_scan_None Q n lo) in Hfound.
  - apply find_descending in Hhi as (Hhi & Hfound & _).
    by rewrite (find_scan_None Q n hi) in Hfound.
  - lia.
Qed.

Lemma findContentBounds_valid (threshold : Z) (pixels : Buffer) (width height : Z) :
  0 < width → 0 < height →
  let bounds := findContentBounds threshold pixels width height in
  0 ≤ top bounds ∧ top bounds < bottom bounds ∧ bottom bounds ≤ height
  ∧ 0 ≤ left bounds ∧ left bounds < right bounds ∧ right bounds ≤ width.
Proof.
  intros Hw Hh. unfold findContentBounds. cbn [top bottom left right].
  pose proof (scans_valid (row_has_content pixels width threshold) height Hh) as (? & ? & ?).
  pose proof (scans_valid (column_has_content pixels width height threshold) width Hw)
    as (? & ? & ?).
  by split_and!.
Qed.

(** The pixels that [Main.crop] scans and hands on. *)
Lemma main_crop_pixels (sh : Sharp) (st : Settings) (inputBuffer : Buffer) (raw : RawImage) :
  sharp_raw sh inputBuffer = Ok raw →
  ∃ pixels,
    Main.crop sh st inputBuffer
    = sharp_extract_resize_png sh
        {| data := pixels; info_width := info_width raw; info_height := info_height raw |}
        (region_of (findContentBounds (trimThreshold st) pixels
                      (info_width raw) (info_height raw)))
        (targetSize st)
    ∧ pixels = match detectBackgroundColor (data raw) (info_width raw) (info_height raw) with
               | Some bg => makeBackgroundTransparent (data raw) bg 30
               | None => data raw
               end.
Proof. intros Hraw. unfold Main.crop. rewrite Hraw. eexists. by split. Qed.

(** X18. Whenever the library decodes the input to an image of positive
    width and height, the region that main.ts asks the library to extract
    is not empty and lies inside the image, and the pixels it hands over
    are those decoded but for alpha bytes set to 0: same length, same
    colour bytes. *)
Theorem crop_region_inside
    (sh : Sharp) (st : Settings) (inputBuffer : Buffer) (raw : RawImage) :
  sharp_raw sh inputBuffer = Ok raw → 0 < info_width raw → 0 < info_height raw →
  ∃ pixels region,
    Main.crop sh st inputBuffer
    = sharp_extract_resize_png sh
        {| data := pixels; info_width := info_width raw; info_height := info_height raw |}
        region (targetSize st)
    ∧ buf_length pixels = buf_length (data raw)
    ∧ (∀ j, j `mod` 4 ≠ 3 → buf_get pixels j = buf_get (data raw) j)
    ∧ (∀ j, buf_get pixels j = buf_get (data raw) j ∨ buf_get pixels j = Num 0)
    ∧ 0 ≤ region_left region ∧ 0 ≤ region_top region
    ∧ 0 < region_width region ∧ 0 < region_height region
    ∧ region_left region + region_width region ≤ info_width raw
    ∧ region_top region + region_height region ≤ info_height raw.
Proof.
  intros Hraw Hw Hh.
  destruct (main_crop_pixels sh st inputBuffer raw Hraw) as (pixels & Hcrop & Hpixels).
  exists pixels, (region_of (findContentBounds (trimThreshold st) pixels
                              (info_width raw) (info_height raw))).
  pose proof (findContentBounds_valid (trimThreshold st) pixels (info_width raw)
                (info_height raw) Hw Hh) as (? & ? & ? & ? & ? & ?).
  split; [done|].
  assert (buf_length pixels = buf_length (data raw)
          ∧ (∀ j, j `mod` 4 ≠ 3 → buf_get pixels j = buf_get (data raw) j)
          ∧ (∀ j, buf_get pixels j = buf_get (data raw) j ∨ buf_get pixels j = Num 0))
    as (? & ? & ?).
  { rewrite Hpixels.
    destruct (detectBackgroundColor _ _ _) as [bg|]; [|by split_and!; [| |left]].
    split_and!.
    - apply makeBackgroundTransparent_length.
    - intros j Hj. rewrite makeBackgroundTransparent_get.
      rewrite decide_False; [done|]. by intros (? & _).
    - intros j. rewrite makeBackgroundTransparent_get. case_decide; [by right|by left]. }
  unfold region_of. cbn [region_left region_top region_width region_height].
  split_and!; try done; lia.
Qed.

Lemma crop_region_inside_witness :
  ∃ pixels region,
    Main.crop Toy.library (settings (Toy.plugin 2 false)) (Toy.encode Toy.picture)
    = sharp_extract_resize_png Toy.library
        {| data := pixels; info_width := 3; info_height := 2 |} region 2
    ∧ buf_length pixels = buf_length (data Toy.picture)
    ∧ (∀ j, j `mod` 4 ≠ 3 → buf_get pixels j = buf_get (data Toy.picture) j)
    ∧ (∀ j, buf_get pixels j = buf_get (data Toy.picture) j ∨ buf_get pixels j = Num 0)
    ∧ 0 ≤ region_left region ∧ 0 ≤ region_top region
    ∧ 0 < region_width region ∧ 0 < region_height region
    ∧ region_left region + region_width region ≤ 3
    ∧ region_top region + region_height region ≤ 2.
Proof.
  apply (crop_region_inside Toy.library (settings (Toy.plugin 2 false))
           (Toy.encode Toy.picture) Toy.picture).
  - reflexivity.
  - simpl. lia.
  - simpl. lia.
Defined.

(** X19. For every image narrower or lower than 20 pixels, whatever its
    pixels, the corner pass of the detector reads before the start of the
    buffer, the colour it returns is (NaN, NaN, NaN), the masker then clears
    nothing, and main.ts crops the pixels as they were decoded: no
    background is removed from such an image. *)
Theorem small_images_keep_their_background
    (sh : Sharp) (st : Settings) (inputBuffer : Buffer) (raw : RawImage) :
  sharp_raw sh inputBuffer = Ok raw → 0 < info_width raw → 0 < info_height raw →
  info_width raw < 20 ∨ info_height raw < 20 →
  detectBackgroundColor (data raw) (info_width raw) (info_height raw)
  = Some {| r := NaN; g := NaN; b := NaN |}
  ∧ Main.crop sh st inputBuffer
    = sharp_extract_resize_png sh raw
        (region_of (findContentBounds (trimThreshold st) (data raw)
                      (info_width raw) (info_height raw)))
        (targetSize st).
Proof.
  intros Hraw Hw Hh Hsmall.
  pose proof (detectBackgroundColor_lost (data raw) (info_width raw) (info_height raw)
                Hw Hh Hsmall) as Hlost.
  split; [done|].
  destruct (main_crop_pixels sh st inputBuffer raw Hraw) as (pixels & -> & ->).
  rewrite Hlost, makeBackgroundTransparent_NaN. by destruct raw.
Qed.

Lemma small_images_keep_their_background_witness :
  detectBackgroundColor (data Toy.picture) 3 2 = Some {| r := NaN; g := NaN; b := NaN |}
  ∧ Main.crop Toy.library (settings (Toy.plugin 2 false)) (Toy.encode Toy.picture)
    = sharp_extract_resize_png Toy.library Toy.picture
        (region_of (findContentBounds 10 (data Toy.picture) 3 2)) 2.
Proof.
  apply (small_images_keep_their_background Toy.library (settings (Toy.plugin 2 false))
           (Toy.encode Toy.picture) Toy.picture).
  - reflexivity.
  - simpl. lia.
  - simpl. lia.
  - left. simpl. lia.
Defined.

(** ** parseColor *)

Lemma hex_digit_plain (c : Ascii.ascii) (v : Z) :
  hex_digit c = Some v →
  0 ≤ v ≤ 15 ∧ is_white_space c = false ∧ Ascii.eqb c "-" = false
  ∧ Ascii.eqb c "+" = false ∧ Ascii.eqb c "x" = false ∧ Ascii.eqb c "X" = false.
Proof.
  destruct c as [[] [] [] [] [] [] [] []]; vm_compute; intros [= <-]; by split_and!.
Qed.

(** Two digits are read as the number they write. *)
Lemma parseInt16_pair (c1 c2 : Ascii.ascii) (v1 v2 : Z) :
  hex_digit c1 = Some v1 → hex_digit c2 = Some v2 →
  parseInt16 (String c1 (String c2 "")) = Num (16 * v1 + v2)
  ∧ 0 ≤ 16 * v1 + v2 ≤ 255.
Proof.
  intros H1 H2.
  destruct (hex_digit_plain c1 v1 H1) as (Hv1 & Hw1 & Hm1 & Hp1 & _).
  destruct (hex_digit_plain c2 v2 H2) as (Hv2 & _ & _ & _ & Hx2 & HX2).
  split; [|lia].
  unfold parseInt16. cbn [skip_white_space]. rewrite Hw1, Hm1, Hp1. cbn [fst snd].
  rewrite Hx2, HX2, andb_false_r. cbn [hex_digits]. rewrite H1, H2. simpl default.
  f_equal. lia.
Qed.

(** X20. A colour written as six digits of base 16, with or without a
    [#] before them, is parsed to the three bytes that the pairs of digits
    write, each between 0 and 255, and is opaque. *)
Theorem parseColor_hex (c1 c2 c3 c4 c5 c6 : Ascii.ascii) (v1 v2 v3 v4 v5 v6 : Z) :
  hex_digit c1 = Some v1 → hex_digit c2 = Some v2 → hex_digit c3 = Some v3 →
  hex_digit c4 = Some v4 → hex_digit c5 = Some v5 → hex_digit c6 = Some v6 →
  let hex := String c1 (String c2 (String c3 (String c4 (String c5 (String c6 ""))))) in
  parseColor hex
  = {| red := Num (16 * v1 + v2); green := Num (16 * v3 + v4); blue := Num (16 * v5 + v6);
       alpha_255 := Num 255 |}
  ∧ parseColor (String "#" hex) = parseColor hex
  ∧ 0 ≤ 16 * v1 + v2 ≤ 255 ∧ 0 ≤ 16 * v3 + v4 ≤ 255 ∧ 0 ≤ 16 * v5 + v6 ≤ 255.
Proof.
  intros H1 H2 H3 H4 H5 H6 hex.
  destruct (parseInt16_pair c1 c2 v1 v2 H1 H2) as [Hr ?].
  destruct (parseInt16_pair c3 c4 v3 v4 H3 H4) as [Hg ?].
  destruct (parseInt16_pair c5 c6 v5 v6 H5 H6) as [Hb ?].
  assert (∀ c v, hex_digit c = Some v → Ascii.eqb c "#" = false) as Hhash
    by (intros c v; destruct c as [[] [] [] [] [] [] [] []]; vm_compute; congruence).
  assert (remove_first "#" hex = hex) as Hplain.
  { unfold hex. cbn [remove_first].
    by rewrite (Hhash c1 v1), (Hhash c2 v2), (Hhash c3 v3), (Hhash c4 v4),
      (Hhash c5 v5), (Hhash c6 v6). }
  assert (parseColor hex
          = {| red := Num (16 * v1 + v2); green := Num (16 * v3 + v4);
               blue := Num (16 * v5 + v6); alpha_255 := Num 255 |}) as Hparsed.
  { unfold parseColor. rewrite Hplain. unfold hex.
    change (js_substring _ 0 2) with (String c1 (String c2 "")).
    change (js_substring _ 2 4) with (String c3 (String c4 "")).
    change (js_substring _ 4 6) with (String c5 (String c6 "")).
    by rewrite Hr, Hg, Hb. }
  split_and!; [done| |lia..].
  unfold parseColor. change (remove_first "#" (String "#" hex)) with hex.
  by rewrite Hplain.
Qed.

Lemma parseColor_hex_witness :
  parseColor "ff8000"
  = {| red := Num (16 * 15 + 15); green := Num (16 * 8 + 0); blue := Num (16 * 0 + 0);
       alpha_255 := Num 255 |}
  ∧ parseColor "#ff8000" = parseColor "ff8000"
  ∧ 0 ≤ 16 * 15 + 15 ≤ 255 ∧ 0 ≤ 16 * 8 + 0 ≤ 255 ∧ 0 ≤ 16 * 0 + 0 ≤ 255.
Proof.
  apply (parseColor_hex "f" "f" "8" "0" "0" "0" 15 15 8 0 0 0); reflexivity.
Defined.

(** ** Background removal in part_000 on small images *)

Lemma part000_corner_point_outside (width height : Z) :
  0 < width → 0 < height → width < 20 ∨ height < 20 →
  ∃ x y, (x, y) ∈ Part000.corner_points width height ∧ pixel_index width x y + 3 < 0.
Proof.
  intros Hw Hh Hsmall. unfold Part000.corner_points, corners, sampleSize, pixel_index.
  destruct (decide (width < 20)) as [Hnarrow|Hwide].
  - exists (width - 20), 0. split; [|lia].
    apply list_elem_of_bind_iff. exists (width - 20, 0).
    split; [|apply list_elem_of_further, list_elem_of_here].
    apply list_elem_of_bind_iff. exists 0. cbn [fst snd].
    split; [|apply elem_of_for_range_unit; lia].
    apply list_elem_of_bind_iff. exists 0.
    split; [|apply elem_of_for_range_unit; lia].
    rewrite !Z.add_0_r. apply list_elem_of_here.
  - exists 0, (height - 20). split; [|nia].
    apply list_elem_of_bind_iff. exists (0, height - 20).
    split; [|apply list_elem_of_further, list_elem_of_further, list_elem_of_here].
    apply list_elem_of_bind_iff. exists 0. cbn [fst snd].
    split; [|apply elem_of_for_range_unit; lia].
    apply list_elem_of_bind_iff. exists 0.
    split; [|apply elem_of_for_range_unit; lia].
    rewrite !Z.add_0_r. apply list_elem_of_here.
Qed.

(** X22. In part_000 too the corner pass reads before the start of the
    buffer when the image is narrower or lower than 20 pixels: whatever the
    pixels, the colour printed is RGB(NaN, NaN, NaN), no pixel is cleared,
    and what comes back is the encoding of the pixels as they were
    decoded. *)
Theorem part000_background_kept_on_small_images
    (sh : Sharp) (st : Settings) (inputBuffer : Buffer) (raw : RawImage) :
  sharp_metadata sh inputBuffer
  = Ok {| md_width := Some (info_width raw); md_height := Some (info_height raw) |} →
  sharp_raw sh inputBuffer = Ok raw →
  0 < info_width raw → 0 < info_height raw →
  info_width raw < 20 ∨ info_height raw < 20 →
  Part000.removeBackground_try sh st inputBuffer
  = (Some <$> sharp_raw_png sh raw, ["Detected background color: RGB(NaN, NaN, NaN)"]).
Proof.
  intros Hmeta Hraw Hw Hh Hsmall.
  destruct (part000_corner_point_outside _ _ Hw Hh Hsmall) as (x & y & Hin & Hidx).
  pose proof (sample_all_outside (data raw) (info_width raw)
                (Part000.corner_points (info_width raw) (info_height raw)) x y no_sums
                Hin Hidx ltac:(simpl; lia)) as (Hr & Hg & Hb & Hcount).
  unfold Part000.removeBackground_try. rewrite Hmeta. cbn [md_width md_height].
  destruct (Z.eqb_spec (info_width raw) 0); [lia|].
  destruct (Z.eqb_spec (info_height raw) 0); [lia|]. cbn [orb].
  rewrite Hraw.
  set (s := sample_all _ _ _ _) in *.
  destruct (Z.eqb_spec (count s) 0); [lia|].
  rewrite Hr, Hg, Hb. cbn [num_round_div r g b show].
  rewrite makeBackgroundTransparent_NaN. by destruct raw.
Qed.

Lemma part000_background_kept_on_small_images_witness :
  Part000.removeBackground_try Toy.library (settings (Toy.plugin 2 false))
    (Toy.encode Toy.picture)
  = (Some <$> sharp_raw_png Toy.library Toy.picture,
     ["Detected background color: RGB(NaN, NaN, NaN)"]).
Proof.
  apply (part000_background_kept_on_small_images Toy.library
           (settings (Toy.plugin 2 false)) (Toy.encode Toy.picture) Toy.picture).
  - reflexivity.
  - reflexivity.
  - simpl. lia.
  - simpl. lia.
  - left. simpl. lia.
Defined.

(** ** The backup of a watched file *)

Lemma forward_slashes_plain (s : string) :
  occurs backslash s = false → forward_slashes s = s.
Proof.
  induction s as [|c s IH]; simpl; [done|].
  intros [Hc Hs]%orb_false_iff. by rewrite Hc, IH.
Qed.

Lemma occurs_backup (p : string) :
  occurs backslash p = false → occurs backslash (getBackupPath p) = false.
Proof.
  intros Hp.
  destruct (path_split p) as [Hname|(dir & name & -> & Hname)].
  - rewrite getBackupPath_root by done.
    by rewrite occurs_app, Hp.
  - rewrite getBackupPath_folder by done.
    rewrite !occurs_app in Hp. rewrite !occurs_app.
    apply orb_false_iff in Hp as [Hdir Hp]. apply orb_false_iff in Hp as [_ Hn].
    by rewrite Hdir, Hn.
Qed.

(** X23. The backup of a file that lies in the watched folder lies in the
    watched folder too (for paths written with slashes, as the vault's
    are), so the event of its creation passes the folder test of the
    handler; it is the test for image files that stops it. *)
Theorem backup_passes_the_folder_test (st : Settings) (filePath : string) :
  occurs backslash filePath = false →
  isInWatchedFolder st filePath = true →
  filePath ≠ strip_slashes (watchedFolder st) →
  isInWatchedFolder st (getBackupPath filePath) = true
  ∧ isImageFile (getBackupPath filePath) = false.
Proof.
  intros Hplain Hwatched Hfolder. split; [|apply isImageFile_backup].
  apply isInWatchedFolder_prefix in Hwatched.
  rewrite forward_slashes_plain in Hwatched by done.
  destruct Hwatched as [Hsame|[tail Htail]]; [done|].
  apply isInWatchedFolder_prefix. right.
  rewrite forward_slashes_plain by (by apply occurs_backup).
  set (folder := strip_slashes (watchedFolder st)) in *. rewrite Htail.
  destruct (path_split tail) as [Hname|(dir & name & -> & Hname)].
  - exists ("_originals/" +:+ tail). by rewrite getBackupPath_folder.
  - exists (dir +:+ "/_originals/" +:+ name).
    rewrite <- (string_app_assoc "/" dir), <- (string_app_assoc folder).
    rewrite getBackupPath_folder by done.
    by rewrite !string_app_assoc.
Qed.

Lemma backup_passes_the_folder_test_witness :
  isInWatchedFolder DEFAULT_SETTINGS (getBackupPath "_Assets/Enluminures/a.png") = true
  ∧ isImageFile (getBackupPath "_Assets/Enluminures/a.png") = false.
Proof.
  apply (backup_passes_the_folder_test DEFAULT_SETTINGS "_Assets/Enluminures/a.png").
  - reflexivity.
  - reflexivity.
  - vm_compute. congruence.
Defined.
